(** * sonLib ETree: a heap model of [sonLibETree.c]

    The C file manipulates [ETree] nodes through pointers: a node owns a
    list of child pointers, holds a back pointer to its parent, a pointer
    to a heap allocated label and a [double] branch length.  The
    development below keeps that shape: a memory made of two typed
    stores (tree nodes and character buffers), an error monad threading
    it, and one Rocq definition per C function, statement by statement.

    Conventions.
    - [assert] is active (a debug build): a failed assertion ends the
      program, result [Abort].
    - Dereferencing a pointer that is not allocated (dangling or freed)
      is undefined behaviour in C, result [Fault].
    - Recursion that C leaves unbounded carries a fuel argument; running
      out of it is the separate result [NoFuel]. *)

From Stdlib Require Import ZArith Ascii String List Lia.
From Stdlib Require Import Floats.SpecFloat.
From stdpp Require Import gmap list strings.

Open Scope Z_scope.
Open Scope list_scope.

(** ** Values *)

Abbreviation loc := positive.

(** C strings are held by their contents. *)
Abbreviation cstr := (list ascii).

(** [double] is IEEE 754 binary64. *)
Definition double := spec_float.
Definition prec : Z := 53.
Definition emax : Z := 1024.

(** The macro [INFINITY] of <math.h>. *)
Definition INFINITY : double := S754_infinity false.
Definition zero : double := S754_zero false.

(** [x != y] on doubles (false exactly when IEEE equality holds). *)
Definition double_ne (x y : double) : bool := negb (SFeqb x y).

(** The two libc conversions the file relies on:
    [sscanf(token, "%lf", &d) == 1] and the ["%f"] directive of the
    printf family (through [stringPrint]). *)
Class Libc := {
  sscanf_lf : cstr -> option double;
  printf_f : double -> cstr
}.

(** ** Memory *)

(** [struct ETree]; the [struct List *nodes] it owns is held inline. *)
Record ETree := mkETree {
  branchLength : double;
  nodes : list loc;
  label : option loc;
  parent : option loc
}.

Record mem := mkMem {
  trees : gmap loc ETree;
  strs : gmap loc cstr
}.

Definition empty_mem : mem := mkMem ∅ ∅.

Inductive result (A : Type) : Type :=
| Ok (a : A)
| Abort
| Fault
| NoFuel.
Arguments Ok {A} a.
Arguments Abort {A}.
Arguments Fault {A}.
Arguments NoFuel {A}.

Definition M (A : Type) : Type := mem -> result (A * mem).

Definition ret {A} (a : A) : M A := fun σ => Ok (a, σ).

Definition bind {A B} (m : M A) (k : A -> M B) : M B :=
  fun σ =>
    match m σ with
    | Ok (a, σ') => k a σ'
    | Abort => Abort
    | Fault => Fault
    | NoFuel => NoFuel
    end.

Declare Scope mem_scope.
Delimit Scope mem_scope with mem.
Notation "'let*' x := m 'in' k" := (bind m (fun x => k))
  (at level 10, x pattern, m at level 100, k at level 200) : mem_scope.
Notation "m ;; k" := (bind m (fun _ => k))
  (at level 100, k at level 200, right associativity) : mem_scope.
Open Scope mem_scope.

Definition assert (b : bool) : M unit :=
  fun σ => if b then Ok (tt, σ) else Abort.

Definition out_of_fuel {A} : M A := fun _ => NoFuel.

Definition set_trees (t : gmap loc ETree) (σ : mem) : mem := mkMem t (strs σ).
Definition set_strs (s : gmap loc cstr) (σ : mem) : mem := mkMem (trees σ) s.

(** [mallocLocal(sizeof(ETree))] followed by the initialisation. *)
Definition alloc_tree (n : ETree) : M loc :=
  fun σ => let p := fresh (dom (trees σ)) in
           Ok (p, set_trees (<[p := n]> (trees σ)) σ).

(** Read through an [ETree *]. *)
Definition load (p : loc) : M ETree :=
  fun σ => match trees σ !! p with
           | Some n => Ok (n, σ)
           | None => Fault
           end.

(** Write through an [ETree *]. *)
Definition store (p : loc) (n : ETree) : M unit :=
  fun σ => match trees σ !! p with
           | Some _ => Ok (tt, set_trees (<[p := n]> (trees σ)) σ)
           | None => Fault
           end.

Definition alloc_str (s : cstr) : M loc :=
  fun σ => let p := fresh (dom (strs σ)) in
           Ok (p, set_strs (<[p := s]> (strs σ)) σ).

Definition load_str (p : loc) : M cstr :=
  fun σ => match strs σ !! p with
           | Some s => Ok (s, σ)
           | None => Fault
           end.

(** [free] of a character buffer. *)
Definition free (p : loc) : M unit :=
  fun σ => match strs σ !! p with
           | Some _ => Ok (tt, set_strs (delete p (strs σ)) σ)
           | None => Fault
           end.

(** ** Collaborators that are not part of the file *)

(** Modelled from the spec: [stringCopy], the string utility "copy"
    ([stString_copy]: copies a string into a new buffer). *)
Definition stringCopy (s : loc) : M loc :=
  let* c := load_str s in alloc_str c.

(** Modelled from the spec: [listRemove], the dynamic array's
    "remove-by-value"; the first slot holding the item is removed. *)
Fixpoint listRemove (l : list loc) (item : loc) : list loc :=
  match l with
  | [] => []
  | x :: l' => if Pos.eqb x item then l' else x :: listRemove l' item
  end.

(** Modelled from the spec: [listAppend], the dynamic array's "append". *)
Definition listAppend (l : list loc) (item : loc) : list loc := l ++ [item].

(** ** The tree operations *)

Definition eTree_construct : M loc :=
  alloc_tree (mkETree INFINITY [] None None).

Definition eTree_getParent (eTree : loc) : M (option loc) :=
  let* n := load eTree in ret (parent n).

Definition eTree_setParent (eTree : loc) (parent' : option loc) : M unit :=
  (let* p := eTree_getParent eTree in
   match p with
   | Some _ =>
       let* q := eTree_getParent eTree in
       match q with
       | Some q =>
           let* n := load q in
           store q (mkETree (branchLength n) (listRemove (nodes n) eTree) (label n) (parent n))
       | None => fun _ => Fault
       end
   | None => ret tt
   end);;
  (let* n := load eTree in
   store eTree (mkETree (branchLength n) (nodes n) (label n) parent'));;
  match parent' with
  | Some q =>
      let* n := load q in
      store q (mkETree (branchLength n) (listAppend (nodes n) eTree) (label n) (parent n))
  | None => ret tt
  end.

(** [int32_t eTree_getChildNumber]: the list's length field (a list
    that fits in memory has fewer than 2^31 entries). *)
Definition eTree_getChildNumber (eTree : loc) : M Z :=
  let* n := load eTree in ret (Z.of_nat (length (nodes n))).

Definition eTree_getChild (eTree : loc) (i : Z) : M loc :=
  assert (0 <=? i);;
  let* k := eTree_getChildNumber eTree in
  assert (i <? k);;
  let* n := load eTree in
  match nth_error (nodes n) (Z.to_nat i) with
  | Some c => ret c
  | None => fun _ => Fault
  end.

Definition eTree_getBranchLength (eTree : loc) : M double :=
  let* n := load eTree in ret (branchLength n).

Definition eTree_setBranchLength (eTree : loc) (distance : double) : M unit :=
  let* n := load eTree in
  store eTree (mkETree distance (nodes n) (label n) (parent n)).

Definition eTree_getLabel (eTree : loc) : M (option loc) :=
  let* n := load eTree in ret (label n).

Definition eTree_setLabel (eTree : loc) (label' : option loc) : M unit :=
  (let* n := load eTree in
   match label n with
   | Some l => free l
   | None => ret tt
   end);;
  let* l :=
    match label' with
    | None => ret None
    | Some s => let* c := stringCopy s in ret (Some c)
    end in
  let* n := load eTree in
  store eTree (mkETree (branchLength n) (nodes n) l (parent n)).

(** ** Programs over the tree interface *)

(** A caller of the interface: any sequence of these calls. *)
Inductive op : Type :=
| Construct
| SetParent (eTree : loc) (parent' : option loc)
| SetBranchLength (eTree : loc) (distance : double)
| SetLabel (eTree : loc) (label' : option loc).

Definition run_op (o : op) : M unit :=
  match o with
  | Construct => eTree_construct;; ret tt
  | SetParent n p => eTree_setParent n p
  | SetBranchLength n d => eTree_setBranchLength n d
  | SetLabel n l => eTree_setLabel n l
  end.

(** Memories a caller can reach from one that holds no tree node yet
    (its character buffers [s0] are arbitrary). *)
Inductive reachable (s0 : gmap loc cstr) : mem -> Prop :=
| reach_init : reachable s0 (mkMem ∅ s0)
| reach_op o σ σ' :
    reachable s0 σ -> run_op o σ = Ok (tt, σ') -> reachable s0 σ'.

(** Following [k] parent links upwards from [n]. *)
Fixpoint climb (t : gmap loc ETree) (k : nat) (n : loc) : option loc :=
  match k with
  | O => Some n
  | S k' =>
      match t !! n with
      | Some N =>
          match parent N with
          | Some p => climb t k' p
          | None => None
          end
      | None => None
      end
  end.

(** [a] is a proper ancestor of [n] ([n] a proper descendant of [a]). *)
Definition is_ancestor (t : gmap loc ETree) (a n : loc) : Prop :=
  exists k, climb t (S k) n = Some a.

Definition acyclic (t : gmap loc ETree) : Prop :=
  forall n, ~ is_ancestor t n n.

(** The reparenting calls that keep the parent links free of cycles: the
    new parent is neither the node nor one of its descendants. *)
Definition op_guard (t : gmap loc ETree) (o : op) : Prop :=
  match o with
  | SetParent n (Some p) => n <> p /\ ~ is_ancestor t n p
  | _ => True
  end.

Inductive reachable_guarded (s0 : gmap loc cstr) : mem -> Prop :=
| greach_init : reachable_guarded s0 (mkMem ∅ s0)
| greach_op o σ σ' :
    reachable_guarded s0 σ -> op_guard (trees σ) o ->
    run_op o σ = Ok (tt, σ') -> reachable_guarded s0 σ'.

(** The parent/child links agree: child lists have no repetition, every
    listed child points back, every parent lists its child. *)
Definition linked (t : gmap loc ETree) : Prop :=
  forall n N, t !! n = Some N ->
    NoDup (nodes N) /\
    (forall c, c ∈ nodes N -> exists C, t !! c = Some C /\ parent C = Some n) /\
    (forall p, parent N = Some p -> exists P, t !! p = Some P /\ n ∈ nodes P).

(** ** String utilities used by the Newick code *)

Definition cs (s : string) : cstr := list_ascii_of_string s.

(** [isspace] in the C locale: space and the characters 9 to 13. *)
Definition isspace (c : ascii) : bool :=
  let n := nat_of_ascii c in
  Nat.eqb n 32 || (Nat.leb 9 n && Nat.leb n 13).

Fixpoint skip_spaces (s : cstr) : cstr :=
  match s with
  | c :: s' => if isspace c then skip_spaces s' else s
  | [] => []
  end.

(** The longest prefix without white space, and what follows it. *)
Fixpoint span_word (s : cstr) : cstr * cstr :=
  match s with
  | c :: s' =>
      if isspace c then ([], s)
      else let '(w, r) := span_word s' in (c :: w, r)
  | [] => ([], [])
  end.

(** Modelled from the spec: [string_getNextWord], documented in
    sonLibString.h as "Parses the next word from a string, updates the
    string pointer and returns the parsed string. Delimiters are all
    white space characters."  The word is a new buffer; NULL when no
    word is left. *)
Definition string_getNextWord (s : cstr) : M (option loc * cstr) :=
  let '(w, r) := span_word (skip_spaces s) in
  match w with
  | [] => ret (None, r)
  | _ :: _ => let* p := alloc_str w in ret (Some p, r)
  end.

Fixpoint is_prefix (p s : cstr) : bool :=
  match p, s with
  | [], _ => true
  | a :: p', b :: s' => Ascii.eqb a b && is_prefix p' s'
  | _ :: _, [] => false
  end.

Fixpoint replace_from (toReplace replacement : cstr) (skip : nat) (s : cstr) : cstr :=
  match s with
  | [] => []
  | c :: s' =>
      match skip with
      | S k => replace_from toReplace replacement k s'
      | O =>
          if is_prefix toReplace s
          then replacement ++ replace_from toReplace replacement (Nat.pred (length toReplace)) s'
          else c :: replace_from toReplace replacement O s'
      end
  end.

(** Modelled from the spec: [string_replace], documented in
    sonLibString.h as "Creates a new version of original string with all
    instances of toReplace replaced with the replacement string";
    instances are taken from left to right. *)
Definition string_replace (originalString toReplace replacement : cstr) : cstr :=
  match toReplace with
  | [] => originalString
  | _ :: _ => replace_from toReplace replacement O originalString
  end.

(** [**token]: the first character of the buffer, the terminating NUL
    when it is empty. *)
Definition first_char (s : cstr) : ascii :=
  match s with
  | c :: _ => c
  | [] => Ascii.zero
  end.

(** ** Newick tree parser *)

(** [char **token] and [char **newickTreeString]: the current token (a
    buffer of its own) and the text not yet read. *)
Definition cursor : Type := loc * cstr.

Definition abort {A} : M A := fun _ => Abort.

(** The first assertion (the token is not NULL) holds by the type of
    the cursor; the second one is the [abort] below. *)
Definition eTree_parseNewickTreeString_getNextToken (cur : cursor) : M cursor :=
  free (fst cur);;
  let* (t, s) := string_getNextWord (snd cur) in
  match t with
  | Some token => ret (token, s)
  | None => abort
  end.

Definition eTree_parseNewickString_getLabel (cur : cursor) (eTree : loc) : M cursor :=
  let* w := load_str (fst cur) in
  let c := first_char w in
  if negb (Ascii.eqb c ":") && negb (Ascii.eqb c ",")
     && negb (Ascii.eqb c ";") && negb (Ascii.eqb c ")")
  then
    eTree_setLabel eTree (Some (fst cur));;
    eTree_parseNewickTreeString_getNextToken cur
  else ret cur.

Section Newick.
Context `{Libc}.

Definition eTree_parseNewickString_getBranchLength (cur : cursor) (eTree : loc) : M cursor :=
  let* w := load_str (fst cur) in
  if Ascii.eqb (first_char w) ":" then
    let* cur := eTree_parseNewickTreeString_getNextToken cur in
    let* w := load_str (fst cur) in
    match sscanf_lf w with
    | Some distance =>
        eTree_setBranchLength eTree distance;;
        eTree_parseNewickTreeString_getNextToken cur
    | None => abort
    end
  else ret cur.

(** The [while(1)] loop of [eTree_parseNewickStringP]; [parseP] is the
    recursive call. *)
Fixpoint parse_children (parseP : cursor -> M (loc * cursor)) (eTree : loc)
    (fuel : nat) (cur : cursor) : M cursor :=
  match fuel with
  | O => out_of_fuel
  | S fuel' =>
      let* (child, cur) := parseP cur in
      eTree_setParent child (Some eTree);;
      let* w := load_str (fst cur) in
      assert (Nat.eqb (length w) 1);;
      if Ascii.eqb (first_char w) ","
      then
        let* cur := eTree_parseNewickTreeString_getNextToken cur in
        parse_children parseP eTree fuel' cur
      else ret cur
  end.

Fixpoint eTree_parseNewickStringP (fuel : nat) (cur : cursor) : M (loc * cursor) :=
  match fuel with
  | O => out_of_fuel
  | S fuel' =>
      let* eTree := eTree_construct in
      let* w := load_str (fst cur) in
      let* cur :=
        if Ascii.eqb (first_char w) "("
        then
          assert (Nat.eqb (length w) 1);;
          let* cur := eTree_parseNewickTreeString_getNextToken cur in
          let* cur := parse_children (eTree_parseNewickStringP fuel') eTree fuel' cur in
          let* w := load_str (fst cur) in
          assert (Ascii.eqb (first_char w) ")");;
          eTree_parseNewickTreeString_getNextToken cur
        else ret cur in
      let* cur := eTree_parseNewickString_getLabel cur eTree in
      let* cur := eTree_parseNewickString_getBranchLength cur eTree in
      let* w := load_str (fst cur) in
      let c := first_char w in
      assert (Ascii.eqb c "," || Ascii.eqb c ";" || Ascii.eqb c ")");;
      ret (eTree, cur)
  end.

(** The five [string_replace] calls of [eTree_parseNewickString]. *)
Definition spaced (string : cstr) : cstr :=
  let cA := string_replace string (cs "(") (cs " ( ") in
  let cA := string_replace cA (cs ")") (cs " ) ") in
  let cA := string_replace cA (cs ":") (cs " : ") in
  let cA := string_replace cA (cs ",") (cs " , ") in
  string_replace cA (cs ";") (cs " ; ").

(** Each level of recursion and each turn of the loop reads a token
    first, so the length of the text bounds both. *)
Definition eTree_parseNewickString (string : cstr) : M loc :=
  let cA := spaced string in
  let* (t, s) := string_getNextWord cA in
  match t with
  | None => abort
  | Some token =>
      let* (eTree, cur) := eTree_parseNewickStringP (S (length cA)) (token, s) in
      let* w := load_str (fst cur) in
      assert (Ascii.eqb (first_char w) ";");;
      free (fst cur);;
      ret eTree
  end.

(** ** Newick tree writer *)

(** The [for] loop of [eTree_getNewickTreeStringP]; [writeP] is the
    recursive call, [i] the loop counter, [cA] the text so far. *)
Fixpoint write_children (writeP : loc -> M cstr) (eTree : loc)
    (fuel : nat) (i : Z) (cA : cstr) : M cstr :=
  let* n := eTree_getChildNumber eTree in
  if i <? n then
    match fuel with
    | O => out_of_fuel
    | S fuel' =>
        let* child := eTree_getChild eTree i in
        let* cA2 := writeP child in
        let* n := eTree_getChildNumber eTree in
        let cA3 := if i + 1 <? n then cA ++ cA2 ++ cs "," else cA ++ cA2 in
        write_children writeP eTree fuel' (i + 1) cA3
    end
  else ret cA.

Fixpoint eTree_getNewickTreeStringP (fuel : nat) (eTree : loc) : M cstr :=
  match fuel with
  | O => out_of_fuel
  | S fuel' =>
      let* n := eTree_getChildNumber eTree in
      let* cA :=
        if 0 <? n
        then
          let* cA := write_children (eTree_getNewickTreeStringP fuel') eTree
                       (Z.to_nat n) 0 (cs "(") in
          ret (cA ++ cs ")")
        else ret [] in
      let* l := eTree_getLabel eTree in
      let* cA :=
        match l with
        | Some p => let* s := load_str p in ret (cA ++ s)
        | None => ret cA
        end in
      let* d := eTree_getBranchLength eTree in
      if double_ne d INFINITY
      then ret (cA ++ cs ":" ++ printf_f d)
      else ret cA
  end.

(** [fuel] bounds the depth of the recursion. *)
Definition eTree_getNewickTreeString (fuel : nat) (eTree : loc) : M cstr :=
  let* cA := eTree_getNewickTreeStringP fuel eTree in
  ret (cA ++ cs ";").

End Newick.

(** ** Trees as values *)

(** What a node and its descendants hold: label text (or none), branch
    length, children in order. *)
#[local] Unset Elimination Schemes.
Inductive tree : Type :=
| Node (lbl : option cstr) (len : double) (kids : list tree).
#[local] Set Elimination Schemes.

Definition tree_label (t : tree) : option cstr := let 'Node l _ _ := t in l.
Definition tree_length (t : tree) : double := let 'Node _ d _ := t in d.
Definition tree_kids (t : tree) : list tree := let 'Node _ _ k := t in k.

Fixpoint height (t : tree) : nat :=
  let 'Node _ _ kids := t in S (list_max (List.map height kids)).

Fixpoint all_some {A} (l : list (option A)) : option (list A) :=
  match l with
  | [] => Some []
  | Some a :: l' => match all_some l' with Some r => Some (a :: r) | None => None end
  | None :: _ => None
  end.

(** The tree rooted at [r]: every child is allocated and points back to
    its parent, every label pointer is a live buffer. *)
Fixpoint read_tree (fuel : nat) (σ : mem) (r : loc) : option tree :=
  match fuel with
  | O => None
  | S fuel' =>
      match trees σ !! r with
      | None => None
      | Some N =>
          match
            (match label N with
             | None => Some None
             | Some p => match strs σ !! p with Some s => Some (Some s) | None => None end
             end),
            all_some (List.map (fun c =>
              match trees σ !! c with
              | Some C =>
                  if decide (parent C = Some r) then read_tree fuel' σ c else None
              | None => None
              end) (nodes N))
          with
          | Some l, Some kids => Some (Node l (branchLength N) kids)
          | _, _ => None
          end
      end
  end.

(** [T] is the tree at [r]. *)
Definition tree_at (σ : mem) (r : loc) (T : tree) : Prop :=
  exists fuel, read_tree fuel σ r = Some T.

(** ** A model of the two libc conversions

    Decimal numerals as [strtod] reads them in the C locale (sign,
    digits, point, exponent, [inf], [nan]; the longest such prefix of
    the text is converted, correctly rounded to nearest even), and
    ["%f"] as glibc prints it (six digits after the point, the exact
    value rounded to nearest even).  Hexadecimal numerals are not
    covered. *)
Module Glibc.

Definition digit_of (c : ascii) : option Z :=
  let n := Z.of_nat (nat_of_ascii c) in
  if (48 <=? n) && (n <=? 57) then Some (n - 48) else None.

(** Leading decimal digits: their value, their number, the rest. *)
Fixpoint read_digits (acc : Z) (cnt : nat) (s : cstr) : Z * nat * cstr :=
  match s with
  | c :: s' =>
      match digit_of c with
      | Some d => read_digits (10 * acc + d) (S cnt) s'
      | None => (acc, cnt, s)
      end
  | [] => (acc, cnt, [])
  end.

Definition read_sign (s : cstr) : bool * cstr :=
  match s with
  | c :: s' =>
      if Ascii.eqb c "-" then (true, s')
      else if Ascii.eqb c "+" then (false, s')
      else (false, s)
  | [] => (false, [])
  end.

Definition lower (c : ascii) : ascii :=
  let n := nat_of_ascii c in
  if Nat.leb 65 n && Nat.leb n 90 then ascii_of_nat (n + 32) else c.

Definition read_exponent (s : cstr) : Z :=
  match s with
  | c :: s' =>
      if Ascii.eqb (lower c) "e" then
        let '(neg, s'') := read_sign s' in
        let '(v, cnt, _) := read_digits 0 O s'' in
        match cnt with
        | O => 0
        | S _ => if neg then - v else v
        end
      else 0
  | [] => 0
  end.

(** The double nearest to [± m * 10 ^ e]. *)
Definition of_decimal (neg : bool) (m e : Z) : double :=
  if m =? 0 then S754_zero neg
  else if 0 <=? e then
    binary_normalize prec emax ((if neg then - m else m) * 10 ^ e) 0 false
  else
    let '(q, e', l) := SFdiv_core_binary prec emax m 0 (10 ^ (- e)) 0 in
    binary_round_aux prec emax neg q e' l.

Definition scan_lf (s : cstr) : option double :=
  let '(neg, s1) := read_sign (skip_spaces s) in
  if is_prefix (cs "inf") (List.map lower s1) then Some (S754_infinity neg)
  else if is_prefix (cs "nan") (List.map lower s1) then Some S754_nan
  else
    let '(ip, n1, s2) := read_digits 0 O s1 in
    let '(m, n2, s3) :=
      match s2 with
      | c :: s2' => if Ascii.eqb c "." then read_digits ip O s2' else (ip, O, s2)
      | [] => (ip, O, [])
      end in
    match (n1 + n2)%nat with
    | O => None
    | S _ => Some (of_decimal neg m (read_exponent s3 - Z.of_nat n2))
    end.

Fixpoint uint_digits (u : Decimal.uint) : cstr :=
  match u with
  | Decimal.Nil => []
  | Decimal.D0 u' => "0"%char :: uint_digits u'
  | Decimal.D1 u' => "1"%char :: uint_digits u'
  | Decimal.D2 u' => "2"%char :: uint_digits u'
  | Decimal.D3 u' => "3"%char :: uint_digits u'
  | Decimal.D4 u' => "4"%char :: uint_digits u'
  | Decimal.D5 u' => "5"%char :: uint_digits u'
  | Decimal.D6 u' => "6"%char :: uint_digits u'
  | Decimal.D7 u' => "7"%char :: uint_digits u'
  | Decimal.D8 u' => "8"%char :: uint_digits u'
  | Decimal.D9 u' => "9"%char :: uint_digits u'
  end.

Definition decimal (n : Z) : cstr :=
  match n with
  | Zpos p => uint_digits (Pos.to_uint p)
  | _ => cs "0"
  end.

(** [num / den] rounded to the nearest integer, ties to even. *)
Definition round_div (num den : Z) : Z :=
  let q := num / den in
  let r := num mod den in
  match 2 * r ?= den with
  | Lt => q
  | Gt => q + 1
  | Eq => if Z.even q then q else q + 1
  end.

(** [n] millionths, as ["%f"] lays them out. *)
Definition fixed6 (neg : bool) (n : Z) : cstr :=
  (if neg then cs "-" else []) ++ decimal (n / 1000000) ++ cs "."
  ++ tl (decimal (1000000 + n mod 1000000)).

Definition print_f (d : double) : cstr :=
  match d with
  | S754_nan => cs "nan"
  | S754_infinity neg => if neg then cs "-inf" else cs "inf"
  | S754_zero neg => fixed6 neg 0
  | S754_finite neg m e =>
      fixed6 neg
        (if 0 <=? e then Zpos m * 2 ^ e * 1000000
         else round_div (Zpos m * 1000000) (2 ^ (- e)))
  end.

#[export] Instance libc : Libc := {| sscanf_lf := scan_lf; printf_f := print_f |}.

(** The double equal to the integer [n] (when it has one). *)
Definition of_Z (n : Z) : double := binary_normalize prec emax n 0 false.

End Glibc.

(** ** Definitions used in the proofs *)

(** What [eTree_setParent n new] makes of the node [X] stored at [x],
    when [old] was the parent of [n]. *)
Definition reparent (n : loc) (old new : option loc) (x : loc) (X : ETree) : ETree :=
  mkETree (branchLength X)
    ((if decide (old = Some x) then listRemove (nodes X) n else nodes X)
       ++ (if decide (new = Some x) then [n] else []))
    (label X)
    (if decide (x = n) then new else parent X).

(** [t'] has the nodes of [t], with the same child lists and parents. *)
Definition same_links (t t' : gmap loc ETree) : Prop :=
  forall x, nodes <$> t' !! x = nodes <$> t !! x /\
            parent <$> t' !! x = parent <$> t !! x.

(** Running a list of calls. *)
Fixpoint run_ops (l : list op) : M unit :=
  match l with
  | [] => ret tt
  | o :: l' => run_op o;; run_ops l'
  end.

(** The memory after [n = eTree_construct(); eTree_setParent(n, n)]. *)
Definition self_parent_mem : mem :=
  Eval vm_compute in
    match run_ops [Construct; SetParent 1%positive (Some 1%positive)] empty_mem with
    | Ok (_, σ) => σ
    | _ => empty_mem
    end.

(** The memory after [a = eTree_construct(); b = eTree_construct();
    eTree_setParent(a, b)]. *)
Definition two_node_mem : mem :=
  Eval vm_compute in
    match run_ops [Construct; Construct; SetParent 1%positive (Some 2%positive)] empty_mem with
    | Ok (_, σ) => σ
    | _ => empty_mem
    end.

(** *** Tokens *)

(** The words of a text, in order: what successive calls of
    [string_getNextWord] return. *)
Fixpoint words (s : cstr) : list cstr :=
  match s with
  | [] => []
  | c :: s' =>
      if isspace c then words s'
      else
        match s' with
        | [] => [[c]]
        | d :: _ =>
            if isspace d then [c] :: words s'
            else
              match words s' with
              | w :: ws => (c :: w) :: ws
              | [] => [[c]]
              end
        end
  end.

Definition structural (c : ascii) : bool :=
  Ascii.eqb c "(" || Ascii.eqb c ")" || Ascii.eqb c ":" || Ascii.eqb c ","
  || Ascii.eqb c ";".

(** A word that passes through the tokenizer as one token. *)
Definition clean (w : cstr) : Prop :=
  w <> [] /\ forall c, c ∈ w -> isspace c = false /\ structural c = false.

(** A token that ends a subtree. *)
Definition closing (w : cstr) : bool :=
  let c := first_char w in
  Ascii.eqb c "," || Ascii.eqb c ";" || Ascii.eqb c ")".

(** A token read as a label. *)
Definition labelling (w : cstr) : bool :=
  let c := first_char w in
  negb (Ascii.eqb c ":") && negb (Ascii.eqb c ",")
  && negb (Ascii.eqb c ";") && negb (Ascii.eqb c ")").

(** *** The parser on token lists

    The same control flow as [eTree_parseNewickStringP], on the list of
    tokens (current token first) and building a [tree] value. *)

Definition tnext (toks : list cstr) : result (list cstr) :=
  match toks with
  | _ :: (w :: r) => Ok (w :: r)
  | _ => Abort
  end.

Definition rbind {A B} (m : result A) (k : A -> result B) : result B :=
  match m with
  | Ok a => k a
  | Abort => Abort
  | Fault => Fault
  | NoFuel => NoFuel
  end.

Definition rassert (b : bool) : result unit := if b then Ok tt else Abort.

Definition thead (toks : list cstr) : cstr :=
  match toks with
  | w :: _ => w
  | [] => []
  end.

Section TokenParser.
Context `{Libc}.

Fixpoint tparse_children (parseP : list cstr -> result (tree * list cstr))
    (fuel : nat) (toks : list cstr) : result (list tree * list cstr) :=
  match fuel with
  | O => NoFuel
  | S fuel' =>
      rbind (parseP toks) (fun '(child, toks) =>
      rbind (rassert (Nat.eqb (length (thead toks)) 1)) (fun _ =>
      if Ascii.eqb (first_char (thead toks)) ","
      then
        rbind (tnext toks) (fun toks =>
        rbind (tparse_children parseP fuel' toks) (fun '(rest, toks) =>
        Ok (child :: rest, toks)))
      else Ok ([child], toks)))
  end.

Definition tparse_label (toks : list cstr) : result (option cstr * list cstr) :=
  if labelling (thead toks)
  then rbind (tnext toks) (fun toks' => Ok (Some (thead toks), toks'))
  else Ok (None, toks).

Definition tparse_length (toks : list cstr) : result (double * list cstr) :=
  if Ascii.eqb (first_char (thead toks)) ":" then
    rbind (tnext toks) (fun toks =>
    match sscanf_lf (thead toks) with
    | Some d => rbind (tnext toks) (fun toks => Ok (d, toks))
    | None => Abort
    end)
  else Ok (INFINITY, toks).

Fixpoint tparseP (fuel : nat) (toks : list cstr) : result (tree * list cstr) :=
  match fuel with
  | O => NoFuel
  | S fuel' =>
      rbind
        (if Ascii.eqb (first_char (thead toks)) "("
         then
           rbind (rassert (Nat.eqb (length (thead toks)) 1)) (fun _ =>
           rbind (tnext toks) (fun toks =>
           rbind (tparse_children (tparseP fuel') fuel' toks) (fun '(kids, toks) =>
           rbind (rassert (Ascii.eqb (first_char (thead toks)) ")")) (fun _ =>
           rbind (tnext toks) (fun toks => Ok (kids, toks))))))
         else Ok ([], toks))
        (fun '(kids, toks) =>
      rbind (tparse_label toks) (fun '(l, toks) =>
      rbind (tparse_length toks) (fun '(d, toks) =>
      rbind (rassert (closing (thead toks))) (fun _ =>
      Ok (Node l d kids, toks)))))
  end.

(** *** The writer on trees *)

Fixpoint join_comma (l : list cstr) : cstr :=
  match l with
  | [] => []
  | s :: l' =>
      match l' with
      | [] => s
      | _ :: _ => s ++ cs "," ++ join_comma l'
      end
  end.

Definition write_length (d : double) : cstr :=
  if double_ne d INFINITY then cs ":" ++ printf_f d else [].

Definition write_label (l : option cstr) : cstr :=
  match l with
  | Some s => s
  | None => []
  end.

Definition write_kids (ks : list cstr) : cstr :=
  match ks with
  | [] => []
  | _ :: _ => cs "(" ++ join_comma ks ++ cs ")"
  end.

(** The text [eTree_getNewickTreeStringP] writes for a tree. *)
Fixpoint write_tree (t : tree) : cstr :=
  let 'Node l d kids := t in
  write_kids (List.map write_tree kids) ++ write_label l ++ write_length d.

(** The tokens of that text. *)
Fixpoint join_tokens (l : list (list cstr)) : list cstr :=
  match l with
  | [] => []
  | s :: l' =>
      match l' with
      | [] => s
      | _ :: _ => s ++ [cs ","] ++ join_tokens l'
      end
  end.

Fixpoint tree_tokens (t : tree) : list cstr :=
  let 'Node l d kids := t in
  (match kids with
   | [] => []
   | _ :: _ => [cs "("] ++ join_tokens (List.map tree_tokens kids) ++ [cs ")"]
   end)
  ++ (match l with Some s => [s] | None => [] end)
  ++ (if double_ne d INFINITY then [cs ":"; printf_f d] else []).

(** A tree whose text reads back: labels are clean words, lengths print
    as clean words that scan. *)
Fixpoint readable (t : tree) : Prop :=
  let 'Node l d kids := t in
  (match l with Some s => clean s | None => True end) /\
  (double_ne d INFINITY = true ->
     clean (printf_f d) /\ exists d', sscanf_lf (printf_f d) = Some d') /\
  (fix all (ks : list tree) : Prop :=
     match ks with
     | [] => True
     | k :: ks' => readable k /\ all ks'
     end) kids.

(** The tree read back: every length that is set goes through
    ["%f"] and then ["%lf"]. *)
Fixpoint reread (t : tree) : tree :=
  let 'Node l d kids := t in
  Node l
    (if double_ne d INFINITY
     then match sscanf_lf (printf_f d) with Some d' => d' | None => d end
     else INFINITY)
    (List.map reread kids).

End TokenParser.

(** All labels of a tree. *)
Fixpoint tree_labels (t : tree) : list cstr :=
  let 'Node l _ kids := t in
  (match l with Some s => [s] | None => [] end)
  ++ List.flat_map tree_labels kids.


(** No label of the tree is empty or holds white space. *)
Definition labels_proper (t : tree) : Prop :=
  forall s, s ∈ tree_labels t -> s <> [] /\ forall c, c ∈ s -> isspace c = false.

(** What the tokenizer yields on a spaced text: a structural character
    alone, or a word without any. *)
Definition token_ok (w : cstr) : Prop :=
  w <> [] /\
  ((exists c, structural c = true /\ w = [c]) \/
   (forall c, c ∈ w -> structural c = false)).

(** *** Trees with their addresses *)

#[local] Unset Elimination Schemes.
Inductive atree : Type :=
| ANode (a : loc) (lbl : option (loc * cstr)) (len : double) (kids : list atree).
#[local] Set Elimination Schemes.

Definition aroot (t : atree) : loc := let 'ANode a _ _ _ := t in a.

Fixpoint erase (t : atree) : tree :=
  let 'ANode _ lbl len kids := t in
  Node (snd <$> lbl) len (List.map erase kids).

(** The addresses of the nodes, and of the label buffers. *)
Fixpoint anodes (t : atree) : list loc :=
  let 'ANode a _ _ kids := t in a :: List.flat_map anodes kids.

Fixpoint alabels (t : atree) : list loc :=
  let 'ANode _ lbl _ kids := t in
  (match lbl with Some (p, _) => [p] | None => [] end)
  ++ List.flat_map alabels kids.

(** [repr σ par t]: memory holds [t] at its addresses, with [par] the
    parent pointer of its root. *)
Fixpoint repr (σ : mem) (par : option loc) (t : atree) : Prop :=
  let 'ANode a lbl len kids := t in
  trees σ !! a = Some (mkETree len (List.map aroot kids) (fst <$> lbl) par) /\
  (match lbl with Some (p, s) => strs σ !! p = Some s | None => True end) /\
  (fix all (ks : list atree) : Prop :=
     match ks with
     | [] => True
     | k :: ks' => repr σ (Some a) k /\ all ks'
     end) kids.

Fixpoint size (t : tree) : nat :=
  let 'Node _ _ kids := t in S (list_sum (List.map size kids)).

(** One of the three tokens that may follow a subtree. *)
Definition terminator (x : cstr) : Prop :=
  x = cs "," \/ x = cs ")" \/ x = cs ";".

(** *** The grammar the parser accepts

    [Subtree ::= Children? Label? Length?],
    [Children ::= "(" Subtree ("," Subtree)* ")"],
    [Length ::= ":" Number]; a label is any token the parser reads as
    one, a number any token [sscanf] converts. *)
Inductive label_part : option cstr -> list cstr -> Prop :=
| label_none : label_part None []
| label_some w : labelling w = true -> label_part (Some w) [w].

Inductive length_part `{Libc} : double -> list cstr -> Prop :=
| length_none : length_part INFINITY []
| length_some w d : sscanf_lf w = Some d -> length_part d [cs ":"; w].

Inductive subtree `{Libc} : tree -> list cstr -> Prop :=
| subtree_leaf l ltoks d dtoks :
    label_part l ltoks -> length_part d dtoks ->
    subtree (Node l d []) (ltoks ++ dtoks)
| subtree_inner k ks ktoks l ltoks d dtoks :
    siblings k ks ktoks -> label_part l ltoks -> length_part d dtoks ->
    subtree (Node l d (k :: ks)) (cs "(" :: ktoks ++ cs ")" :: ltoks ++ dtoks)
with siblings `{Libc} : tree -> list tree -> list cstr -> Prop :=
| siblings_last k toks : subtree k toks -> siblings k [] toks
| siblings_more k toks k' ks toks' :
    subtree k toks -> siblings k' ks toks' ->
    siblings k (k' :: ks) (toks ++ cs "," :: toks').

(** *** Tokenizer and round trip *)

(** A word followed by white space (or by nothing) is the next token. *)
Definition boundary (r : cstr) : Prop :=
  match r with
  | [] => True
  | c :: _ => isspace c = true
  end.

Definition space_out (c : ascii) : cstr :=
  if structural c then [" "%char; c; " "%char] else [c].

Section TokenFacts.
Context `{Libc}.

(** What a successful run on tokens has read. *)
Definition read_as (T : tree) (toks toks' : list cstr) : Prop :=
  exists pre, toks = pre ++ toks' /\
    closing (thead toks') = true /\
    (forall w, w ∈ tree_labels T -> w ∈ pre) /\
    (Forall token_ok toks -> subtree T pre).

(** The tokens of the label and of the length of a node. *)
Definition label_tokens (l : option cstr) : list cstr :=
  match l with Some s => [s] | None => [] end.

Definition length_tokens (d : double) : list cstr :=
  if double_ne d INFINITY then [cs ":"; printf_f d] else [].

Definition reread_length (d : double) : double :=
  if double_ne d INFINITY
  then match sscanf_lf (printf_f d) with Some d' => d' | None => d end
  else INFINITY.

(** What the round trip needs from one subtree. *)
Definition reads_back (t : tree) : Prop :=
  forall x rest f, terminator x -> (size t <= f)%nat ->
    tparseP f (tree_tokens t ++ x :: rest) = Ok (reread t, x :: rest).

Definition tokenizes (t : tree) : Prop :=
  forall r, boundary r ->
    words (spaced (write_tree t) ++ r) = tree_tokens t ++ words r.

End TokenFacts.

(** Reading one child of [r]. *)
Definition read_child (f : nat) (σ : mem) (r c : loc) : option tree :=
  match trees σ !! c with
  | Some C => if decide (parent C = Some r) then read_tree f σ c else None
  | None => None
  end.

(** *** The parser in memory against the parser on tokens *)

(** From memory [σ0] with current token [tok0], the parser has reached
    [σ] with current token [tok] (holding [w]) and has built [t]: new
    nodes only, nothing older touched but the token buffer. *)
Definition parsed (σ0 σ : mem) (tok0 tok : loc) (w : cstr) (t : atree) : Prop :=
  repr σ None t /\ NoDup (anodes t) /\
  (forall x, x ∈ anodes t -> x ∉ dom (trees σ0)) /\
  (forall x, x ∈ dom (trees σ0) -> trees σ !! x = trees σ0 !! x) /\
  (forall p, p ∈ dom (strs σ0) -> p <> tok0 -> strs σ !! p = strs σ0 !! p) /\
  strs σ !! tok = Some w /\
  (tok ∈ dom (strs σ0) -> tok = tok0) /\
  tok ∉ alabels t.

Definition sim_parse (pure : result (tree * list cstr))
    (heap : result ((loc * cursor) * mem)) (σ0 : mem) (tok0 : loc) : Prop :=
  match pure with
  | Ok (T, toks') =>
      exists t tok' s' σ' w',
        heap = Ok ((aroot t, (tok', s')), σ') /\ toks' = w' :: words s' /\
        erase t = T /\ parsed σ0 σ' tok0 tok' w' t
  | Abort => heap = Abort
  | NoFuel => heap = NoFuel
  | Fault => True
  end.

Definition sim_children (pure : result (list tree * list cstr))
    (heap : result (cursor * mem)) (σ0 : mem) (tok0 e : loc) (kids : list atree) : Prop :=
  match pure with
  | Ok (Ts, toks') =>
      exists kids' tok' s' σ' w',
        heap = Ok ((tok', s'), σ') /\ toks' = w' :: words s' /\
        List.map erase kids' = Ts /\
        parsed σ0 σ' tok0 tok' w' (ANode e None INFINITY (kids ++ kids'))
  | Abort => heap = Abort
  | NoFuel => heap = NoFuel
  | Fault => True
  end.

(** *** Decidable forms, for concrete trees *)

Definition cleanb (w : cstr) : bool :=
  match w with
  | [] => false
  | _ :: _ => forallb (fun c => negb (isspace c) && negb (structural c)) w
  end.

Section Readableb.
Context `{Libc}.

Fixpoint readableb (t : tree) : bool :=
  let 'Node l d kids := t in
  (match l with Some s => cleanb s | None => true end)
  && (if double_ne d INFINITY
      then cleanb (printf_f d)
           && match sscanf_lf (printf_f d) with Some _ => true | None => false end
      else true)
  && forallb readableb kids.

End Readableb.

(** *** Concrete memories *)

(** The Newick text of the scenario and the tree it denotes. *)
Definition example_text : cstr := cs "(A:1,B:2,(C:3,D:4):5);".

Definition example_tree : tree :=
  Node None INFINITY
    [Node (Some (cs "A")) (Glibc.of_Z 1) [];
     Node (Some (cs "B")) (Glibc.of_Z 2) [];
     Node None (Glibc.of_Z 5)
       [Node (Some (cs "C")) (Glibc.of_Z 3) [];
        Node (Some (cs "D")) (Glibc.of_Z 4) []]].

(** The memory [eTree_parseNewickString] leaves when it reads
    [example_text] in an empty memory; the root is at address 1. *)
Definition example_mem : mem :=
  Eval vm_compute in
    match @eTree_parseNewickString Glibc.libc example_text empty_mem with
    | Ok (_, σ) => σ
    | _ => empty_mem
    end.



(** The same with the token ["A"]. *)
Definition word_mem : mem :=
  Eval vm_compute in
    match (let* t := alloc_str (cs "A") in eTree_construct) empty_mem with
    | Ok (_, σ) => σ
    | _ => empty_mem
    end.

(** ** Destruction *)

(** [free] of a tree node. *)
Definition free_tree (p : loc) : M unit :=
  fun σ => match trees σ !! p with
           | Some _ => Ok (tt, set_trees (delete p (trees σ)) σ)
           | None => Fault
           end.

(** Modelled from the spec: [destructList], the dynamic array's
    "destructor callback": the callback given at construction is applied
    to every element, first to last, and then the array is released
    (it is held inline in the node here). *)
Fixpoint destructList (destructElement : loc -> M unit) (l : list loc) : M unit :=
  match l with
  | [] => ret tt
  | x :: l' => destructElement x;; destructList destructElement l'
  end.

(** [eTree_construct] registers [eTree_destruct] as the callback of the
    child list, so the call of [destructList] is the recursion; [fuel]
    bounds its depth. *)
Fixpoint eTree_destruct (fuel : nat) (eTree : loc) : M unit :=
  match fuel with
  | O => out_of_fuel
  | S fuel' =>
      let* n := load eTree in
      destructList (eTree_destruct fuel') (nodes n);;
      let* n := load eTree in
      (match label n with
       | Some l => free l
       | None => ret tt
       end);;
      free_tree eTree
  end.

(** [c] is listed as a child by [r]. *)
Definition child (σ : mem) (r c : loc) : Prop :=
  exists N, trees σ !! r = Some N /\ c ∈ nodes N.

(** [c] is reached from [r] through [k + 1] child lists. *)
Fixpoint below (σ : mem) (k : nat) (r c : loc) : Prop :=
  match k with
  | O => child σ r c
  | S k' => exists x, child σ r x /\ below σ k' x c
  end.

(** ** String comparison (sonLibString.h) *)

(** [strcmp] of <string.h>, on the contents (which hold no NUL): zero
    for equal strings, otherwise the sign of the difference of the first
    bytes that differ, a string that ends first being the smaller. *)
Fixpoint strcmp (s1 s2 : cstr) : Z :=
  match s1, s2 with
  | [], [] => 0
  | [], _ :: _ => -1
  | _ :: _, [] => 1
  | a :: s1', b :: s2' =>
      if Ascii.eqb a b then strcmp s1' s2'
      else Z.of_nat (nat_of_ascii a) - Z.of_nat (nat_of_ascii b)
  end.

(** [tolower] in the C locale. *)
Definition tolower (c : ascii) : ascii :=
  let n := nat_of_ascii c in
  if Nat.leb 65 n && Nat.leb n 90 then ascii_of_nat (n + 32) else c.

(** [strcasecmp] of <strings.h>: [strcmp] on the bytes after [tolower]. *)
Fixpoint strcasecmp (s1 s2 : cstr) : Z :=
  match s1, s2 with
  | [], [] => 0
  | [], _ :: _ => -1
  | _ :: _, [] => 1
  | a :: s1', b :: s2' =>
      if Ascii.eqb (tolower a) (tolower b) then strcasecmp s1' s2'
      else Z.of_nat (nat_of_ascii (tolower a)) - Z.of_nat (nat_of_ascii (tolower b))
  end.

Definition stString_eq (string1 string2 : option loc) : M bool :=
  match string1, string2 with
  | None, None => ret true
  | None, Some _ | Some _, None => ret false
  | Some p1, Some p2 =>
      let* s1 := load_str p1 in
      let* s2 := load_str p2 in
      ret (strcmp s1 s2 =? 0)
  end.

Definition stString_eqcase (string1 string2 : option loc) : M bool :=
  match string1, string2 with
  | None, None => ret true
  | None, Some _ | Some _, None => ret false
  | Some p1, Some p2 =>
      let* s1 := load_str p1 in
      let* s2 := load_str p2 in
      ret (strcasecmp s1 s2 =? 0)
  end.

(** What a [const char *] denotes: nothing for NULL, else the contents
    of the buffer. *)
Definition contents (σ : mem) (p : option loc) : option cstr :=
  match p with
  | Some q => strs σ !! q
  | None => None
  end.

(** A pointer a caller may pass: NULL or a live buffer. *)
Definition valid_str (σ : mem) (p : option loc) : Prop :=
  match p with
  | Some q => is_Some (strs σ !! q)
  | None => True
  end.

(** ** The parser's use of memory *)

(** With [parsed]: the nodes and label buffers of [t] are all the parser
    has added, the label buffers are distinct and new. *)
Definition tracked (σ0 σ : mem) (tok0 tok : loc) (t : atree) : Prop :=
  NoDup (alabels t) /\
  (forall p, p ∈ alabels t -> p ∈ dom (strs σ0) -> p = tok0) /\
  (forall x, x ∈ dom (trees σ) <-> x ∈ dom (trees σ0) \/ x ∈ anodes t) /\
  (forall p, p ∈ dom (strs σ) <->
     (p ∈ dom (strs σ0) /\ p <> tok0) \/ p = tok \/ p ∈ alabels t).

Definition parsed_exact (σ0 σ : mem) (tok0 tok : loc) (w : cstr) (t : atree) : Prop :=
  parsed σ0 σ tok0 tok w t /\ tracked σ0 σ tok0 tok t.

Definition sim_parse_exact (pure : result (tree * list cstr))
    (heap : result ((loc * cursor) * mem)) (σ0 : mem) (tok0 : loc) : Prop :=
  match pure with
  | Ok (T, toks') =>
      exists t tok' s' σ' w',
        heap = Ok ((aroot t, (tok', s')), σ') /\ toks' = w' :: words s' /\
        erase t = T /\ parsed_exact σ0 σ' tok0 tok' w' t
  | Abort => heap = Abort
  | NoFuel => heap = NoFuel
  | Fault => True
  end.

Definition sim_children_exact (pure : result (list tree * list cstr))
    (heap : result (cursor * mem)) (σ0 : mem) (tok0 e : loc) (kids : list atree) : Prop :=
  match pure with
  | Ok (Ts, toks') =>
      exists kids' tok' s' σ' w',
        heap = Ok ((tok', s'), σ') /\ toks' = w' :: words s' /\
        List.map erase kids' = Ts /\
        parsed_exact σ0 σ' tok0 tok' w' (ANode e None INFINITY (kids ++ kids'))
  | Abort => heap = Abort
  | NoFuel => heap = NoFuel
  | Fault => True
  end.

(** From [σ] to [σ']: exactly the nodes [ns] and the buffers [ls] have
    been released. *)
Definition released (σ σ' : mem) (ns ls : list loc) : Prop :=
  (forall x, trees σ' !! x = if decide (x ∈ ns) then None else trees σ !! x) /\
  (forall p, strs σ' !! p = if decide (p ∈ ls) then None else strs σ !! p).

(** ** Writing what the parser has read *)

(** A token of a spaced text: well formed and free of white space. *)
Definition proper_token (w : cstr) : Prop :=
  token_ok w /\ forall c, c ∈ w -> isspace c = false.

(** The labels the parser gives: clean words, or ["("] on a node with
    children. *)
Fixpoint labels_as_parsed (t : tree) : Prop :=
  let 'Node l _ kids := t in
  (match l with
   | Some s => clean s \/ (s = cs "(" /\ kids <> [])
   | None => True
   end) /\
  (fix all (ks : list tree) : Prop :=
     match ks with
     | [] => True
     | k :: ks' => labels_as_parsed k /\ all ks'
     end) kids.

Section Printable.
Context `{Libc}.

(** Every branch length that is set prints as a clean word that
    scans. *)
Fixpoint lengths_print (t : tree) : Prop :=
  let 'Node _ d kids := t in
  (double_ne d INFINITY = true ->
     clean (printf_f d) /\ exists d', sscanf_lf (printf_f d) = Some d') /\
  (fix all (ks : list tree) : Prop :=
     match ks with
     | [] => True
     | k :: ks' => lengths_print k /\ all ks'
     end) kids.

End Printable.

(** ** Trees built through the interface *)

(** Every label pointer is a live buffer that no other node holds. *)
Definition labels_owned (σ : mem) : Prop :=
  forall x N l, trees σ !! x = Some N -> label N = Some l ->
    is_Some (strs σ !! l) /\
    forall y N', trees σ !! y = Some N' -> label N' = Some l -> y = x.

(** ** Further concrete memories *)

(** The memory after [a = eTree_construct(); b = eTree_construct()]. *)
Definition two_nodes_apart : mem :=
  Eval vm_compute in
    match run_ops [Construct; Construct] empty_mem with
    | Ok (_, σ) => σ
    | _ => empty_mem
    end.

(** Three nodes: 1 and 2 are, in this order, the children of 3. *)
Definition two_children_mem : mem :=
  Eval vm_compute in
    match run_ops [Construct; Construct; Construct;
                   SetParent 1%positive (Some 3%positive);
                   SetParent 2%positive (Some 3%positive)] empty_mem with
    | Ok (_, σ) => σ
    | _ => empty_mem
    end.

(** Four nodes: 1 is the child of 3, and 4 has no child. *)
Definition four_node_mem : mem :=
  Eval vm_compute in
    match run_ops [Construct; Construct; Construct; Construct;
                   SetParent 1%positive (Some 3%positive);
                   SetParent 2%positive (Some 3%positive)] empty_mem with
    | Ok (_, σ) => σ
    | _ => empty_mem
    end.

(** [four_node_mem] after [eTree_setParent(1, 4)]. *)
Definition four_node_moved : mem :=
  Eval vm_compute in
    match run_ops [SetParent 1%positive (Some 4%positive)] four_node_mem with
    | Ok (_, σ) => σ
    | _ => empty_mem
    end.

(** Two buffers, ["Abc"] at address 1 and ["aBC"] at address 2. *)
Definition two_strings_mem : mem :=
  Eval vm_compute in
    match (let* a := alloc_str (cs "Abc") in alloc_str (cs "aBC")) empty_mem with
    | Ok (_, σ) => σ
    | _ => empty_mem
    end.

(** [two_children_mem] as a tree with its addresses, and its first
    child. *)
Definition two_children_tree : atree :=
  ANode 3%positive None INFINITY
    [ANode 1%positive None INFINITY []; ANode 2%positive None INFINITY []].

Definition first_child_tree : atree := ANode 1%positive None INFINITY [].

(** The text the writer gives for the tree of [example_mem]. *)
Definition example_written : cstr :=
  cs "(A:1.000000,B:2.000000,(C:3.000000,D:4.000000):5.000000);".


(** * Properties *)

(** ** The monad *)

Lemma bind_Ok {A B} (m : M A) (k : A -> M B) σ a σ' :
  m σ = Ok (a, σ') -> bind m k σ = k a σ'.
Proof. unfold bind. intros ->. reflexivity. Qed.

Lemma bind_inv {A B} (m : M A) (k : A -> M B) σ b σ'' :
  bind m k σ = Ok (b, σ'') ->
  exists a σ', m σ = Ok (a, σ') /\ k a σ' = Ok (b, σ'').
Proof.
  unfold bind. destruct (m σ) as [[a σ']| | |]; try discriminate.
  intros Hk. exists a, σ'. auto.
Qed.

Lemma load_Ok σ p N : trees σ !! p = Some N -> load p σ = Ok (N, σ).
Proof. unfold load. intros ->. reflexivity. Qed.

Lemma load_inv σ p N σ' : load p σ = Ok (N, σ') -> trees σ !! p = Some N /\ σ' = σ.
Proof. unfold load. destruct (trees σ !! p); intros [= -> ->]; auto. Qed.

Lemma store_Ok σ p N N' :
  trees σ !! p = Some N -> store p N' σ = Ok (tt, set_trees (<[p := N']> (trees σ)) σ).
Proof. unfold store. intros ->. reflexivity. Qed.

Lemma store_inv σ p N' u σ' :
  store p N' σ = Ok (u, σ') ->
  is_Some (trees σ !! p) /\ σ' = set_trees (<[p := N']> (trees σ)) σ.
Proof. unfold store. destruct (trees σ !! p) eqn:E; intros [= <- <-]; eauto. Qed.

Lemma load_str_Ok σ p s : strs σ !! p = Some s -> load_str p σ = Ok (s, σ).
Proof. unfold load_str. intros ->. reflexivity. Qed.

Lemma set_trees_id σ : set_trees (trees σ) σ = σ.
Proof. destruct σ; reflexivity. Qed.

(** ** Reparenting, seen through lookups *)

Lemma eTree_setParent_inv σ n p' u σ' :
  eTree_setParent n p' σ = Ok (u, σ') ->
  exists N, trees σ !! n = Some N /\ strs σ' = strs σ /\
    (forall q, p' = Some q -> is_Some (trees σ !! q)) /\
    (forall q, parent N = Some q -> is_Some (trees σ !! q)) /\
    forall x, trees σ' !! x = reparent n (parent N) p' x <$> trees σ !! x.
Proof.
  unfold eTree_setParent, eTree_getParent. intros H.
  apply bind_inv in H as ([] & σ1 & H1 & H).
  apply bind_inv in H as ([] & σ2 & H2 & H).
  apply bind_inv in H1 as (old & σ0 & H0 & H1).
  apply bind_inv in H0 as (N & ? & [HN ->]%load_inv & [= <- <-]).
  exists N. split; [done|].
  assert (Hold : strs σ1 = strs σ /\
            (forall q, parent N = Some q -> is_Some (trees σ !! q)) /\
            forall x, trees σ1 !! x =
              (fun X => mkETree (branchLength X)
                 (if decide (parent N = Some x) then listRemove (nodes X) n else nodes X)
                 (label X) (parent X)) <$> trees σ !! x).
  { destruct (parent N) as [q|] eqn:Epar.
    - apply bind_inv in H1 as (q' & ? & Hq' & H1).
      apply bind_inv in Hq' as (N' & ? & [HN' ->]%load_inv & [= <- <-]).
      rewrite HN in HN'. injection HN' as <-. rewrite Epar in H1.
      apply bind_inv in H1 as (Q & ? & [HQ ->]%load_inv & H1).
      apply store_inv in H1 as [_ ->]. simpl.
      split; [done|]. split; [intros ? [= <-]; eauto|].
      intros x. destruct (decide (Some q = Some x)) as [[= <-]|Hne].
      + rewrite lookup_insert_eq, HQ. reflexivity.
      + rewrite lookup_insert_ne by congruence.
        destruct (trees σ !! x) as [[]|]; reflexivity.
    - injection H1 as <-. split; [done|]. split; [done|].
      intros x. destruct (decide (None = Some x)); [done|].
      destruct (trees σ !! x) as [[]|]; reflexivity. }
  destruct Hold as (Hs1 & Hdom & Ht1).
  apply bind_inv in H2 as (N1 & ? & [HN1 ->]%load_inv & H2).
  apply store_inv in H2 as [_ ->].
  assert (Ht2 : forall x, trees (set_trees (<[n:=mkETree (branchLength N1) (nodes N1) (label N1) p']> (trees σ1)) σ1) !! x =
              (fun X => mkETree (branchLength X)
                 (if decide (parent N = Some x) then listRemove (nodes X) n else nodes X)
                 (label X) (if decide (x = n) then p' else parent X)) <$> trees σ !! x).
  { intros x. simpl. destruct (decide (x = n)) as [->|Hne].
    - rewrite lookup_insert_eq. rewrite Ht1, HN in HN1. injection HN1 as <-.
      rewrite HN. reflexivity.
    - rewrite lookup_insert_ne by congruence. apply Ht1. }
  set (σ2' := set_trees _ σ1) in *.
  assert (Hs2 : strs σ2' = strs σ) by (subst σ2'; simpl; done).
  clearbody σ2'. clear Ht1 HN1 N1.
  destruct p' as [q|].
  - apply bind_inv in H as (Q & ? & [HQ ->]%load_inv & H).
    apply store_inv in H as [_ ->]. simpl.
    split; [done|]. split.
    { intros ? [= <-]. rewrite Ht2 in HQ. destruct (trees σ !! q); [eauto|discriminate]. }
    split; [done|].
    intros x. unfold reparent. destruct (decide (Some q = Some x)) as [[= <-]|Hne].
    + rewrite lookup_insert_eq. rewrite Ht2 in HQ.
      destruct (trees σ !! q) as [Q0|]; [|discriminate]. injection HQ as <-.
      reflexivity.
    + rewrite lookup_insert_ne by congruence. rewrite Ht2.
      destruct (trees σ !! x) as [X|]; [|done]. simpl.
      destruct (decide (Some q = Some x)); [done|].
      rewrite (right_id_L [] (++)). reflexivity.
  - injection H as <- <-. split; [done|]. split; [done|]. split; [done|].
    intros x. rewrite Ht2. unfold reparent.
    destruct (trees σ !! x) as [X|]; [|done]. simpl.
    destruct (decide (None = Some x)); [done|].
    rewrite (right_id_L [] (++)). reflexivity.
Qed.

Lemma eTree_setParent_Ok σ n N p' :
  trees σ !! n = Some N ->
  (forall q, p' = Some q -> is_Some (trees σ !! q)) ->
  (forall q, parent N = Some q -> is_Some (trees σ !! q)) ->
  exists σ', eTree_setParent n p' σ = Ok (tt, σ').
Proof.
  intros HN Hnew Hold. unfold eTree_setParent, eTree_getParent.
  assert (H1 : exists σ1,
    (let* p := let* n0 := load n in ret (parent n0) in
     match p with
     | Some _ =>
         let* q := let* n0 := load n in ret (parent n0) in
         match q with
         | Some q =>
             let* n0 := load q in
             store q (mkETree (branchLength n0) (listRemove (nodes n0) n) (label n0) (parent n0))
         | None => fun _ => Fault
         end
     | None => ret tt
     end) σ = Ok (tt, σ1) /\ dom (trees σ1) = dom (trees σ)).
  { rewrite (bind_Ok _ _ σ (parent N) σ) by (by rewrite (bind_Ok _ _ σ N σ (load_Ok _ _ _ HN))).
    destruct (parent N) as [q|] eqn:Epar.
    - rewrite (bind_Ok _ _ σ (parent N) σ) by (by rewrite (bind_Ok _ _ σ N σ (load_Ok _ _ _ HN))).
      rewrite Epar. destruct (Hold q eq_refl) as [Q HQ].
      rewrite (bind_Ok _ _ σ Q σ (load_Ok _ _ _ HQ)).
      rewrite (store_Ok _ _ Q) by done. eexists; split; [done|]. simpl.
      rewrite dom_insert_L. apply elem_of_dom_2 in HQ. set_solver.
    - eexists; split; done. }
  destruct H1 as (σ1 & H1 & Hd1). rewrite (bind_Ok _ _ _ _ _ H1).
  assert (Hn1 : is_Some (trees σ1 !! n)).
  { apply elem_of_dom. rewrite Hd1. by apply elem_of_dom_2 in HN. }
  destruct Hn1 as [N1 HN1].
  rewrite (bind_Ok _ _ σ1 tt (set_trees (<[n := mkETree (branchLength N1) (nodes N1) (label N1) p']> (trees σ1)) σ1)).
  2:{ rewrite (bind_Ok _ _ σ1 N1 σ1 (load_Ok _ _ _ HN1)). by apply (store_Ok _ _ N1). }
  destruct p' as [q|]; [|eexists; done].
  destruct (Hnew q eq_refl) as [Q0 HQ0].
  assert (Hq2 : is_Some (<[n := mkETree (branchLength N1) (nodes N1) (label N1) (Some q)]> (trees σ1) !! q)).
  { apply elem_of_dom. rewrite dom_insert_L, Hd1. apply elem_of_dom_2 in HQ0. set_solver. }
  destruct Hq2 as [Q HQ].
  rewrite (bind_Ok _ _ _ Q _ (load_Ok (set_trees _ σ1) q Q HQ)).
  rewrite (store_Ok _ _ Q) by done. eexists; done.
Qed.

(** ** Facts on the collaborators' list operations *)

Lemma listRemove_subset l n x : x ∈ listRemove l n -> x ∈ l.
Proof.
  induction l as [|y l IH]; simpl; [done|].
  destruct (Pos.eqb_spec y n).
  - intros. by apply list_elem_of_further.
  - intros [->|Hx]%elem_of_cons; [apply list_elem_of_here|].
    apply list_elem_of_further; auto.
Qed.

Lemma listRemove_other l n x : x ∈ l -> x <> n -> x ∈ listRemove l n.
Proof.
  induction l as [|y l IH]; simpl; [done|].
  intros [->|Hx]%elem_of_cons Hne.
  - destruct (Pos.eqb_spec y n); [done|]. apply list_elem_of_here.
  - destruct (Pos.eqb_spec y n); [done|]. apply list_elem_of_further; auto.
Qed.

Lemma listRemove_NoDup l n : NoDup l -> NoDup (listRemove l n) /\ n ∉ listRemove l n.
Proof.
  induction 1 as [|y l Hy Hl IH]; simpl.
  - split; [constructor|]. by intros ?%elem_of_nil.
  - destruct (Pos.eqb_spec y n) as [->|Hne]; [done|].
    destruct IH as [IH1 IH2]. split.
    + constructor; [|done]. intros ?%listRemove_subset. done.
    + intros [->|?]%elem_of_cons; done.
Qed.

Lemma listRemove_absent l n : n ∉ l -> listRemove l n = l.
Proof.
  induction l as [|y l IH]; simpl; [done|].
  intros Hn. destruct (Pos.eqb_spec y n) as [->|Hne].
  - exfalso. apply Hn, list_elem_of_here.
  - f_equal. apply IH. intros ?. apply Hn. by apply list_elem_of_further.
Qed.

(** ** The linked invariant *)

Lemma linked_same_links t t' : same_links t t' -> linked t -> linked t'.
Proof.
  intros Hs Hl n N' HN'.
  destruct (Hs n) as [Hnod Hpar]. rewrite HN' in Hnod, Hpar.
  destruct (t !! n) as [N|] eqn:HN; [|discriminate].
  injection Hnod as Hnod. injection Hpar as Hpar.
  destruct (Hl n N HN) as (Hnd & Hch & Hpa). rewrite Hnod, Hpar.
  split; [done|]. split.
  - intros c Hc. destruct (Hch c Hc) as (C & HC & HCp).
    destruct (Hs c) as [_ Hcp]. rewrite HC in Hcp.
    destruct (t' !! c) as [C'|]; [|discriminate]. injection Hcp as Hcp.
    exists C'. split; [done|]. congruence.
  - intros p Hp. destruct (Hpa p Hp) as (P & HP & HnP).
    destruct (Hs p) as [Hpn _]. rewrite HP in Hpn.
    destruct (t' !! p) as [P'|]; [|discriminate]. injection Hpn as Hpn.
    exists P'. split; [done|]. congruence.
Qed.

Lemma linked_empty : linked ∅.
Proof. intros n N HN. by rewrite lookup_empty in HN. Qed.

Lemma linked_construct t d l :
  linked t -> linked (<[fresh (dom t) := mkETree d [] l None]> t).
Proof.
  intros Hl n N HN. pose proof (is_fresh (dom t)) as Hf.
  destruct (decide (n = fresh (dom t))) as [->|Hne].
  - rewrite lookup_insert_eq in HN. injection HN as <-. simpl.
    split; [constructor|]. split; [by intros c ?%elem_of_nil|done].
  - rewrite lookup_insert_ne in HN by done.
    destruct (Hl n N HN) as (Hnd & Hch & Hpa).
    split; [done|]. split.
    + intros c Hc. destruct (Hch c Hc) as (C & HC & HCp).
      exists C. split; [|done]. rewrite lookup_insert_ne; [done|].
      intros <-. apply Hf. by apply elem_of_dom_2 in HC.
    + intros p Hp. destruct (Hpa p Hp) as (P & HP & HnP).
      exists P. split; [|done]. rewrite lookup_insert_ne; [done|].
      intros <-. apply Hf. by apply elem_of_dom_2 in HP.
Qed.

Lemma linked_reparent t t' n N p' :
  t !! n = Some N ->
  (forall q, p' = Some q -> is_Some (t !! q)) ->
  (forall x, t' !! x = reparent n (parent N) p' x <$> t !! x) ->
  linked t -> linked t'.
Proof.
  intros HN Hnew Ht' Hl x X' HX'.
  rewrite Ht' in HX'. destruct (t !! x) as [X|] eqn:HX; [|discriminate].
  injection HX' as <-. destruct (Hl x X HX) as (Hnd & Hch & Hpa).
  unfold reparent; simpl.
  (* membership in the old list, once the node is removed from it *)
  assert (Hbase : forall c,
    c ∈ (if decide (parent N = Some x) then listRemove (nodes X) n else nodes X) ->
    c ∈ nodes X /\ c <> n).
  { intros c Hc. destruct (decide (parent N = Some x)) as [Hp|Hp].
    - split; [by apply listRemove_subset in Hc|].
      intros ->. by apply (listRemove_NoDup _ n) in Hnd as [_ ?].
    - split; [done|]. intros ->. destruct (Hch n Hc) as (C & HC & HCp).
      rewrite HN in HC. injection HC as <-. done. }
  split; [|split].
  - apply NoDup_app. split; [|split].
    + destruct (decide (parent N = Some x)); [|done].
      by apply listRemove_NoDup.
    + intros c Hc Hc'. destruct (decide (p' = Some x)); [|by apply elem_of_nil in Hc'].
      apply list_elem_of_singleton in Hc' as ->. by apply Hbase in Hc as [_ ?].
    + destruct (decide (p' = Some x)); [apply NoDup_singleton|constructor].
  - intros c [Hc|Hc]%elem_of_app.
    + apply Hbase in Hc as [Hc Hne]. destruct (Hch c Hc) as (C & HC & HCp).
      exists (reparent n (parent N) p' c C). rewrite Ht', HC. split; [done|].
      simpl. by destruct (decide (c = n)).
    + destruct (decide (p' = Some x)) as [->|]; [|by apply elem_of_nil in Hc].
      apply list_elem_of_singleton in Hc as ->.
      exists (reparent n (parent N) (Some x) n N). rewrite Ht', HN. split; [done|].
      simpl. by destruct (decide (n = n)).
  - intros p Hp. destruct (decide (x = n)) as [->|Hne].
    + subst p'. destruct (Hnew p eq_refl) as [P HP].
      exists (reparent n (parent N) (Some p) p P). rewrite Ht', HP. split; [done|].
      simpl. apply elem_of_app. right.
      destruct (decide (Some p = Some p)); [apply list_elem_of_here|done].
    + destruct (Hpa p Hp) as (P & HP & HxP).
      exists (reparent n (parent N) p' p P). rewrite Ht', HP. split; [done|].
      simpl. apply elem_of_app. left.
      destruct (decide (parent N = Some p)); [|done].
      by apply listRemove_other.
Qed.

Lemma eTree_setBranchLength_inv σ n d u σ' :
  eTree_setBranchLength n d σ = Ok (u, σ') ->
  exists N, trees σ !! n = Some N /\
    σ' = set_trees (<[n := mkETree d (nodes N) (label N) (parent N)]> (trees σ)) σ.
Proof.
  unfold eTree_setBranchLength. intros H.
  apply bind_inv in H as (N & ? & [HN ->]%load_inv & H).
  apply store_inv in H as [_ ->]. eauto.
Qed.

Lemma eTree_setLabel_inv σ n l u σ' :
  eTree_setLabel n l σ = Ok (u, σ') ->
  exists N l', trees σ !! n = Some N /\
    trees σ' = <[n := mkETree (branchLength N) (nodes N) l' (parent N)]> (trees σ).
Proof.
  unfold eTree_setLabel. intros H.
  apply bind_inv in H as ([] & σ1 & H1 & H).
  apply bind_inv in H1 as (N & ? & [HN ->]%load_inv & H1).
  assert (Ht1 : trees σ1 = trees σ).
  { destruct (label N) as [l0|].
    - unfold free in H1. destruct (strs σ !! l0); [|discriminate].
      by injection H1 as <-.
    - by injection H1 as <-. }
  apply bind_inv in H as (l' & σ2 & H2 & H).
  assert (Ht2 : trees σ2 = trees σ).
  { destruct l as [s|].
    - apply bind_inv in H2 as (c & σc & Hc & [= <- <-]).
      unfold stringCopy in Hc. apply bind_inv in Hc as (w & ? & Hw & Hc).
      unfold load_str in Hw. destruct (strs σ1 !! s); [|discriminate].
      injection Hw as <- <-. unfold alloc_str in Hc. by injection Hc as <- <-.
    - by injection H2 as <- <-. }
  apply bind_inv in H as (N2 & ? & [HN2 ->]%load_inv & H).
  apply store_inv in H as [_ ->]. rewrite Ht2 in HN2.
  rewrite HN in HN2. injection HN2 as <-.
  exists N, l'. split; [done|]. simpl. by rewrite Ht2.
Qed.

Lemma same_links_insert t n N N' :
  t !! n = Some N -> nodes N' = nodes N -> parent N' = parent N ->
  same_links t (<[n := N']> t).
Proof.
  intros HN Hn Hp x. destruct (decide (x = n)) as [->|Hne].
  - rewrite lookup_insert_eq, HN. simpl. by rewrite Hn, Hp.
  - by rewrite lookup_insert_ne.
Qed.

Lemma run_op_linked o σ σ' :
  run_op o σ = Ok (tt, σ') -> linked (trees σ) -> linked (trees σ').
Proof.
  destruct o as [|n p|n d|n l]; simpl; intros H Hl.
  - apply bind_inv in H as (r & σ1 & H1 & [= <-]).
    unfold eTree_construct, alloc_tree in H1. injection H1 as <- <-. simpl.
    by apply linked_construct.
  - apply eTree_setParent_inv in H as (N & HN & _ & Hnew & _ & Ht').
    by eapply linked_reparent.
  - apply eTree_setBranchLength_inv in H as (N & HN & ->). simpl.
    eapply linked_same_links; [|done]. by eapply same_links_insert.
  - apply eTree_setLabel_inv in H as (N & l' & HN & ->).
    eapply linked_same_links; [|done]. by eapply same_links_insert.
Qed.

Lemma reachable_linked s0 σ : reachable s0 σ -> linked (trees σ).
Proof.
  induction 1 as [|o σ σ' _ IH Hop]; simpl.
  - apply linked_empty.
  - by eapply run_op_linked.
Qed.

Lemma run_ops_reachable s0 l σ σ' :
  reachable s0 σ -> run_ops l σ = Ok (tt, σ') -> reachable s0 σ'.
Proof.
  revert σ. induction l as [|o l IH]; simpl; intros σ Hr H.
  - by injection H as <-.
  - apply bind_inv in H as ([] & σ1 & H1 & H).
    eapply IH; [|done]. by eapply reach_op.
Qed.




(** ** Parent chains *)

Lemma climb_S t k n : climb t (S k) n = (t !! n ≫= parent) ≫= climb t k.
Proof. simpl. destruct (t !! n) as [N|]; [|done]. simpl. by destruct (parent N). Qed.

Lemma climb_add t j k n : climb t (j + k) n = climb t j n ≫= climb t k.
Proof.
  revert n. induction j as [|j IH]; intros n; [done|].
  change (S j + k)%nat with (S (j + k)). rewrite !climb_S.
  destruct (t !! n ≫= parent) as [q|]; simpl; [apply IH|done].
Qed.

Lemma climb_ext t t' :
  (forall x, t' !! x ≫= parent = t !! x ≫= parent) ->
  forall k n, climb t' k n = climb t k n.
Proof.
  intros Hp k. induction k as [|k IH]; intros n; [done|].
  rewrite !climb_S, Hp. destruct (t !! n ≫= parent); simpl; [apply IH|done].
Qed.

Lemma acyclic_ext t t' :
  (forall x, t' !! x ≫= parent = t !! x ≫= parent) -> acyclic t -> acyclic t'.
Proof.
  intros Hp Ha n [k Hk]. rewrite (climb_ext t t' Hp) in Hk. apply (Ha n). by exists k.
Qed.

Section Reparent.
Variables (t t' : gmap loc ETree) (n : loc) (p' : option loc).
Hypothesis Hother : forall x, x <> n -> t' !! x ≫= parent = t !! x ≫= parent.
Hypothesis Hnode : t' !! n ≫= parent = p'.

(** A chain that does not pass through [n] is the same before and
    after. *)
Lemma climb_avoid k x :
  (forall j, (j < k)%nat -> climb t' j x <> Some n) ->
  climb t k x = climb t' k x.
Proof.
  revert x. induction k as [|k IH]; intros x Hav; [done|].
  assert (Hx : x <> n) by (intros ->; by apply (Hav O); [lia|]).
  rewrite !climb_S, (Hother x Hx).
  destruct (t !! x ≫= parent) as [q|] eqn:Eq; simpl; [|done].
  apply IH. intros j Hj. specialize (Hav (S j) ltac:(lia)).
  by rewrite climb_S, (Hother x Hx), Eq in Hav.
Qed.

Lemma climb_first k x :
  climb t' k x = Some n ->
  exists i, (i <= k)%nat /\ climb t' i x = Some n /\
    forall j, (j < i)%nat -> climb t' j x <> Some n.
Proof.
  revert x. induction k as [|k IH]; intros x Hk.
  - exists O. split; [lia|]. split; [done|]. intros; lia.
  - destruct (decide (x = n)) as [->|Hx].
    { exists O. split; [lia|]. split; [done|]. intros; lia. }
    rewrite climb_S in Hk.
    destruct (t' !! x ≫= parent) as [q|] eqn:Eq; simpl in Hk; [|done].
    destruct (IH q Hk) as (i & Hi & Hin & Hlt).
    exists (S i). split; [lia|]. split.
    + by rewrite climb_S, Eq.
    + intros [|j] Hj; [simpl; congruence|].
      rewrite climb_S, Eq. simpl. apply Hlt. lia.
Qed.

Lemma climb_hits k x :
  (forall j, (j < k)%nat -> climb t' j x <> Some n) \/
  (exists j, (j < k)%nat /\ climb t' j x = Some n).
Proof.
  induction k as [|k [IH|(j & Hj & Hc)]].
  - left. intros; lia.
  - destruct (decide (climb t' k x = Some n)) as [Hk|Hk].
    + right. exists k. split; [lia|done].
    + left. intros j Hj. destruct (decide (j = k)) as [->|]; [done|].
      apply IH. lia.
  - right. exists j. split; [lia|done].
Qed.

Lemma acyclic_reparent :
  (forall p, p' = Some p -> n <> p /\ ~ is_ancestor t n p) ->
  acyclic t -> acyclic t'.
Proof.
  intros Hguard Ha m [k Hk].
  destruct (climb_hits (S k) m) as [Hav|(j & Hj & Hc)].
  - apply (Ha m). exists k. by rewrite (climb_avoid _ _ Hav).
  - (* the cycle passes through [n]: turn it into one from [n] *)
    assert (Hn : climb t' (S k) n = Some n).
    { pose proof (climb_add t' j (S k) m) as H1. rewrite Hc in H1.
      change (Some n ≫= climb t' (S k)) with (climb t' (S k) n) in H1.
      pose proof (climb_add t' (S k) j m) as H2. rewrite Hk in H2.
      change (Some m ≫= climb t' j) with (climb t' j m) in H2.
      rewrite Hc in H2. rewrite (Nat.add_comm j) in H1.
      rewrite <- H1, H2. done. }
    rewrite climb_S, Hnode in Hn. destruct p' as [p|]; [|done]. simpl in Hn.
    destruct (Hguard p eq_refl) as [Hne Hanc].
    destruct (climb_first _ _ Hn) as (i & Hi & Hin & Hlt).
    rewrite <- (climb_avoid _ _ Hlt) in Hin.
    destruct i as [|i].
    + simpl in Hin. congruence.
    + apply Hanc. by exists i.
Qed.
End Reparent.

Lemma run_op_acyclic o σ σ' :
  op_guard (trees σ) o -> run_op o σ = Ok (tt, σ') ->
  acyclic (trees σ) -> acyclic (trees σ').
Proof.
  destruct o as [|n p|n d|n l]; simpl; intros Hg H Ha.
  - apply bind_inv in H as (r & σ1 & H1 & [= <-]).
    unfold eTree_construct, alloc_tree in H1. injection H1 as <- <-. simpl.
    pose proof (is_fresh (dom (trees σ))) as Hf.
    apply (acyclic_reparent (trees σ) _ (fresh (dom (trees σ))) None); [| |done|done].
    + intros x Hx. by rewrite lookup_insert_ne.
    + by rewrite lookup_insert_eq.
  - apply eTree_setParent_inv in H as (N & HN & _ & _ & _ & Ht').
    apply (acyclic_reparent (trees σ) _ n p); [| | |done].
    + intros x Hx. rewrite Ht'. destruct (trees σ !! x) as [X|]; [|done].
      simpl. by destruct (decide (x = n)).
    + rewrite Ht', HN. simpl. by destruct (decide (n = n)).
    + intros q ->. done.
  - apply eTree_setBranchLength_inv in H as (N & HN & ->). simpl.
    eapply acyclic_ext; [|done]. intros x.
    destruct (decide (x = n)) as [->|]; [by rewrite lookup_insert_eq, HN|].
    by rewrite lookup_insert_ne.
  - apply eTree_setLabel_inv in H as (N & l' & HN & ->).
    eapply acyclic_ext; [|done]. intros x.
    destruct (decide (x = n)) as [->|]; [by rewrite lookup_insert_eq, HN|].
    by rewrite lookup_insert_ne.
Qed.

Lemma reachable_guarded_reachable s0 σ : reachable_guarded s0 σ -> reachable s0 σ.
Proof.
  induction 1 as [|o σ σ' _ IH _ Hop]; [constructor|]. by eapply reach_op.
Qed.

(** C3, as the code has it.  When no call of [eTree_setParent] gives a
    node itself or one of its descendants as the new parent, no node is
    ever its own ancestor, and no node is listed by two parents. *)
Theorem guarded_reparent_acyclic s0 σ :
  reachable_guarded s0 σ ->
  acyclic (trees σ) /\
  (forall n p q P Q, trees σ !! p = Some P -> trees σ !! q = Some Q ->
     n ∈ nodes P -> n ∈ nodes Q -> p = q).
Proof.
  intros Hr. split.
  - induction Hr as [|o σ σ' _ IH Hg Hop].
    + intros n [k Hk]. simpl in Hk. by rewrite lookup_empty in Hk.
    + by eapply run_op_acyclic.
  - pose proof (reachable_linked _ _ (reachable_guarded_reachable _ _ Hr)) as Hl.
    intros n p q P Q HP HQ HnP HnQ.
    destruct (Hl p P HP) as (_ & HchP & _). destruct (Hl q Q HQ) as (_ & HchQ & _).
    destruct (HchP n HnP) as (N & HN & Hp). destruct (HchQ n HnQ) as (N' & HN' & Hq).
    congruence.
Qed.

(** C3 as stated fails: a node given to [eTree_setParent] as its own
    parent becomes its own ancestor. *)
Lemma self_parent_cycle :
  ~ (forall s0 σ, reachable s0 σ -> acyclic (trees σ)).
Proof.
  intros Hc.
  assert (Hr : reachable ∅ self_parent_mem).
  { apply (run_ops_reachable ∅ [Construct; SetParent 1%positive (Some 1%positive)] empty_mem);
      [constructor|]. vm_compute. reflexivity. }
  apply (Hc _ _ Hr 1%positive). exists O. vm_compute. reflexivity.
Qed.


(** ** Children by index *)

Lemma eTree_getChildNumber_inv σ eTree n σ' :
  eTree_getChildNumber eTree σ = Ok (n, σ') ->
  exists N, trees σ !! eTree = Some N /\ n = Z.of_nat (length (nodes N)) /\ σ' = σ.
Proof.
  unfold eTree_getChildNumber. intros H.
  apply bind_inv in H as (N & ? & [HN ->]%load_inv & [= <- <-]). eauto.
Qed.

Lemma eTree_getChildNumber_Ok σ eTree N :
  trees σ !! eTree = Some N ->
  eTree_getChildNumber eTree σ = Ok (Z.of_nat (length (nodes N)), σ).
Proof.
  intros HN. unfold eTree_getChildNumber.
  by rewrite (bind_Ok _ _ _ _ _ (load_Ok _ _ _ HN)).
Qed.

Lemma eTree_getChild_Ok σ eTree N i c :
  trees σ !! eTree = Some N -> nth_error (nodes N) i = Some c ->
  eTree_getChild eTree (Z.of_nat i) σ = Ok (c, σ).
Proof.
  intros HN Hc. unfold eTree_getChild.
  assert (Hlt : (i < length (nodes N))%nat) by (apply nth_error_Some; congruence).
  unfold assert at 1. unfold bind at 1.
  destruct (Z.leb_spec 0 (Z.of_nat i)); [|lia].
  rewrite (bind_Ok _ _ _ _ _ (eTree_getChildNumber_Ok _ _ _ HN)).
  unfold assert, bind at 1.
  destruct (Z.ltb_spec (Z.of_nat i) (Z.of_nat (length (nodes N)))); [|lia].
  rewrite (bind_Ok _ _ _ _ _ (load_Ok _ _ _ HN)).
  by rewrite Nat2Z.id, Hc.
Qed.

(** C6. With [n] the child count of a node: [eTree_getChild] at an
    index [0 <= i < n] returns the [i]-th entry of the child list, at
    [i < 0] or [i >= n] the assertion fails; a node attached with
    [eTree_setParent] is the last child, and when it comes from
    elsewhere the earlier children keep their indices. *)
Theorem eTree_getChild_range σ eTree n i :
  eTree_getChildNumber eTree σ = Ok (n, σ) ->
  (0 <= i < n ->
     exists N c, trees σ !! eTree = Some N /\
       nth_error (nodes N) (Z.to_nat i) = Some c /\
       eTree_getChild eTree i σ = Ok (c, σ)) /\
  (i < 0 \/ n <= i -> eTree_getChild eTree i σ = Abort) /\
  (forall c σ', eTree_setParent c (Some eTree) σ = Ok (tt, σ') ->
     exists n', eTree_getChildNumber eTree σ' = Ok (n', σ') /\
       eTree_getChild eTree (n' - 1) σ' = Ok (c, σ') /\
       (eTree_getParent c σ <> Ok (Some eTree, σ) ->
          n' = n + 1 /\
          (0 <= i < n -> eTree_getChild eTree i σ' =
             match eTree_getChild eTree i σ with
             | Ok (x, _) => Ok (x, σ')
             | _ => Abort
             end))).
Proof.
  intros Hn. apply eTree_getChildNumber_inv in Hn as (N & HN & -> & _).
  split; [|split].
  - intros Hi. destruct (nth_error (nodes N) (Z.to_nat i)) as [c|] eqn:Hc.
    + exists N, c. split; [done|]. split; [done|].
      rewrite <- (Z2Nat.id i) by lia. by apply (eTree_getChild_Ok _ _ N).
    + apply nth_error_None in Hc. lia.
  - intros Hi. unfold eTree_getChild, assert. unfold bind at 1.
    destruct (Z.leb_spec 0 i); [|done].
    rewrite (bind_Ok _ _ _ _ _ (eTree_getChildNumber_Ok _ _ _ HN)).
    unfold bind at 1. destruct (Z.ltb_spec i (Z.of_nat (length (nodes N)))); [lia|done].
  - intros c σ' Hset.
    apply eTree_setParent_inv in Hset as (C & HC & _ & _ & _ & Ht').
    pose proof (Ht' eTree) as HN'. rewrite HN in HN'. simpl in HN'.
    set (N' := reparent c (parent C) (Some eTree) eTree N) in *.
    assert (Hnodes : nodes N' =
      (if decide (parent C = Some eTree) then listRemove (nodes N) c else nodes N) ++ [c]).
    { subst N'. simpl. by destruct (decide (Some eTree = Some eTree)). }
    exists (Z.of_nat (length (nodes N'))).
    split; [by apply eTree_getChildNumber_Ok|]. split.
    + replace (Z.of_nat (length (nodes N')) - 1)
        with (Z.of_nat (length (nodes N') - 1)).
      2:{ rewrite Hnodes, length_app. simpl. lia. }
      apply (eTree_getChild_Ok _ _ N'); [done|].
      rewrite Hnodes, length_app. simpl.
      rewrite nth_error_app2 by lia.
      by replace (_ + 1 - 1 - _)%nat with O by lia.
    + intros Hpar.
      assert (Hne : parent C <> Some eTree).
      { intros Heq. apply Hpar. unfold eTree_getParent.
        rewrite (bind_Ok _ _ _ _ _ (load_Ok _ _ _ HC)). by rewrite Heq. }
      destruct (decide (parent C = Some eTree)); [done|].
      split; [rewrite Hnodes, length_app; simpl; lia|].
      intros Hi. destruct (nth_error (nodes N) (Z.to_nat i)) as [x|] eqn:Hx.
      2:{ apply nth_error_None in Hx. lia. }
      rewrite <- (Z2Nat.id i) by lia.
      rewrite (eTree_getChild_Ok _ _ N _ x HN Hx).
      apply (eTree_getChild_Ok _ _ N'); [done|].
      rewrite Hnodes, nth_error_app1; [done|lia].
Qed.

(** ** Branch lengths *)

Lemma eTree_construct_spec σ :
  eTree_construct σ =
    Ok (fresh (dom (trees σ)),
        set_trees (<[fresh (dom (trees σ)) := mkETree INFINITY [] None None]> (trees σ)) σ).
Proof. reflexivity. Qed.

Lemma eTree_setBranchLength_Ok σ eTree N d :
  trees σ !! eTree = Some N ->
  eTree_setBranchLength eTree d σ =
    Ok (tt, set_trees (<[eTree := mkETree d (nodes N) (label N) (parent N)]> (trees σ)) σ).
Proof.
  intros HN. unfold eTree_setBranchLength.
  rewrite (bind_Ok _ _ _ _ _ (load_Ok _ _ _ HN)). by apply (store_Ok _ _ N).
Qed.

Lemma eTree_getBranchLength_Ok σ eTree N :
  trees σ !! eTree = Some N ->
  eTree_getBranchLength eTree σ = Ok (branchLength N, σ).
Proof.
  intros HN. unfold eTree_getBranchLength.
  by rewrite (bind_Ok _ _ _ _ _ (load_Ok _ _ _ HN)).
Qed.

Lemma eTree_setBranchLength_same σ eTree N :
  trees σ !! eTree = Some N ->
  eTree_setBranchLength eTree (branchLength N) σ = Ok (tt, σ).
Proof.
  intros HN. rewrite (eTree_setBranchLength_Ok _ _ N) by done.
  replace (mkETree (branchLength N) (nodes N) (label N) (parent N)) with N
    by (by destruct N).
  by rewrite insert_id, set_trees_id.
Qed.

(** ** Labels *)

Lemma eTree_setLabel_copy σ eTree N s c :
  trees σ !! eTree = Some N -> strs σ !! s = Some c ->
  (forall l, label N = Some l -> is_Some (strs σ !! l) /\ l <> s) ->
  let live := match label N with Some l => delete l (strs σ) | None => strs σ end in
  let p := fresh (dom live) in
  eTree_setLabel eTree (Some s) σ =
    Ok (tt, mkMem (<[eTree := mkETree (branchLength N) (nodes N) (Some p) (parent N)]> (trees σ))
                  (<[p := c]> live)) /\
  p <> s /\ live !! s = Some c.
Proof.
  intros HN Hs Hl live p.
  assert (Hlive : live !! s = Some c).
  { subst live. destruct (label N) as [l|]; [|done].
    destruct (Hl l eq_refl) as [_ Hne]. by rewrite lookup_delete_ne. }
  assert (Hp : p <> s).
  { intros Heq. apply (is_fresh (dom live)). fold p. rewrite Heq.
    by apply elem_of_dom_2 in Hlive. }
  split; [|done]. unfold eTree_setLabel.
  rewrite (bind_Ok _ _ σ tt (set_strs live σ)).
  2:{ rewrite (bind_Ok _ _ _ _ _ (load_Ok _ _ _ HN)). subst live.
      destruct (label N) as [l|].
      - destruct (Hl l eq_refl) as [[c0 Hc0] _]. unfold free. by rewrite Hc0.
      - unfold ret. by destruct σ. }
  rewrite (bind_Ok _ _ _ (Some p) (set_strs (<[p := c]> live) σ)).
  2:{ unfold stringCopy. rewrite (bind_Ok _ _ _ p (set_strs (<[p := c]> live) σ)); [done|].
      rewrite (bind_Ok _ _ _ c (set_strs live σ)); [done|].
      by apply load_str_Ok. }
  rewrite (bind_Ok _ _ _ N (set_strs (<[p := c]> live) σ)) by (by apply load_Ok).
  by rewrite (store_Ok _ _ N).
Qed.

Lemma eTree_setLabel_NULL σ eTree N :
  trees σ !! eTree = Some N ->
  (forall l, label N = Some l -> is_Some (strs σ !! l)) ->
  eTree_setLabel eTree None σ =
    Ok (tt, mkMem (<[eTree := mkETree (branchLength N) (nodes N) None (parent N)]> (trees σ))
                  (match label N with Some l => delete l (strs σ) | None => strs σ end)).
Proof.
  intros HN Hl. unfold eTree_setLabel.
  set (live := match label N with Some l => delete l (strs σ) | None => strs σ end).
  rewrite (bind_Ok _ _ σ tt (set_strs live σ)).
  2:{ rewrite (bind_Ok _ _ _ _ _ (load_Ok _ _ _ HN)). subst live.
      destruct (label N) as [l|].
      - destruct (Hl l eq_refl) as [c0 Hc0]. unfold free. by rewrite Hc0.
      - unfold ret. by destruct σ. }
  rewrite (bind_Ok _ _ _ None (set_strs live σ)) by done.
  rewrite (bind_Ok _ _ _ N (set_strs live σ)) by (by apply load_Ok).
  by rewrite (store_Ok _ _ N).
Qed.

(** C9, at the input where the code goes wrong: relabelling a node with
    its own label ([eTree_setLabel(n, eTree_getLabel(n))]) frees the
    buffer and then copies from it. *)
Theorem eTree_setLabel_own_label :
  (let* n := eTree_construct in
   let* s := alloc_str (cs "A") in
   eTree_setLabel n (Some s);;
   let* l := eTree_getLabel n in
   eTree_setLabel n l) empty_mem = Fault.
Proof. vm_compute. reflexivity. Qed.


(** ** The tokenizer *)

Lemma words_skip_spaces s : words (skip_spaces s) = words s.
Proof.
  induction s as [|c s IH]; [done|]. simpl.
  destruct (isspace c) eqn:Ec; [done|]. simpl. by rewrite Ec.
Qed.

Lemma words_span c s :
  isspace c = false ->
  words (c :: s) = (c :: fst (span_word s)) :: words (snd (span_word s)).
Proof.
  revert c. induction s as [|d s IH]; intros c Hc.
  - simpl. by rewrite Hc.
  - change (words (c :: d :: s)) with
      (if isspace c then words (d :: s)
       else if isspace d then [c] :: words (d :: s)
            else match words (d :: s) with
                 | w :: ws => (c :: w) :: ws
                 | [] => [[c]]
                 end).
    rewrite Hc. change (span_word (d :: s)) with
      (if isspace d then ([], d :: s)
       else let '(w, r) := span_word s in (d :: w, r)).
    destruct (isspace d) eqn:Ed; [done|].
    rewrite (IH d Ed). by destruct (span_word s).
Qed.

Lemma span_word_space s :
  fst (span_word (skip_spaces s)) = [] -> words s = [].
Proof.
  rewrite <- (words_skip_spaces s).
  induction s as [|c s IH]; [done|]. simpl.
  destruct (isspace c) eqn:Ec; [done|]. simpl. rewrite Ec.
  by destruct (span_word s).
Qed.

Lemma string_getNextWord_spec s σ :
  match words s with
  | [] => exists r, string_getNextWord s σ = Ok ((None, r), σ)
  | w :: ws =>
      exists r, words r = ws /\
        string_getNextWord s σ =
          Ok ((Some (fresh (dom (strs σ))), r),
              set_strs (<[fresh (dom (strs σ)) := w]> (strs σ)) σ)
  end.
Proof.
  unfold string_getNextWord. rewrite <- (words_skip_spaces s).
  destruct (skip_spaces s) as [|c s'] eqn:Es; simpl.
  - by exists [].
  - assert (Hc : isspace c = false).
    { clear -Es. induction s as [|d s IH]; [done|]. simpl in Es.
      destruct (isspace d) eqn:Ed; [auto|]. by injection Es as -> _. }
    pose proof (words_span c s' Hc) as Hw. simpl in Hw. rewrite Hw, Hc.
    destruct (span_word s') as [w r]. simpl. by exists r.
Qed.

Lemma span_word_fst s x : x ∈ fst (span_word s) -> isspace x = false.
Proof.
  induction s as [|d s IH]; simpl; [by intros ?%elem_of_nil|].
  destruct (isspace d) eqn:Ed; [by intros ?%elem_of_nil|].
  destruct (span_word s) as [w r]. simpl in *.
  intros [->|Hx]%elem_of_cons; auto.
Qed.

Lemma span_word_snd s w : w ∈ words (snd (span_word s)) -> w ∈ words s.
Proof.
  destruct s as [|d s]; [done|].
  change (span_word (d :: s)) with
    (if isspace d then ([], d :: s)
     else let '(w, r) := span_word s in (d :: w, r)).
  destruct (isspace d) eqn:Ed; [done|].
  rewrite (words_span d s Ed).
  destruct (span_word s) as [w' r]. simpl. intros Hw.
  apply elem_of_cons. by right.
Qed.

Lemma words_proper s w :
  w ∈ words s -> w <> [] /\ forall c, c ∈ w -> isspace c = false.
Proof.
  revert w. induction s as [|c s IH]; intros w; [by intros ?%elem_of_nil|].
  destruct (isspace c) eqn:Ec.
  - simpl. rewrite Ec. apply IH.
  - rewrite (words_span c s Ec). intros [->|Hw]%elem_of_cons.
    + split; [done|]. intros x [->|Hx]%elem_of_cons; [done|].
      by apply span_word_fst in Hx.
    + by apply IH, span_word_snd.
Qed.

Lemma span_word_app w r :
  (forall c, c ∈ w -> isspace c = false) -> boundary r ->
  span_word (w ++ r) = (w, r).
Proof.
  intros Hw Hr. induction w as [|c w IH]; simpl.
  - destruct r as [|d r]; [done|]. simpl in Hr. simpl. by rewrite Hr.
  - rewrite (Hw c) by apply list_elem_of_here.
    rewrite IH; [done|]. intros x Hx. apply Hw. by apply list_elem_of_further.
Qed.

Lemma words_word_app w r :
  w <> [] -> (forall c, c ∈ w -> isspace c = false) -> boundary r ->
  words (w ++ r) = w :: words r.
Proof.
  intros Hne Hw Hr. destruct w as [|c w]; [done|].
  change ((c :: w) ++ r) with (c :: (w ++ r)).
  rewrite (words_span c (w ++ r)) by (apply Hw, list_elem_of_here).
  rewrite span_word_app; [done| |done].
  intros x Hx. apply Hw. by apply list_elem_of_further.
Qed.

(** ** Spacing out the structural characters *)

Lemma string_replace_char s c rep :
  string_replace s [c] rep =
    List.flat_map (fun x => if Ascii.eqb c x then rep else [x]) s.
Proof.
  unfold string_replace. induction s as [|x s IH]; [done|].
  simpl. rewrite IH, andb_true_r. by destruct (Ascii.eqb c x).
Qed.

Lemma flat_map_flat_map {A B C} (f : B -> list C) (g : A -> list B) l :
  List.flat_map f (List.flat_map g l) = List.flat_map (fun x => List.flat_map f (g x)) l.
Proof.
  induction l as [|x l IH]; [done|]. simpl. by rewrite flat_map_app, IH.
Qed.

Lemma spaced_flat_map s : spaced s = List.flat_map space_out s.
Proof.
  unfold spaced, cs. cbn [list_ascii_of_string].
  rewrite !string_replace_char, !flat_map_flat_map.
  apply flat_map_ext. intros [[] [] [] [] [] [] [] []]; reflexivity.
Qed.

Lemma spaced_app a b : spaced (a ++ b) = spaced a ++ spaced b.
Proof. by rewrite !spaced_flat_map, flat_map_app. Qed.

Lemma spaced_clean w : clean w -> spaced w = w.
Proof.
  intros [_ Hw]. rewrite spaced_flat_map.
  induction w as [|c w IH]; [done|]. simpl.
  unfold space_out at 1. rewrite (proj2 (Hw c (list_elem_of_here _ _))). simpl.
  f_equal. apply IH. intros x Hx. apply Hw. by apply list_elem_of_further.
Qed.

Lemma spaced_structural c :
  structural c = true -> spaced [c] = [" "%char; c; " "%char].
Proof. intros Hc. rewrite spaced_flat_map. simpl. unfold space_out. by rewrite Hc. Qed.

Lemma structural_not_space c : structural c = true -> isspace c = false.
Proof.
  unfold structural. intros H.
  repeat (apply orb_prop in H as [H|H]); apply Ascii.eqb_eq in H as ->; reflexivity.
Qed.

(** A structural character becomes a token of its own. *)
Lemma words_structural c r :
  structural c = true -> words (spaced [c] ++ r) = [c] :: words r.
Proof.
  intros Hc. rewrite (spaced_structural c Hc).
  change ([" "%char; c; " "%char] ++ r) with (" "%char :: ([c] ++ " "%char :: r)).
  change (words (" "%char :: ([c] ++ " "%char :: r))) with (words ([c] ++ " "%char :: r)).
  rewrite words_word_app; [done|done| |done].
  intros x ->%list_elem_of_singleton. by apply structural_not_space.
Qed.

Lemma words_clean w r :
  clean w -> boundary r -> words (spaced w ++ r) = w :: words r.
Proof.
  intros Hw Hr. rewrite (spaced_clean w Hw). destruct Hw as [Hne Hw].
  apply words_word_app; [done| |done]. intros c Hc. by apply Hw.
Qed.

Lemma boundary_spaced_structural c r :
  structural c = true -> boundary (spaced [c] ++ r).
Proof. intros Hc. by rewrite (spaced_structural c Hc). Qed.


(** ** Trees as values: induction *)

Lemma tree_ind' (P : tree -> Prop) :
  (forall l d kids, Forall P kids -> P (Node l d kids)) -> forall t, P t.
Proof.
  intros HP. fix IH 1. intros [l d kids]. apply HP.
  induction kids as [|k kids IHk]; constructor; [apply IH|apply IHk].
Qed.

(** Both sides are the same list up to the bracketing of [++]. *)
(** Case analysis on the condition of the next assertion. *)
Ltac case_rassert :=
  match goal with
  | |- context [rassert ?b] => unfold rassert at 1; destruct b eqn:?; simpl
  | |- context [rbind (if ?b then Ok tt else Abort) _] => destruct b eqn:?; simpl
  end.

Ltac list_assoc := repeat (simpl; rewrite <- app_assoc); simpl; reflexivity.

Section TokenLevel.
Context `{Libc}.

Lemma readable_kids l d kids :
  readable (Node l d kids) -> Forall readable kids.
Proof.
  intros (_ & _ & Hk). induction kids as [|k kids IH]; constructor.
  - apply Hk.
  - apply IH, Hk.
Qed.

(** ** The parser on tokens: fuel *)

Lemma tnext_cons w toks : toks <> [] -> tnext (w :: toks) = Ok toks.
Proof. by destruct toks. Qed.

Lemma tnext_inv toks toks' :
  tnext toks = Ok toks' -> exists w, toks = w :: toks' /\ toks' <> [].
Proof.
  destruct toks as [|w [|w' r]]; simpl; try done. intros [= <-]. by exists w.
Qed.

Lemma tnext_cases toks : (exists t, tnext toks = Ok t) \/ tnext toks = Abort.
Proof. destruct toks as [|? [|]]; simpl; eauto. Qed.

(** A result other than [NoFuel] does not depend on the fuel. *)
Lemma tparse_children_mono (p p' : list cstr -> result (tree * list cstr)) :
  (forall toks, p toks <> NoFuel -> p' toks = p toks) ->
  forall k k' toks, (k <= k')%nat ->
    tparse_children p k toks <> NoFuel ->
    tparse_children p' k' toks = tparse_children p k toks.
Proof.
  intros Hp k. induction k as [|k IH]; intros k' toks Hk Hr; [done|].
  destruct k' as [|k']; [lia|]. simpl in *.
  assert (Hpt : p toks <> NoFuel) by (by destruct (p toks)).
  rewrite (Hp _ Hpt). destruct (p toks) as [[c toks1]| | |]; simpl in *; try done.
  destruct (rassert _); simpl in *; try done.
  destruct (Ascii.eqb _ _); [|done].
  destruct (tnext toks1) as [toks2| | |]; simpl in *; try done.
  rewrite (IH k' toks2); [done|lia|].
  by destruct (tparse_children p k toks2).
Qed.

Lemma tparseP_mono f f' toks :
  (f <= f')%nat -> tparseP f toks <> NoFuel -> tparseP f' toks = tparseP f toks.
Proof.
  revert f' toks. induction f as [|f IH]; intros f' toks Hf Hr; [done|].
  destruct f' as [|f']; [lia|]. simpl in *.
  destruct (Ascii.eqb (first_char (thead toks)) "("); [|done].
  destruct (rassert _); simpl in *; try done.
  destruct (tnext toks) as [toks1| | |]; simpl in *; try done.
  rewrite (tparse_children_mono (tparseP f) (tparseP f') ltac:(intros; apply IH; [lia|done]) f f' toks1);
    [done|lia|].
  by destruct (tparse_children (tparseP f) f toks1).
Qed.

Lemma token_ok_structural w c :
  token_ok w -> first_char w = c -> structural c = true -> w = [c].
Proof.
  intros [Hne [(c' & Hc' & ->)|Hw]] Hf Hc.
  - simpl in Hf. by subst.
  - destruct w as [|x w]; [done|]. simpl in Hf. subst x.
    rewrite (Hw c) in Hc; [done|apply list_elem_of_here].
Qed.

Lemma first_char_eqb w c :
  Ascii.eqb (first_char w) c = true -> first_char w = c.
Proof. apply Ascii.eqb_eq. Qed.

Lemma tparse_label_inv toks l toks' :
  tparse_label toks = Ok (l, toks') ->
  exists pre, toks = pre ++ toks' /\ label_part l pre /\
    (forall w, l = Some w -> w ∈ pre).
Proof.
  unfold tparse_label. destruct (labelling (thead toks)) eqn:El.
  - destruct (tnext toks) as [toks1| | |] eqn:En; simpl; try done.
    intros [= <- <-]. apply tnext_inv in En as (w & -> & Hne).
    exists [w]. split; [done|]. split; [by constructor|].
    intros ? [= <-]. apply list_elem_of_here.
  - intros [= <- <-]. exists []. split; [done|]. split; [constructor|]. done.
Qed.

Lemma tparse_length_inv toks d toks' :
  tparse_length toks = Ok (d, toks') ->
  exists pre, toks = pre ++ toks' /\
    (Forall token_ok toks -> length_part d pre).
Proof.
  unfold tparse_length. destruct (Ascii.eqb (first_char (thead toks)) ":") eqn:Ec.
  - destruct (tnext toks) as [toks1| | |] eqn:En; simpl; try done.
    destruct (sscanf_lf (thead toks1)) as [d'|] eqn:Es; [|done].
    destruct (tnext toks1) as [toks2| | |] eqn:En2; simpl; try done.
    intros [= <- <-]. apply tnext_inv in En as (w & -> & Hne).
    apply tnext_inv in En2 as (w' & -> & Hne'). simpl in *.
    exists [w; w']. split; [done|]. intros Hok.
    apply Forall_cons in Hok as [Hw _].
    rewrite (token_ok_structural w ":" Hw (first_char_eqb _ _ Ec) eq_refl).
    by constructor.
  - intros [= <- <-]. exists []. split; [done|]. intros _. constructor.
Qed.

Lemma Forall_app_r {A} (P : A -> Prop) l1 l2 : Forall P (l1 ++ l2) -> Forall P l2.
Proof. by intros [_ ?]%Forall_app. Qed.

Lemma tparse_children_inv (p : list cstr -> result (tree * list cstr)) :
  (forall toks T toks', p toks = Ok (T, toks') -> read_as T toks toks') ->
  forall k toks kids toks',
    tparse_children p k toks = Ok (kids, toks') ->
    exists k1 ks pre, kids = k1 :: ks /\ toks = pre ++ toks' /\
      length (thead toks') = 1%nat /\
      (forall w, w ∈ List.flat_map tree_labels kids -> w ∈ pre) /\
      (Forall token_ok toks -> siblings k1 ks pre).
Proof.
  intros Hp k. induction k as [|k IH]; intros toks kids toks' Hr; [done|].
  simpl in Hr. destruct (p toks) as [[c toks1]| | |] eqn:Ep; simpl in Hr; try done.
  destruct (Hp _ _ _ Ep) as (pre1 & -> & Hcl & Hlab & Hsub).
  destruct (Nat.eqb_spec (length (thead toks1)) 1) as [Hlen|]; simpl in Hr; [|done].
  destruct (Ascii.eqb (first_char (thead toks1)) ",") eqn:Ecomma.
  - destruct (tnext toks1) as [toks2| | |] eqn:En; simpl in Hr; try done.
    destruct (tparse_children p k toks2) as [[rest toks3]| | |] eqn:Ek;
      simpl in Hr; try done.
    injection Hr as <- <-.
    destruct (IH _ _ _ Ek) as (k1 & ks & pre2 & -> & -> & Hlen' & Hlab' & Hsib).
    apply tnext_inv in En as (w & -> & Hne).
    exists c, (k1 :: ks), (pre1 ++ w :: pre2).
    split; [done|]. split; [by list_assoc|]. split; [done|]. split.
    + intros x Hx. change (List.flat_map tree_labels (c :: k1 :: ks))
        with (tree_labels c ++ List.flat_map tree_labels (k1 :: ks)) in Hx.
      apply elem_of_app in Hx as [Hx|Hx].
      * apply elem_of_app. left. by apply Hlab.
      * apply elem_of_app. right. apply elem_of_cons. right. by apply Hlab'.
    + intros Hok. assert (Hw : token_ok w).
      { apply Forall_app_r in Hok. by apply Forall_cons in Hok as [? _]. }
      simpl in Ecomma.
      rewrite (token_ok_structural w "," Hw (first_char_eqb _ _ Ecomma) eq_refl).
      apply siblings_more.
      * apply Hsub. done.
      * apply Hsib. apply Forall_app_r in Hok. by apply Forall_cons in Hok as [_ ?].
  - injection Hr as <- <-. exists c, [], pre1.
    split; [done|]. split; [done|]. split; [done|]. split.
    + intros x Hx. simpl in Hx. rewrite app_nil_r in Hx. by apply Hlab.
    + intros Hok. apply siblings_last. by apply Hsub.
Qed.

Lemma closing_not_nil toks : closing (thead toks) = true -> toks <> [].
Proof. by destruct toks. Qed.

Lemma tparseP_inv f toks T toks' :
  tparseP f toks = Ok (T, toks') -> read_as T toks toks'.
Proof.
  revert toks T toks'. induction f as [|f IH]; intros toks T toks' Hr; [done|].
  simpl in Hr.
  destruct (Ascii.eqb (first_char (thead toks)) "(") eqn:Eopen.
  - destruct (Nat.eqb_spec (length (thead toks)) 1) as [Hlen|]; simpl in Hr; [|done].
    destruct (tnext toks) as [toks1| | |] eqn:En; simpl in Hr; try done.
    destruct (tparse_children (tparseP f) f toks1) as [[kids toks2]| | |] eqn:Ek;
      simpl in Hr; try done.
    destruct (Ascii.eqb (first_char (thead toks2)) ")") eqn:Eclose; simpl in Hr; [|done].
    destruct (tnext toks2) as [toks3| | |] eqn:En2; simpl in Hr; try done.
    destruct (tparse_label toks3) as [[l toks4]| | |] eqn:El; simpl in Hr; try done.
    destruct (tparse_length toks4) as [[d toks5]| | |] eqn:Ed; simpl in Hr; try done.
    destruct (closing (thead toks5)) eqn:Ecl; simpl in Hr; [|done].
    injection Hr as <- <-.
    apply tnext_inv in En as (w & -> & Hne).
    destruct (tparse_children_inv _ IH _ _ _ _ Ek)
      as (k1 & ks & pre1 & -> & -> & Hlen2 & Hlab & Hsib).
    apply tnext_inv in En2 as (w2 & -> & Hne2).
    apply tparse_label_inv in El as (pre2 & -> & Hlp & Hlin).
    apply tparse_length_inv in Ed as (pre3 & -> & Hdp).
    exists (w :: pre1 ++ w2 :: pre2 ++ pre3).
    split; [by list_assoc|].
    split; [done|]. split.
    + intros x Hx. simpl in Hx. apply elem_of_app in Hx as [Hx|Hx].
      * apply elem_of_cons. right. apply elem_of_app. right.
        apply elem_of_cons. right. apply elem_of_app. left.
        destruct l as [s|]; [|by apply elem_of_nil in Hx].
        apply list_elem_of_singleton in Hx as ->. by apply Hlin.
      * apply elem_of_cons. right. apply elem_of_app. left. by apply Hlab.
    + intros Hok. apply Forall_cons in Hok as [Hw Hok].
      simpl in Eopen, Hlen.
      rewrite (token_ok_structural w "(" Hw (first_char_eqb _ _ Eopen) eq_refl).
      pose proof (Forall_app_r _ _ _ Hok) as Hok2.
      apply Forall_cons in Hok2 as [Hw2 Hok2]. simpl in Eclose.
      rewrite (token_ok_structural w2 ")" Hw2 (first_char_eqb _ _ Eclose) eq_refl).
      apply subtree_inner; [by apply Hsib|done|].
      apply Hdp. by apply Forall_app_r in Hok2.
  - simpl in Hr.
    destruct (tparse_label toks) as [[l toks4]| | |] eqn:El; simpl in Hr; try done.
    destruct (tparse_length toks4) as [[d toks5]| | |] eqn:Ed; simpl in Hr; try done.
    destruct (closing (thead toks5)) eqn:Ecl; simpl in Hr; [|done].
    injection Hr as <- <-.
    apply tparse_label_inv in El as (pre2 & -> & Hlp & Hlin).
    apply tparse_length_inv in Ed as (pre3 & -> & Hdp).
    exists (pre2 ++ pre3). split; [by list_assoc|]. split; [done|]. split.
    + intros x Hx. simpl in Hx. rewrite app_nil_r in Hx.
      apply elem_of_app. left.
      destruct l as [s|]; [|by apply elem_of_nil in Hx].
      apply list_elem_of_singleton in Hx as ->. by apply Hlin.
    + intros Hok. apply subtree_leaf; [done|].
      apply Hdp. by apply Forall_app_r in Hok.
Qed.

Lemma read_as_length T toks toks' :
  read_as T toks toks' -> (length toks' <= length toks)%nat /\ toks' <> [].
Proof.
  intros (pre & -> & Hcl & _). split; [rewrite length_app; lia|].
  by apply closing_not_nil.
Qed.

(** The fuel [eTree_parseNewickString] passes is enough. *)
Lemma tparse_children_fuel (p : list cstr -> result (tree * list cstr)) f k toks :
  (forall toks, (length toks <= f)%nat -> p toks <> NoFuel) ->
  (forall toks T toks', p toks = Ok (T, toks') -> read_as T toks toks') ->
  (length toks <= f)%nat -> (length toks <= k)%nat ->
  tparse_children p (S k) toks <> NoFuel.
Proof.
  intros Hp Hinv. revert toks. induction k as [|k IH]; intros toks Hf Hk.
  - destruct toks; [|simpl in Hk; lia]. simpl.
    pose proof (Hp [] Hf) as Hnf.
    destruct (p []) as [[c toks1]| | |] eqn:Ep; simpl; try done.
    apply Hinv, read_as_length in Ep as [Hlen Hne].
    destruct toks1; [done|simpl in Hlen; lia].
  - change (tparse_children p (S (S k)) toks) with
      (rbind (p toks) (fun '(child, toks) =>
       rbind (rassert (Nat.eqb (length (thead toks)) 1)) (fun _ =>
       if Ascii.eqb (first_char (thead toks)) ","
       then
         rbind (tnext toks) (fun toks =>
         rbind (tparse_children p (S k) toks) (fun '(rest, toks) =>
         Ok (child :: rest, toks)))
       else Ok ([child], toks)))).
    set (pk := tparse_children p (S k)) in *.
    pose proof (Hp toks Hf) as Hnf.
    destruct (p toks) as [[c toks1]| | |] eqn:Ep; simpl; try done.
    apply Hinv, read_as_length in Ep as [Hlen Hne].
    case_rassert; try done.
    destruct (Ascii.eqb _ _); [|done].
    destruct (tnext_cases toks1) as [[toks2 En]|En]; rewrite En; simpl; [|done].
    apply tnext_inv in En as (w & -> & _). simpl in Hlen.
    specialize (IH toks2 ltac:(lia) ltac:(lia)).
    destruct (pk toks2) as [[]| | |]; simpl; done.
Qed.

Lemma tparse_tail_fuel kids toks1 :
  rbind (tparse_label toks1) (fun '(l, toks) =>
  rbind (tparse_length toks) (fun '(d, toks) =>
  rbind (rassert (closing (thead toks))) (fun _ =>
  Ok (Node l d kids, toks)))) <> NoFuel.
Proof.
  unfold tparse_label, tparse_length.
  destruct (labelling _); simpl.
  - destruct (tnext_cases toks1) as [[a ->]| ->]; simpl; [|done].
    destruct (Ascii.eqb _ _); simpl.
    + destruct (tnext_cases a) as [[a0 ->]| ->]; simpl; [|done].
      destruct (sscanf_lf _); simpl; try done.
      destruct (tnext_cases a0) as [[a1 ->]| ->]; simpl; [|done].
      by case_rassert.
    + by case_rassert.
  - destruct (Ascii.eqb _ _); simpl.
    + destruct (tnext_cases toks1) as [[a ->]| ->]; simpl; [|done].
      destruct (sscanf_lf _); simpl; try done.
      destruct (tnext_cases a) as [[a1 ->]| ->]; simpl; [|done].
      by case_rassert.
    + by case_rassert.
Qed.

Lemma tparseP_S f toks :
  tparseP (S f) toks =
    rbind
      (if Ascii.eqb (first_char (thead toks)) "("
       then
         rbind (rassert (Nat.eqb (length (thead toks)) 1)) (fun _ =>
         rbind (tnext toks) (fun toks =>
         rbind (tparse_children (tparseP f) f toks) (fun '(kids, toks) =>
         rbind (rassert (Ascii.eqb (first_char (thead toks)) ")")) (fun _ =>
         rbind (tnext toks) (fun toks => Ok (kids, toks))))))
       else Ok ([], toks))
      (fun '(kids, toks) =>
    rbind (tparse_label toks) (fun '(l, toks) =>
    rbind (tparse_length toks) (fun '(d, toks) =>
    rbind (rassert (closing (thead toks))) (fun _ =>
    Ok (Node l d kids, toks))))).
Proof. reflexivity. Qed.

Lemma tparseP_fuel f toks : (length toks <= f)%nat -> tparseP (S f) toks <> NoFuel.
Proof.
  revert toks. induction f as [|f IH]; intros toks Hf.
  - destruct toks; [|simpl in Hf; lia]. simpl.
    unfold tparse_label. simpl. done.
  - rewrite tparseP_S.
    pose proof (fun toks T toks' => tparseP_inv (S f) toks T toks') as Hinv.
    set (p := tparseP (S f)) in *.
    set (pk := tparse_children p (S f)) in *.
    destruct (Ascii.eqb (first_char (thead toks)) "("); [|apply tparse_tail_fuel].
    case_rassert; try done.
    destruct (tnext_cases toks) as [[toks1 En]|En]; rewrite En; simpl; [|done].
    apply tnext_inv in En as (w & -> & _). simpl in Hf.
    pose proof (tparse_children_fuel p f f toks1 IH Hinv ltac:(lia) ltac:(lia)) as Hk.
    fold pk in Hk.
    destruct (pk toks1) as [[kids toks2]| | |]; simpl; try done.
    case_rassert; try done.
    destruct (tnext_cases toks2) as [[t ->]| ->]; simpl; [|done].
    apply tparse_tail_fuel.
Qed.

Lemma tparse_children_no_fault (p : list cstr -> result (tree * list cstr)) :
  (forall toks, p toks <> Fault) ->
  forall k toks, tparse_children p k toks <> Fault.
Proof.
  intros Hp k. induction k as [|k IH]; intros toks; [done|]. simpl.
  pose proof (Hp toks). destruct (p toks) as [[c toks1]| | |]; simpl; try done.
  case_rassert; try done.
  destruct (Ascii.eqb _ _); [|done].
  destruct (tnext_cases toks1) as [[toks2 ->]| ->]; simpl; [|done].
  specialize (IH toks2).
  destruct (tparse_children p k toks2) as [[]| | |]; simpl; done.
Qed.

Lemma tparseP_no_fault f toks : tparseP f toks <> Fault.
Proof.
  revert toks. induction f as [|f IH]; intros toks; [done|]. simpl.
  assert (Htail : forall kids toks1,
    rbind (tparse_label toks1) (fun '(l, toks) =>
    rbind (tparse_length toks) (fun '(d, toks) =>
    rbind (rassert (closing (thead toks))) (fun _ =>
    Ok (Node l d kids, toks)))) <> Fault).
  { intros kids toks1. unfold tparse_label, tparse_length.
    destruct (labelling _); simpl.
    - destruct (tnext_cases toks1) as [[a ->]| ->]; simpl; [|done].
      destruct (Ascii.eqb _ _); simpl.
      + destruct (tnext_cases a) as [[a0 ->]| ->]; simpl; [|done].
        destruct (sscanf_lf _); simpl; try done.
        destruct (tnext_cases a0) as [[a1 ->]| ->]; simpl; [|done].
        by case_rassert.
      + by case_rassert.
    - destruct (Ascii.eqb _ _); simpl.
      + destruct (tnext_cases toks1) as [[a ->]| ->]; simpl; [|done].
        destruct (sscanf_lf _); simpl; try done.
        destruct (tnext_cases a) as [[a1 ->]| ->]; simpl; [|done].
        by case_rassert.
      + by case_rassert. }
  destruct (Ascii.eqb (first_char (thead toks)) "("); [|apply Htail].
  case_rassert; try done.
  destruct (tnext_cases toks) as [[toks1 ->]| ->]; simpl; [|done].
  pose proof (tparse_children_no_fault (tparseP f) IH f toks1).
  destruct (tparse_children (tparseP f) f toks1) as [[kids toks2]| | |];
    simpl; try done.
  case_rassert; try done.
  destruct (tnext_cases toks2) as [[t ->]| ->]; simpl; [|done]. apply Htail.
Qed.

End TokenLevel.


(** ** Reading back the tokens of a written tree *)

Section ReadBack.
Context `{Libc}.

Lemma clean_first w : clean w -> structural (first_char w) = false.
Proof.
  intros [Hne Hw]. destruct w as [|c w]; [done|]. simpl.
  apply Hw, list_elem_of_here.
Qed.

Lemma structural_false c :
  structural c = false ->
  Ascii.eqb c "(" = false /\ Ascii.eqb c ")" = false /\ Ascii.eqb c ":" = false /\
  Ascii.eqb c "," = false /\ Ascii.eqb c ";" = false.
Proof.
  unfold structural. intros Hs.
  repeat (apply orb_false_elim in Hs as [Hs ?]). auto.
Qed.

Lemma clean_labelling w : clean w -> labelling w = true.
Proof.
  intros Hw. apply clean_first, structural_false in Hw as (_ & H2 & H3 & H4 & H5).
  unfold labelling. by rewrite H2, H3, H4, H5.
Qed.

Lemma clean_not_open w : clean w -> Ascii.eqb (first_char w) "(" = false.
Proof. intros Hw. by apply clean_first, structural_false in Hw as (? & _). Qed.

Lemma terminator_facts x :
  terminator x ->
  labelling x = false /\ Ascii.eqb (first_char x) "(" = false /\
  Ascii.eqb (first_char x) ":" = false /\ closing x = true /\ length x = 1%nat.
Proof. intros [->|[->| ->]]; done. Qed.

Lemma tparse_label_Some w toks :
  labelling w = true -> toks <> [] -> tparse_label (w :: toks) = Ok (Some w, toks).
Proof.
  intros Hl Hne. unfold tparse_label. cbn [thead].
  by rewrite Hl, (tnext_cons w toks Hne).
Qed.

Lemma tparse_label_None toks :
  labelling (thead toks) = false -> tparse_label toks = Ok (None, toks).
Proof. intros Hl. unfold tparse_label. by rewrite Hl. Qed.

Lemma tparse_length_Some w d toks :
  sscanf_lf w = Some d -> toks <> [] ->
  tparse_length (cs ":" :: w :: toks) = Ok (d, toks).
Proof.
  intros Hs Hne. unfold tparse_length. simpl. rewrite Hs. simpl.
  by destruct toks.
Qed.

Lemma tparse_length_None toks :
  Ascii.eqb (first_char (thead toks)) ":" = false ->
  tparse_length toks = Ok (INFINITY, toks).
Proof. intros Hl. unfold tparse_length. by rewrite Hl. Qed.

Lemma tail_not_open l d x rest :
  match l with Some s => clean s | None => True end ->
  terminator x ->
  Ascii.eqb (first_char (thead (label_tokens l ++ length_tokens d ++ x :: rest))) "("
    = false.
Proof.
  intros Hl Hx. destruct l as [s|]; simpl.
  - by apply clean_not_open.
  - unfold length_tokens. destruct (double_ne d INFINITY); simpl; [done|].
    by apply terminator_facts in Hx as (_ & ? & _).
Qed.


Lemma tree_tokens_eq l d kids :
  tree_tokens (Node l d kids) =
    (match kids with
     | [] => []
     | _ :: _ => [cs "("] ++ join_tokens (List.map tree_tokens kids) ++ [cs ")"]
     end) ++ label_tokens l ++ length_tokens d.
Proof. reflexivity. Qed.

Lemma reread_eq l d kids :
  reread (Node l d kids) = Node l (reread_length d) (List.map reread kids).
Proof. reflexivity. Qed.

Lemma size_eq l d kids : size (Node l d kids) = S (list_sum (List.map size kids)).
Proof. reflexivity. Qed.

Lemma size_pos t : (1 <= size t)%nat.
Proof. destruct t. rewrite size_eq. lia. Qed.

Lemma list_sum_bounds kids :
  (length kids <= list_sum (List.map size kids))%nat /\
  Forall (fun k => size k <= list_sum (List.map size kids))%nat kids.
Proof.
  induction kids as [|k kids [IH1 IH2]]; [split; [done|constructor]|].
  simpl. pose proof (size_pos k). split; [lia|]. constructor; [lia|].
  eapply Forall_impl; [done|]. simpl. intros; lia.
Qed.

Lemma tparse_children_S (p : list cstr -> result (tree * list cstr)) n toks :
  tparse_children p (S n) toks =
    rbind (p toks) (fun '(child, toks) =>
    rbind (rassert (Nat.eqb (length (thead toks)) 1)) (fun _ =>
    if Ascii.eqb (first_char (thead toks)) ","
    then
      rbind (tnext toks) (fun toks =>
      rbind (tparse_children p n toks) (fun '(rest, toks) =>
      Ok (child :: rest, toks)))
    else Ok ([child], toks))).
Proof. reflexivity. Qed.

Lemma tparse_children_tokens f kids :
  Forall reads_back kids -> kids <> [] ->
  Forall (fun k => size k <= f)%nat kids ->
  forall n tail, (length kids <= n)%nat ->
    tparse_children (tparseP f) n
      (join_tokens (List.map tree_tokens kids) ++ cs ")" :: tail) =
    Ok (List.map reread kids, cs ")" :: tail).
Proof.
  induction kids as [|k kids IH]; intros Hrb Hne Hsz n tail Hn; [done|].
  apply Forall_cons in Hrb as [Hk Hrb]. apply Forall_cons in Hsz as [Hsk Hsz].
  destruct n as [|n]; [simpl in Hn; lia|].
  rewrite tparse_children_S.
  destruct kids as [|k' kids].
  - change (join_tokens (List.map tree_tokens [k])) with (tree_tokens k).
    rewrite (Hk (cs ")") tail f); [|by right; left|done].
    reflexivity.
  - change (join_tokens (List.map tree_tokens (k :: k' :: kids)) ++ cs ")" :: tail)
      with ((tree_tokens k ++ [cs ","] ++ join_tokens (List.map tree_tokens (k' :: kids)))
              ++ cs ")" :: tail).
    replace ((tree_tokens k ++ [cs ","] ++ join_tokens (List.map tree_tokens (k' :: kids)))
              ++ cs ")" :: tail)
      with (tree_tokens k ++ cs "," ::
              (join_tokens (List.map tree_tokens (k' :: kids)) ++ cs ")" :: tail))
      by list_assoc.
    rewrite (Hk (cs ",") _ f); [|by left|done].
    cbn [rbind rassert thead first_char cs list_ascii_of_string length Nat.eqb].
    change (Ascii.eqb "," ",") with true. cbv iota.
    rewrite tnext_cons by (by destruct (join_tokens _)).
    cbn [rbind]. change [")"%char] with (cs ")").
    rewrite (IH Hrb ltac:(done) Hsz n tail) by (simpl in *; lia).
    reflexivity.
Qed.


(** ** The tokens of a written tree *)

Lemma write_tree_eq l d kids :
  write_tree (Node l d kids) =
    write_kids (List.map write_tree kids) ++ write_label l ++ write_length d.
Proof. reflexivity. Qed.

Lemma boundary_spaced_cs c r : structural c = true -> boundary (spaced [c] ++ r).
Proof. apply boundary_spaced_structural. Qed.

Lemma words_length d r :
  (double_ne d INFINITY = true -> clean (printf_f d)) -> boundary r ->
  words (spaced (write_length d) ++ r) = length_tokens d ++ words r /\
  boundary (spaced (write_length d) ++ r).
Proof.
  intros Hd Hr. unfold write_length, length_tokens.
  destruct (double_ne d INFINITY); [|done].
  change (cs ":") with [":"%char].
  rewrite spaced_app, <- app_assoc. split.
  - rewrite words_structural by done. by rewrite words_clean by auto.
  - by apply boundary_spaced_structural.
Qed.


Lemma words_join kids :
  Forall tokenizes kids ->
  forall r, boundary r ->
    words (spaced (join_comma (List.map write_tree kids)) ++ r) =
    join_tokens (List.map tree_tokens kids) ++ words r.
Proof.
  induction kids as [|k kids IH]; intros Hk r Hr; [done|].
  apply Forall_cons in Hk as [Hk Hks].
  destruct kids as [|k' kids]; [by apply Hk|].
  change (join_comma (List.map write_tree (k :: k' :: kids)))
    with (write_tree k ++ [","%char] ++ join_comma (List.map write_tree (k' :: kids))).
  change (join_tokens (List.map tree_tokens (k :: k' :: kids)))
    with (tree_tokens k ++ [cs ","] ++ join_tokens (List.map tree_tokens (k' :: kids))).
  rewrite !spaced_app, <- !app_assoc.
  rewrite Hk by (by apply boundary_spaced_structural).
  rewrite words_structural by done.
  by rewrite (IH Hks r Hr).
Qed.


(** ** Every token of a spaced text is well formed *)

Lemma spaced_cons c s : spaced (c :: s) = spaced [c] ++ spaced s.
Proof. by rewrite <- spaced_app. Qed.

Lemma spaced_plain c : structural c = false -> spaced [c] = [c].
Proof. intros Hc. rewrite spaced_flat_map. simpl. unfold space_out. by rewrite Hc. Qed.

Lemma span_word_cons c s :
  span_word (c :: s) =
    if isspace c then ([], c :: s) else (c :: fst (span_word s), snd (span_word s)).
Proof. simpl. destruct (isspace c); [done|]. by destruct (span_word s). Qed.

Lemma span_word_spaced_plain s r x :
  boundary r -> x ∈ fst (span_word (spaced s ++ r)) -> structural x = false.
Proof.
  intros Hr. induction s as [|e s IH].
  - simpl. destruct r as [|d r]; [by intros ?%elem_of_nil|].
    simpl in Hr. rewrite span_word_cons, Hr. by intros ?%elem_of_nil.
  - rewrite spaced_cons, <- app_assoc.
    destruct (structural e) eqn:Ee.
    + rewrite (spaced_structural e Ee). by intros ?%elem_of_nil.
    + rewrite (spaced_plain e Ee). change ([e] ++ ?t) with (e :: t).
      rewrite span_word_cons. destruct (isspace e); [by intros ?%elem_of_nil|].
      simpl. intros [->|Hx]%elem_of_cons; auto.
Qed.

Lemma words_spaced_token_ok s r :
  boundary r -> Forall token_ok (words r) ->
  Forall token_ok (words (spaced s ++ r)).
Proof.
  intros Hr Hwr. induction s as [|c s IH]; [done|].
  rewrite spaced_cons, <- app_assoc.
  destruct (structural c) eqn:Ec.
  - rewrite words_structural by done. constructor; [|done].
    split; [done|]. left. by exists c.
  - rewrite (spaced_plain c Ec). change ([c] ++ ?t) with (c :: t).
    destruct (isspace c) eqn:Es.
    + change (words (c :: ?t)) with (if isspace c then words t else
        match t with
        | [] => [[c]]
        | d :: _ => if isspace d then [c] :: words t
                    else match words t with w :: ws => (c :: w) :: ws | [] => [[c]] end
        end). by rewrite Es.
    + rewrite (words_span c _ Es). constructor.
      * split; [done|]. right. intros x [->|Hx]%elem_of_cons; [done|].
        by apply (span_word_spaced_plain s r).
      * apply Forall_forall. intros w Hw. apply span_word_snd in Hw.
        rewrite Forall_forall in IH. by apply IH.
Qed.

Lemma tokens_ok s : Forall token_ok (words (spaced s)).
Proof.
  rewrite <- (app_nil_r (spaced s)). apply words_spaced_token_ok; [done|constructor].
Qed.

End ReadBack.


(** ** Trees in memory *)

Lemma atree_ind' (P : atree -> Prop) :
  (forall a lbl len kids, Forall P kids -> P (ANode a lbl len kids)) ->
  forall t, P t.
Proof.
  intros HP. fix IH 1. intros [a lbl len kids]. apply HP.
  induction kids as [|k kids IHk]; constructor; [apply IH|apply IHk].
Qed.

Lemma elem_of_flat_map {A B} (f : A -> list B) (l : list A) (y : B) :
  y ∈ List.flat_map f l <-> exists x, x ∈ l /\ y ∈ f x.
Proof.
  rewrite list_elem_of_In, in_flat_map. split.
  - intros (x & Hx & Hy). exists x. by rewrite !list_elem_of_In.
  - intros (x & Hx & Hy). exists x. by rewrite <- !list_elem_of_In.
Qed.

Lemma repr_kids σ a kids :
  (fix all (ks : list atree) : Prop :=
     match ks with
     | [] => True
     | k :: ks' => repr σ (Some a) k /\ all ks'
     end) kids <-> Forall (repr σ (Some a)) kids.
Proof.
  induction kids as [|k kids IH]; [split; [constructor|done]|].
  rewrite Forall_cons, <- IH. done.
Qed.

Lemma repr_eq σ par a lbl len kids :
  repr σ par (ANode a lbl len kids) <->
  trees σ !! a = Some (mkETree len (List.map aroot kids) (fst <$> lbl) par) /\
  (match lbl with Some (p, s) => strs σ !! p = Some s | None => True end) /\
  Forall (repr σ (Some a)) kids.
Proof.
  rewrite <- repr_kids. destruct lbl as [[p s]|]; done.
Qed.

Lemma anodes_eq a lbl len kids :
  anodes (ANode a lbl len kids) = a :: List.flat_map anodes kids.
Proof. reflexivity. Qed.

Lemma alabels_eq a lbl len kids :
  alabels (ANode a lbl len kids) =
    (match lbl with Some (p, _) => [p] | None => [] end) ++ List.flat_map alabels kids.
Proof. reflexivity. Qed.

Lemma erase_eq a lbl len kids :
  erase (ANode a lbl len kids) = Node (snd <$> lbl) len (List.map erase kids).
Proof. reflexivity. Qed.

Lemma repr_frame σ σ' par t :
  repr σ par t ->
  (forall x, x ∈ anodes t -> trees σ' !! x = trees σ !! x) ->
  (forall p, p ∈ alabels t -> strs σ' !! p = strs σ !! p) ->
  repr σ' par t.
Proof.
  revert par. induction t as [a lbl len kids IH] using atree_ind'.
  intros par. rewrite !repr_eq, anodes_eq, alabels_eq.
  intros (Ha & Hl & Hk) Ht Hs. split; [|split].
  - rewrite Ht; [done|]. apply list_elem_of_here.
  - destruct lbl as [[p s]|]; [|done]. rewrite Hs; [done|].
    apply elem_of_app. left. apply list_elem_of_here.
  - rewrite Forall_forall in IH, Hk. apply Forall_forall. intros k Hkin.
    apply IH; [done|by apply Hk| |].
    + intros x Hx. apply Ht. apply elem_of_cons. right.
      apply elem_of_flat_map. eauto.
    + intros p Hp. apply Hs. apply elem_of_app. right.
      apply elem_of_flat_map. eauto.
Qed.

Lemma repr_dom σ par t :
  repr σ par t ->
  (forall x, x ∈ anodes t -> x ∈ dom (trees σ)) /\
  (forall p, p ∈ alabels t -> p ∈ dom (strs σ)).
Proof.
  revert par. induction t as [a lbl len kids IH] using atree_ind'.
  intros par. rewrite repr_eq, anodes_eq, alabels_eq.
  intros (Ha & Hl & Hk). rewrite Forall_forall in IH, Hk. split.
  - intros x [->|Hx]%elem_of_cons; [by apply elem_of_dom_2 in Ha|].
    apply elem_of_flat_map in Hx as (k & Hkin & Hx).
    by apply (IH k Hkin (Some a) (Hk k Hkin)).
  - intros p [Hp|Hp]%elem_of_app.
    + destruct lbl as [[q s]|]; [|by apply elem_of_nil in Hp].
      apply list_elem_of_singleton in Hp as ->. by apply elem_of_dom_2 in Hl.
    + apply elem_of_flat_map in Hp as (k & Hkin & Hp).
      by apply (IH k Hkin (Some a) (Hk k Hkin)).
Qed.

(** ** The monad, continued *)

Lemma bind_assoc {A B C} (m : M A) (f : A -> M B) (g : B -> M C) σ :
  bind (bind m f) g σ = bind m (fun x => bind (f x) g) σ.
Proof. unfold bind. by destruct (m σ) as [[]| | |]. Qed.

Lemma bind_Abort {A B} (m : M A) (k : A -> M B) σ :
  m σ = Abort -> bind m k σ = Abort.
Proof. unfold bind. by intros ->. Qed.

Lemma bind_NoFuel {A B} (m : M A) (k : A -> M B) σ :
  m σ = NoFuel -> bind m k σ = NoFuel.
Proof. unfold bind. by intros ->. Qed.

(** ** Steps of the parser *)

Lemma parsed_old_trees σ0 σ tok0 tok w t x :
  parsed σ0 σ tok0 tok w t -> x ∈ dom (trees σ0) -> x ∈ dom (trees σ).
Proof.
  intros (_ & _ & _ & F1 & _) Hx. apply elem_of_dom. rewrite (F1 x Hx).
  by apply elem_of_dom.
Qed.

Lemma parsed_old_strs σ0 σ tok0 tok w t p :
  parsed σ0 σ tok0 tok w t -> p ∈ dom (strs σ0) -> p <> tok0 ->
  p ∈ dom (strs σ) /\ p <> tok.
Proof.
  intros (_ & _ & _ & _ & F2 & _ & Htok & _) Hp Hne. split.
  - apply elem_of_dom. rewrite (F2 p Hp Hne). by apply elem_of_dom.
  - intros ->. by apply Hne, Htok.
Qed.

Lemma construct_parsed σ0 tok0 w :
  strs σ0 !! tok0 = Some w ->
  let e := fresh (dom (trees σ0)) in
  parsed σ0 (set_trees (<[e := mkETree INFINITY [] None None]> (trees σ0)) σ0)
    tok0 tok0 w (ANode e None INFINITY []).
Proof.
  intros Hw e. pose proof (is_fresh (dom (trees σ0))) as Hf. fold e in Hf.
  split; [|split; [|split; [|split; [|split; [|split; [|split]]]]]].
  - apply repr_eq. simpl. rewrite lookup_insert_eq. done.
  - rewrite anodes_eq. simpl. apply NoDup_singleton.
  - intros x ->%list_elem_of_singleton. done.
  - intros x Hx. simpl. rewrite lookup_insert_ne; [done|]. by intros <-.
  - done.
  - done.
  - done.
  - rewrite alabels_eq. simpl. apply not_elem_of_nil.
Qed.

Lemma getNextToken_parsed σ0 σ tok0 tok w t s :
  parsed σ0 σ tok0 tok w t ->
  match words s with
  | [] => eTree_parseNewickTreeString_getNextToken (tok, s) σ = Abort
  | w' :: ws =>
      exists tok' s' σ',
        eTree_parseNewickTreeString_getNextToken (tok, s) σ = Ok ((tok', s'), σ') /\
        words s' = ws /\ parsed σ0 σ' tok0 tok' w' t
  end.
Proof.
  intros HP. pose proof HP as (Hr & Hnd & N1 & F1 & F2 & Hw & Htok & Hlab).
  unfold eTree_parseNewickTreeString_getNextToken. simpl.
  set (σ1 := set_strs (delete tok (strs σ)) σ).
  assert (Hfree : free tok σ = Ok (tt, σ1)) by (unfold free; by rewrite Hw).
  rewrite (bind_Ok _ _ _ _ _ Hfree).
  pose proof (string_getNextWord_spec s σ1) as Hnext.
  destruct (words s) as [|w' ws].
  - destruct Hnext as [r Hnext]. by rewrite (bind_Ok _ _ _ _ _ Hnext).
  - destruct Hnext as (r & Hr' & Hnext). rewrite (bind_Ok _ _ _ _ _ Hnext).
    set (tok' := fresh (dom (strs σ1))).
    pose proof (is_fresh (dom (strs σ1))) as Hf. fold tok' in Hf.
    assert (Hf' : forall p, p ∈ dom (strs σ) -> p <> tok -> p <> tok').
    { intros p Hp Hne ->. apply Hf. subst σ1. simpl.
      rewrite dom_delete_L. set_solver. }
    destruct (repr_dom _ _ _ Hr) as [_ Hld].
    exists tok', r, (set_strs (<[tok' := w']> (strs σ1)) σ1).
    split; [done|]. split; [done|].
    split; [|split; [done|split; [done|split; [done|split; [|split; [|split]]]]]].
    + eapply repr_frame; [done|done|]. intros p Hp. simpl.
      assert (p <> tok) by (by intros ->).
      rewrite lookup_insert_ne, lookup_delete_ne; [done|done|].
      apply not_eq_sym, Hf'; [by apply Hld|done].
    + intros p Hp Hne. simpl.
      destruct (parsed_old_strs _ _ _ _ _ _ p HP Hp Hne) as [Hp' Hne'].
      rewrite lookup_insert_ne, lookup_delete_ne; [by apply F2|done|].
      by apply not_eq_sym, Hf'.
    + simpl. by rewrite lookup_insert_eq.
    + intros Hin. destruct (decide (tok' = tok0)) as [|Hne]; [done|].
      destruct (parsed_old_strs _ _ _ _ _ _ tok' HP Hin Hne) as [Hp' Hne'].
      by destruct (Hf' tok' Hp' Hne').
    + intros Hin. apply (Hf' tok'); [by apply Hld| |done].
      intros Heq. apply Hlab. by rewrite <- Heq.
Qed.

Lemma reparent_other n e x X :
  x <> n -> x <> e -> reparent n None (Some e) x X = X.
Proof.
  intros Hn He. unfold reparent.
  destruct (decide (None = Some x)); [done|].
  destruct (decide (Some e = Some x)); [congruence|].
  destruct (decide (x = n)); [done|].
  rewrite app_nil_r. by destruct X.
Qed.

Lemma NoDup_anodes_root a lbl len kids :
  NoDup (anodes (ANode a lbl len kids)) ->
  (a ∉ List.flat_map anodes kids) /\ NoDup (List.flat_map anodes kids).
Proof. rewrite anodes_eq. by intros ?%NoDup_cons. Qed.

(** The child just parsed is attached to the node being built. *)
Lemma attach_parsed σ0 σ σ' tok0 tok tok' w w' e lbl len kids c :
  parsed σ0 σ tok0 tok w (ANode e lbl len kids) ->
  parsed σ σ' tok tok' w' c ->
  exists σ'',
    eTree_setParent (aroot c) (Some e) σ' = Ok (tt, σ'') /\
    parsed σ0 σ'' tok0 tok' w' (ANode e lbl len (kids ++ [c])).
Proof.
  intros HP HQ.
  pose proof HP as (Hr & Hnd & N1 & F1 & F2 & Hw & Htok & Hlab).
  pose proof HQ as (Hr' & Hnd' & N1' & F1' & F2' & Hw' & Htok' & Hlab').
  destruct c as [a cl cd ck].
  destruct (repr_dom _ _ _ Hr) as [Hdn Hdl].
  destruct (repr_dom _ _ _ Hr') as [Hdn' Hdl'].
  apply repr_eq in Hr as (He & Hel & Hek).
  apply repr_eq in Hr' as (Ha & Hal & Hak).
  apply NoDup_anodes_root in Hnd as [Hroot Hndk].
  apply NoDup_anodes_root in Hnd' as [Hroot' Hndk'].
  assert (Hein : e ∈ dom (trees σ)) by (by apply elem_of_dom_2 in He).
  assert (Hae : a <> e).
  { intros ->. apply (N1' e); [apply list_elem_of_here|done]. }
  assert (He' : trees σ' !! e = Some (mkETree len (List.map aroot kids) (fst <$> lbl) None)).
  { by rewrite (F1' e Hein). }
  simpl aroot.
  destruct (eTree_setParent_Ok σ' a _ (Some e) Ha) as [σ'' Hset].
  { intros q [= <-]. eauto. }
  { simpl. done. }
  exists σ''. split; [done|].
  apply eTree_setParent_inv in Hset as (N & HN & Hstrs & _ & _ & Ht'').
  rewrite Ha in HN. injection HN as <-. simpl in Ht''.
  (* nodes other than [a] and [e] are untouched *)
  assert (Hsame : forall x, x <> a -> x <> e -> trees σ'' !! x = trees σ' !! x).
  { intros x Hxa Hxe. rewrite Ht''. destruct (trees σ' !! x) as [X|]; [|done].
    simpl. by rewrite reparent_other. }
  assert (Ha'' : trees σ'' !! a =
            Some (mkETree cd (List.map aroot ck) (fst <$> cl) (Some e))).
  { rewrite Ht'', Ha. simpl. unfold reparent. simpl.
    destruct (decide (None = Some a)); [done|].
    destruct (decide (Some e = Some a)); [congruence|].
    destruct (decide (a = a)); [|done]. by rewrite app_nil_r. }
  assert (He'' : trees σ'' !! e =
            Some (mkETree len (List.map aroot (kids ++ [ANode a cl cd ck]))
                    (fst <$> lbl) None)).
  { rewrite Ht'', He'. simpl. unfold reparent. simpl.
    destruct (decide (None = Some e)); [done|].
    destruct (decide (Some e = Some e)); [|done].
    destruct (decide (e = a)); [congruence|]. by rewrite map_app. }
  (* the older part of the tree, seen from the new memory *)
  assert (Hold_nodes : forall x, x ∈ List.flat_map anodes kids ->
            x ∈ dom (trees σ) /\ x <> a /\ x <> e).
  { intros x Hx. assert (Hxd : x ∈ dom (trees σ)).
    { apply Hdn. rewrite anodes_eq. apply elem_of_cons. by right. }
    split; [done|]. split.
    - intros ->. apply (N1' a); [apply list_elem_of_here|done].
    - by intros ->. }
  assert (Hold_labels : forall p, p ∈ alabels (ANode e lbl len kids) ->
            strs σ'' !! p = strs σ !! p /\ p <> tok').
  { intros p Hp. assert (Hpd : p ∈ dom (strs σ)) by (by apply Hdl).
    assert (Hpt : p <> tok) by (by intros ->).
    split; [rewrite Hstrs; by apply F2'|].
    intros ->. by apply Hpt, Htok'. }
  split; [|split; [|split; [|split; [|split; [|split; [|split]]]]]].
  - apply repr_eq. split; [done|]. split.
    { destruct lbl as [[p s]|]; [|done].
      destruct (Hold_labels p) as [-> _]; [|done].
      rewrite alabels_eq. apply elem_of_app. left. apply list_elem_of_here. }
    apply Forall_app. split.
    + rewrite Forall_forall in Hek. apply Forall_forall. intros k Hk.
      eapply repr_frame; [by apply Hek| |].
      * intros x Hx.
        destruct (Hold_nodes x) as (Hxd & Hxa & Hxe);
          [apply elem_of_flat_map; eauto|].
        rewrite Hsame by done. by apply F1'.
      * intros p Hp. apply Hold_labels. rewrite alabels_eq.
        apply elem_of_app. right. apply elem_of_flat_map. eauto.
    + constructor; [|constructor]. apply repr_eq. split; [done|]. split.
      { destruct cl as [[p s]|]; [|done]. by rewrite Hstrs. }
      rewrite Forall_forall in Hak. apply Forall_forall. intros k Hk.
      eapply repr_frame; [by apply Hak| |].
      * intros x Hx. apply Hsame.
        -- intros ->. apply Hroot'. apply elem_of_flat_map. eauto.
        -- intros ->. apply (N1' e); [|done]. rewrite anodes_eq.
           apply elem_of_cons. right. apply elem_of_flat_map. eauto.
      * intros p Hp. by rewrite Hstrs.
  - rewrite anodes_eq, flat_map_app. simpl. rewrite app_nil_r.
    apply NoDup_cons. split.
    + intros [Hx|Hx]%elem_of_app; [done|].
      apply (N1' e); [|done]. by rewrite anodes_eq.
    + apply NoDup_app. split; [done|]. split.
      * intros x Hx Hx'. destruct (Hold_nodes x Hx) as (Hxd & _).
        by apply (N1' x).
      * apply NoDup_cons. by split.
  - intros x. rewrite anodes_eq, flat_map_app. simpl. rewrite app_nil_r.
    intros [->|[Hx|Hx]%elem_of_app]%elem_of_cons.
    + apply N1. apply list_elem_of_here.
    + apply N1. rewrite anodes_eq. apply elem_of_cons. by right.
    + intros Hx0. apply (N1' x); [by rewrite anodes_eq|].
      by apply (parsed_old_trees _ _ _ _ _ _ x HP).
  - intros x Hx. pose proof (parsed_old_trees _ _ _ _ _ _ x HP Hx) as Hxd.
    rewrite Hsame, F1', F1; [done|done|done| |].
    + intros ->. apply (N1' a); [apply list_elem_of_here|done].
    + intros ->. apply (N1 e); [apply list_elem_of_here|done].
  - intros p Hp Hne.
    destruct (parsed_old_strs _ _ _ _ _ _ p HP Hp Hne) as [Hpd Hpt].
    rewrite Hstrs, F2', F2; done.
  - by rewrite Hstrs.
  - intros Hin. destruct (decide (tok' = tok0)) as [|Hne]; [done|].
    destruct (parsed_old_strs _ _ _ _ _ _ tok' HP Hin Hne) as [Hpd Hpt].
    by destruct Hpt, Htok'.
  - rewrite alabels_eq, flat_map_app. simpl. rewrite app_nil_r.
    intros [Hx|[Hx|Hx]%elem_of_app]%elem_of_app.
    + destruct (Hold_labels tok') as [_ ?]; [|done].
      rewrite alabels_eq. apply elem_of_app. by left.
    + destruct (Hold_labels tok') as [_ ?]; [|done].
      rewrite alabels_eq. apply elem_of_app. by right.
    + by apply Hlab'.
Qed.

(** The node being built is given a new record; its children stay. *)
Lemma root_update_parsed σ0 σ tok0 tok w e lbl len kids lbl' len' ss :
  parsed σ0 σ tok0 tok w (ANode e lbl len kids) ->
  (forall p, p ∈ dom (strs σ) -> ss !! p = strs σ !! p) ->
  match lbl' with
  | Some (p, s) => ss !! p = Some s /\ p <> tok
  | None => True
  end ->
  parsed σ0
    (mkMem (<[e := mkETree len' (List.map aroot kids) (fst <$> lbl') None]> (trees σ)) ss)
    tok0 tok w (ANode e lbl' len' kids).
Proof.
  intros HP Hss Hl'.
  pose proof HP as (Hr & Hnd & N1 & F1 & F2 & Hw & Htok & Hlab).
  destruct (repr_dom _ _ _ Hr) as [Hdn Hdl].
  apply repr_eq in Hr as (He & Hel & Hek).
  pose proof (NoDup_anodes_root _ _ _ _ Hnd) as [Hroot Hndk].
  split; [|split; [|split; [|split; [|split; [|split; [|split]]]]]].
  - apply repr_eq. simpl. split; [by rewrite lookup_insert_eq|]. split.
    { destruct lbl' as [[p s]|]; [|done]. by destruct Hl'. }
    rewrite Forall_forall in Hek. apply Forall_forall. intros k Hk.
    eapply repr_frame; [by apply Hek| |].
    + intros x Hx. simpl. rewrite lookup_insert_ne; [done|].
      intros <-. apply Hroot. apply elem_of_flat_map. eauto.
    + intros p Hp. simpl. apply Hss, Hdl. rewrite alabels_eq.
      apply elem_of_app. right. apply elem_of_flat_map. eauto.
  - done.
  - done.
  - intros x Hx. simpl. rewrite lookup_insert_ne; [by apply F1|].
    intros <-. apply (N1 e); [apply list_elem_of_here|done].
  - intros p Hp Hne. simpl.
    destruct (parsed_old_strs _ _ _ _ _ _ p HP Hp Hne) as [Hpd Hpt].
    rewrite Hss by done. by apply F2.
  - simpl. rewrite Hss; [done|]. by apply elem_of_dom_2 in Hw.
  - done.
  - rewrite alabels_eq. intros [Hx|Hx]%elem_of_app.
    + destruct lbl' as [[p s]|]; [|by apply elem_of_nil in Hx].
      apply list_elem_of_singleton in Hx as ->. by destruct Hl'.
    + apply Hlab. rewrite alabels_eq. apply elem_of_app. by right.
Qed.

Lemma setLabel_parsed σ0 σ tok0 tok w e len kids :
  parsed σ0 σ tok0 tok w (ANode e None len kids) ->
  exists p σ',
    eTree_setLabel e (Some tok) σ = Ok (tt, σ') /\
    parsed σ0 σ' tok0 tok w (ANode e (Some (p, w)) len kids).
Proof.
  intros HP. pose proof HP as (Hr & _ & _ & _ & _ & Hw & _).
  apply repr_eq in Hr as (He & _ & _).
  destruct (eTree_setLabel_copy σ e _ tok w He Hw) as (Hset & Hp & Hlive).
  { simpl. done. }
  simpl in Hset, Hp, Hlive.
  set (p := fresh (dom (strs σ))) in *.
  exists p, (mkMem (<[e := mkETree len (List.map aroot kids) (Some p) None]> (trees σ))
               (<[p := w]> (strs σ))).
  split; [done|].
  apply (root_update_parsed σ0 σ tok0 tok w e None len kids (Some (p, w)) len); [done| |].
  - intros q Hq. rewrite lookup_insert_ne; [done|].
    intros <-. by apply (is_fresh (dom (strs σ))).
  - split; [by rewrite lookup_insert_eq|done].
Qed.

Lemma setBranchLength_parsed σ0 σ tok0 tok w e lbl len kids d :
  parsed σ0 σ tok0 tok w (ANode e lbl len kids) ->
  exists σ',
    eTree_setBranchLength e d σ = Ok (tt, σ') /\
    parsed σ0 σ' tok0 tok w (ANode e lbl d kids).
Proof.
  intros HP. pose proof HP as (Hr & _ & _ & _ & _ & Hw & _ & Hlab).
  apply repr_eq in Hr as (He & Hel & _).
  eexists. split; [by apply (eTree_setBranchLength_Ok _ _ _ d He)|].
  simpl. apply (root_update_parsed σ0 σ tok0 tok w e lbl len kids lbl d); [done|done|].
  destruct lbl as [[p s]|]; [|done]. split; [done|].
  intros ->. apply Hlab. rewrite alabels_eq. apply elem_of_app. left.
  apply list_elem_of_here.
Qed.

Lemma parsed_token σ0 σ tok0 tok w t :
  parsed σ0 σ tok0 tok w t -> load_str tok σ = Ok (w, σ).
Proof. intros (_ & _ & _ & _ & _ & Hw & _). by apply load_str_Ok. Qed.

Section Simulation.
Context `{Libc}.

(** [eTree_parseNewickString_getLabel] against [tparse_label]. *)
Lemma getLabel_sim σ0 σ tok0 tok w s e len kids :
  parsed σ0 σ tok0 tok w (ANode e None len kids) ->
  match tparse_label (w :: words s) with
  | Ok (l, toks') =>
      exists lbl tok' s' σ' w',
        eTree_parseNewickString_getLabel (tok, s) e σ = Ok ((tok', s'), σ') /\
        toks' = w' :: words s' /\ snd <$> lbl = l /\
        parsed σ0 σ' tok0 tok' w' (ANode e lbl len kids)
  | Abort => eTree_parseNewickString_getLabel (tok, s) e σ = Abort
  | _ => False
  end.
Proof.
  intros HP. unfold tparse_label, eTree_parseNewickString_getLabel.
  cbn [thead fst]. rewrite (bind_Ok _ _ _ _ _ (parsed_token _ _ _ _ _ _ HP)).
  fold (labelling w). destruct (labelling w).
  - destruct (setLabel_parsed _ _ _ _ _ _ _ _ HP) as (p & σ1 & Hset & HP1).
    rewrite (bind_Ok _ _ _ _ _ Hset).
    pose proof (getNextToken_parsed _ _ _ _ _ _ s HP1) as Hnext.
    destruct (words s) as [|w' ws]; simpl; [done|].
    destruct Hnext as (tok' & s' & σ' & Hn & Hws & HP').
    exists (Some (p, w)), tok', s', σ', w'. by rewrite Hws.
  - exists None, tok, s, σ, w. done.
Qed.

(** [eTree_parseNewickString_getBranchLength] against [tparse_length]. *)
Lemma getBranchLength_sim σ0 σ tok0 tok w s e lbl kids :
  parsed σ0 σ tok0 tok w (ANode e lbl INFINITY kids) ->
  match tparse_length (w :: words s) with
  | Ok (d, toks') =>
      exists tok' s' σ' w',
        eTree_parseNewickString_getBranchLength (tok, s) e σ = Ok ((tok', s'), σ') /\
        toks' = w' :: words s' /\
        parsed σ0 σ' tok0 tok' w' (ANode e lbl d kids)
  | Abort => eTree_parseNewickString_getBranchLength (tok, s) e σ = Abort
  | _ => False
  end.
Proof.
  intros HP. unfold tparse_length, eTree_parseNewickString_getBranchLength.
  cbn [thead fst]. rewrite (bind_Ok _ _ _ _ _ (parsed_token _ _ _ _ _ _ HP)).
  destruct (Ascii.eqb (first_char w) ":").
  - pose proof (getNextToken_parsed _ _ _ _ _ _ s HP) as Hnext.
    destruct (words s) as [|w1 ws]; simpl.
    { by rewrite (bind_Abort _ _ _ Hnext). }
    destruct Hnext as (tok1 & s1 & σ1 & Hn & Hws & HP1).
    rewrite (bind_Ok _ _ _ _ _ Hn). cbn [fst].
    rewrite (bind_Ok _ _ _ _ _ (parsed_token _ _ _ _ _ _ HP1)).
    destruct (sscanf_lf w1) as [d|]; [|done].
    destruct (setBranchLength_parsed _ _ _ _ _ _ _ _ _ d HP1) as (σ2 & Hset & HP2).
    rewrite (bind_Ok _ _ _ _ _ Hset).
    pose proof (getNextToken_parsed _ _ _ _ _ _ s1 HP2) as Hnext2.
    rewrite Hws in Hnext2.
    destruct ws as [|w2 ws2]; simpl; [done|].
    destruct Hnext2 as (tok2 & s2 & σ3 & Hn2 & Hws2 & HP3).
    exists tok2, s2, σ3, w2. by rewrite Hws2.
  - exists tok, s, σ, w. done.
Qed.

Lemma parse_tail_sim σ0 σ tok0 tok w s e kids :
  parsed σ0 σ tok0 tok w (ANode e None INFINITY kids) ->
  sim_parse
    (rbind (tparse_label (w :: words s)) (fun '(l, toks) =>
     rbind (tparse_length toks) (fun '(d, toks) =>
     rbind (rassert (closing (thead toks))) (fun _ =>
     Ok (Node l d (List.map erase kids), toks)))))
    ((let* cur := eTree_parseNewickString_getLabel (tok, s) e in
      let* cur := eTree_parseNewickString_getBranchLength cur e in
      let* w := load_str (fst cur) in
      let c := first_char w in
      assert (Ascii.eqb c "," || Ascii.eqb c ";" || Ascii.eqb c ")");;
      ret (e, cur)) σ)
    σ0 tok0.
Proof.
  intros HP. pose proof (getLabel_sim _ _ _ _ _ s _ _ _ HP) as Hl.
  destruct (tparse_label (w :: words s)) as [[l toks1]| | |]; try done.
  2:{ simpl. by rewrite (bind_Abort _ _ _ Hl). }
  destruct Hl as (lbl & tok1 & s1 & σ1 & w1 & Hgl & -> & <- & HP1).
  rewrite (bind_Ok _ _ _ _ _ Hgl). cbn [rbind].
  pose proof (getBranchLength_sim _ _ _ _ _ s1 _ _ _ HP1) as Hd.
  destruct (tparse_length (w1 :: words s1)) as [[d toks2]| | |]; try done.
  2:{ simpl. by rewrite (bind_Abort _ _ _ Hd). }
  destruct Hd as (tok2 & s2 & σ2 & w2 & Hgd & -> & HP2).
  rewrite (bind_Ok _ _ _ _ _ Hgd). cbn [rbind fst thead].
  rewrite (bind_Ok _ _ _ _ _ (parsed_token _ _ _ _ _ _ HP2)).
  cbv zeta. fold (closing w2). unfold rassert, assert.
  destruct (closing w2); [|done]. simpl.
  exists (ANode e lbl d kids), tok2, s2, σ2, w2. done.
Qed.

Lemma parse_children_S (ph : cursor -> M (loc * cursor)) e k cur :
  parse_children ph e (S k) cur =
    (let* (child, cur) := ph cur in
     eTree_setParent child (Some e);;
     let* w := load_str (fst cur) in
     assert (Nat.eqb (length w) 1);;
     if Ascii.eqb (first_char w) ","
     then
       let* cur := eTree_parseNewickTreeString_getNextToken cur in
       parse_children ph e k cur
     else ret cur).
Proof. reflexivity. Qed.

Lemma parse_children_sim (pp : list cstr -> result (tree * list cstr))
    (ph : cursor -> M (loc * cursor)) :
  (forall σ tok s w, strs σ !! tok = Some w ->
     sim_parse (pp (w :: words s)) (ph (tok, s) σ) σ tok) ->
  forall k σ0 tok0 σ tok s w e kids,
    parsed σ0 σ tok0 tok w (ANode e None INFINITY kids) ->
    sim_children (tparse_children pp k (w :: words s))
      (parse_children ph e k (tok, s) σ) σ0 tok0 e kids.
Proof.
  intros Hp k. induction k as [|k IH]; intros σ0 tok0 σ tok s w e kids HP; [done|].
  rewrite tparse_children_S, parse_children_S.
  pose proof HP as (_ & _ & _ & _ & _ & Hw & _).
  specialize (Hp σ tok s w Hw).
  destruct (pp (w :: words s)) as [[T toks1]| | |]; simpl in Hp.
  - destruct Hp as (t & tok1 & s1 & σ1 & w1 & Hph & -> & <- & HP1).
    rewrite (bind_Ok _ _ _ _ _ Hph). cbv beta iota.
    destruct (attach_parsed _ _ _ _ _ _ _ _ _ _ _ _ _ HP HP1) as (σ2 & Hset & HP2).
    rewrite (bind_Ok _ _ _ _ _ Hset). cbn [fst rbind thead].
    rewrite (bind_Ok _ _ _ _ _ (parsed_token _ _ _ _ _ _ HP2)).
    unfold rassert, assert. unfold bind at 1.
    destruct (Nat.eqb (length w1) 1); [|done]. cbn [rbind].
    destruct (Ascii.eqb (first_char w1) ",").
    + pose proof (getNextToken_parsed _ _ _ _ _ _ s1 HP2) as Hnext.
      destruct (words s1) as [|w2 ws] eqn:Ews; cbn [tnext rbind].
      { by rewrite (bind_Abort _ _ _ Hnext). }
      destruct Hnext as (tok2 & s2 & σ3 & Hn & Hws & HP3).
      rewrite (bind_Ok _ _ _ _ _ Hn). rewrite <- Hws.
      specialize (IH _ _ _ _ s2 _ _ _ HP3).
      destruct (tparse_children pp k (w2 :: words s2)) as [[rest toks']| | |];
        simpl in IH |- *; try done.
      destruct IH as (kids' & tok' & s' & σ' & w' & Hk & -> & <- & HP').
      exists (t :: kids'), tok', s', σ', w'.
      split; [done|]. split; [done|]. split; [done|].
      by rewrite <- app_assoc in HP'.
    + exists [t], tok1, s1, σ2, w1. done.
  - by rewrite (bind_Abort _ _ _ Hp).
  - done.
  - by rewrite (bind_NoFuel _ _ _ Hp).
Qed.

Lemma eTree_parseNewickStringP_S f cur :
  eTree_parseNewickStringP (S f) cur =
    (let* eTree := eTree_construct in
     let* w := load_str (fst cur) in
     let* cur :=
       if Ascii.eqb (first_char w) "("
       then
         assert (Nat.eqb (length w) 1);;
         let* cur := eTree_parseNewickTreeString_getNextToken cur in
         let* cur := parse_children (eTree_parseNewickStringP f) eTree f cur in
         let* w := load_str (fst cur) in
         assert (Ascii.eqb (first_char w) ")");;
         eTree_parseNewickTreeString_getNextToken cur
       else ret cur in
     let* cur := eTree_parseNewickString_getLabel cur eTree in
     let* cur := eTree_parseNewickString_getBranchLength cur eTree in
     let* w := load_str (fst cur) in
     let c := first_char w in
     assert (Ascii.eqb c "," || Ascii.eqb c ";" || Ascii.eqb c ")");;
     ret (eTree, cur)).
Proof. reflexivity. Qed.

(** The parser in memory follows the parser on tokens. *)
Lemma eTree_parseNewickStringP_sim f σ0 tok0 s w :
  strs σ0 !! tok0 = Some w ->
  sim_parse (tparseP f (w :: words s)) (eTree_parseNewickStringP f (tok0, s) σ0) σ0 tok0.
Proof.
  revert σ0 tok0 s w. induction f as [|f IH]; intros σ0 tok0 s w Hw; [done|].
  rewrite tparseP_S, eTree_parseNewickStringP_S.
  rewrite (bind_Ok _ _ _ _ _ (eTree_construct_spec σ0)).
  pose proof (construct_parsed σ0 tok0 w Hw) as HP0. cbv zeta in HP0.
  set (e := fresh (dom (trees σ0))) in *.
  set (σ1 := set_trees _ σ0) in *. cbn [fst thead].
  rewrite (bind_Ok _ _ _ _ _ (parsed_token _ _ _ _ _ _ HP0)).
  destruct (Ascii.eqb (first_char w) "(").
  2:{ cbn [rbind]. rewrite (bind_Ok _ _ σ1 (tok0, s) σ1) by done.
      apply (parse_tail_sim σ0 σ1 tok0 tok0 w s e [] HP0). }
  rewrite !bind_assoc. unfold rassert, assert at 1. unfold bind at 1.
  destruct (Nat.eqb (length w) 1); [|done]. cbn [rbind].
  rewrite !bind_assoc.
  pose proof (getNextToken_parsed _ _ _ _ _ _ s HP0) as Hnext.
  destruct (words s) as [|w1 ws] eqn:Ews; cbn [tnext rbind].
  { by rewrite (bind_Abort _ _ _ Hnext). }
  destruct Hnext as (tok1 & s1 & σ2 & Hn & Hws & HP1).
  rewrite (bind_Ok _ _ _ _ _ Hn), <- Hws. rewrite !bind_assoc.
  pose proof (parse_children_sim (tparseP f) (eTree_parseNewickStringP f)
                (fun σ tok s w Hw => IH σ tok s w Hw) f _ _ _ _ s1 _ _ _ HP1) as Hk.
  destruct (tparse_children (tparseP f) f (w1 :: words s1)) as [[Ts toks2]| | |];
    simpl in Hk; cbn [rbind].
  - destruct Hk as (kids & tok2 & s2 & σ3 & w2 & Hpc & -> & <- & HP2).
    rewrite (bind_Ok _ _ _ _ _ Hpc). rewrite !bind_assoc. cbn [fst thead].
    rewrite (bind_Ok _ _ _ _ _ (parsed_token _ _ _ _ _ _ HP2)).
    rewrite !bind_assoc. unfold rassert, assert at 1. unfold bind at 1.
    destruct (Ascii.eqb (first_char w2) ")"); [|done]. cbn [rbind].
    pose proof (getNextToken_parsed _ _ _ _ _ _ s2 HP2) as Hnext2.
    destruct (words s2) as [|w3 ws3] eqn:Ews2; cbn [tnext rbind].
    { by rewrite (bind_Abort _ _ _ Hnext2). }
    destruct Hnext2 as (tok3 & s3 & σ4 & Hn2 & Hws3 & HP3).
    rewrite (bind_Ok _ _ _ _ _ Hn2), <- Hws3.
    apply (parse_tail_sim σ0 σ4 tok0 tok3 w3 s3 e kids HP3).
  - by rewrite (bind_Abort _ _ _ Hk).
  - done.
  - by rewrite (bind_NoFuel _ _ _ Hk).
Qed.

End Simulation.


(** ** Reading a tree out of memory *)

Lemma all_some_Forall2 {A B} (g : A -> option B) l r :
  all_some (List.map g l) = Some r <-> Forall2 (fun a b => g a = Some b) l r.
Proof.
  revert r. induction l as [|a l IH]; intros r; simpl.
  - split; [by intros [= <-]; constructor|by intros ->%Forall2_nil_inv_l].
  - destruct (g a) as [b|] eqn:Eg.
    + destruct (all_some (List.map g l)) as [r'|] eqn:Er.
      * split.
        -- intros [= <-]. constructor; [done|]. by apply IH.
        -- intros (b' & r'' & Hb & Hr & ->)%Forall2_cons_inv_l.
           apply IH in Hr. congruence.
      * split; [done|].
        intros (b' & r'' & Hb & Hr & ->)%Forall2_cons_inv_l.
        apply IH in Hr. done.
    + split; [done|].
      intros (b' & r'' & Hb & Hr & ->)%Forall2_cons_inv_l. congruence.
Qed.

Lemma Forall2_impl_in {A B} (P Q : A -> B -> Prop) l r :
  Forall2 P l r -> (forall a b, b ∈ r -> P a b -> Q a b) -> Forall2 Q l r.
Proof.
  induction 1 as [|a b l r Hab Hlr IH]; intros HPQ; constructor.
  - apply HPQ; [apply list_elem_of_here|done].
  - apply IH. intros a' b' Hb'. apply HPQ. by apply list_elem_of_further.
Qed.

Lemma read_tree_S f σ r :
  read_tree (S f) σ r =
    match trees σ !! r with
    | None => None
    | Some N =>
        match
          (match label N with
           | None => Some None
           | Some p => match strs σ !! p with Some s => Some (Some s) | None => None end
           end),
          all_some (List.map (read_child f σ r) (nodes N))
        with
        | Some l, Some kids => Some (Node l (branchLength N) kids)
        | _, _ => None
        end
    end.
Proof. reflexivity. Qed.

Lemma read_tree_inv f σ r l d kids :
  read_tree (S f) σ r = Some (Node l d kids) ->
  exists N, trees σ !! r = Some N /\ branchLength N = d /\
    match label N with
    | None => l = None
    | Some p => exists s, strs σ !! p = Some s /\ l = Some s
    end /\
    Forall2 (fun c k => read_child f σ r c = Some k) (nodes N) kids.
Proof.
  rewrite read_tree_S. destruct (trees σ !! r) as [N|]; [|done].
  destruct (all_some _) as [kids'|] eqn:Ek.
  2:{ by destruct (label N) as [p|]; [destruct (strs σ !! p)|]. }
  apply all_some_Forall2 in Ek. intros Hr. exists N. split; [done|].
  destruct (label N) as [p|].
  - destruct (strs σ !! p) as [s|]; [|done]. injection Hr as <- <- <-. eauto.
  - injection Hr as <- <- <-. done.
Qed.

Lemma read_child_inv f σ r c k :
  read_child f σ r c = Some k -> read_tree f σ c = Some k.
Proof.
  unfold read_child. destruct (trees σ !! c) as [C|]; [|done].
  by destruct (decide (parent C = Some r)).
Qed.

Lemma height_eq l d kids :
  height (Node l d kids) = S (list_max (List.map height kids)).
Proof. reflexivity. Qed.

Lemma list_max_le_elem (l : list nat) x : In x l -> (x <= list_max l)%nat.
Proof.
  induction l as [|y l IH]; [done|]. simpl. intros [->|Hx]; [lia|].
  specialize (IH Hx). lia.
Qed.

Lemma repr_read_tree σ par t f :
  repr σ par t -> (height (erase t) <= f)%nat ->
  read_tree f σ (aroot t) = Some (erase t).
Proof.
  revert par f. induction t as [a lbl len kids IH] using atree_ind'.
  intros par f. rewrite repr_eq, erase_eq, height_eq. intros (Ha & Hl & Hk) Hf.
  destruct f as [|f]; [lia|]. simpl aroot. rewrite read_tree_S, Ha. simpl.
  assert (Hkids : all_some (List.map (read_child f σ a) (List.map aroot kids)) =
                  Some (List.map erase kids)).
  { apply all_some_Forall2. apply Forall2_fmap_l, Forall2_fmap_r.
    apply Forall_Forall2_diag. rewrite Forall_forall in IH, Hk.
    apply Forall_forall. intros k Hkin.
    pose proof (Hk k Hkin) as Hrk. unfold read_child, compose.
    assert (Hroot : exists N, trees σ !! aroot k = Some N /\ parent N = Some a).
    { destruct k as [b bl bd bk]. apply repr_eq in Hrk as (Hb & _). simpl. eauto. }
    destruct Hroot as (N & -> & ->). rewrite decide_True by done.
    apply (IH k Hkin (Some a)); [done|].
    assert (height (erase k) <= list_max (List.map height (List.map erase kids)))%nat.
    { apply list_max_le_elem, in_map, in_map. by apply list_elem_of_In. }
    lia. }
  rewrite Hkids. destruct lbl as [[p s]|]; simpl; [by rewrite Hl|done].
Qed.

(** ** The writer *)

Section Writer.
Context `{Libc}.

Lemma write_children_spec (wp : loc -> M cstr) σ r N :
  trees σ !! r = Some N ->
  forall rest pre ws fuel cA,
    nodes N = pre ++ rest ->
    Forall2 (fun c w => wp c σ = Ok (w, σ)) rest ws ->
    (length rest <= fuel)%nat ->
    write_children wp r fuel (Z.of_nat (length pre)) cA σ =
      Ok (cA ++ join_comma ws, σ).
Proof.
  intros HN rest. induction rest as [|c rest IH]; intros pre ws fuel cA Hn Hw Hf.
  - apply Forall2_nil_inv_l in Hw as ->. rewrite app_nil_r in Hn.
    destruct fuel; simpl;
      rewrite (bind_Ok _ _ _ _ _ (eTree_getChildNumber_Ok _ _ _ HN)), Hn;
      (destruct (Z.ltb_spec (Z.of_nat (length pre)) (Z.of_nat (length pre))); [lia|]);
      by rewrite app_nil_r.
  - apply Forall2_cons_inv_l in Hw as (w & ws' & Hc & Hw & ->).
    destruct fuel as [|fuel]; [simpl in Hf; lia|]. simpl in Hf.
    assert (Hlen : length (nodes N) = (length pre + S (length rest))%nat).
    { rewrite Hn, length_app. done. }
    change (write_children wp r (S fuel) ?i cA) with
      (let* n := eTree_getChildNumber r in
       if i <? n then
         let* child := eTree_getChild r i in
         let* cA2 := wp child in
         let* n := eTree_getChildNumber r in
         let cA3 := if i + 1 <? n then cA ++ cA2 ++ cs "," else cA ++ cA2 in
         write_children wp r fuel (i + 1) cA3
       else ret cA).
    rewrite (bind_Ok _ _ _ _ _ (eTree_getChildNumber_Ok _ _ _ HN)).
    destruct (Z.ltb_spec (Z.of_nat (length pre)) (Z.of_nat (length (nodes N)))); [|lia].
    rewrite (bind_Ok _ _ _ _ _ (eTree_getChild_Ok σ r N (length pre) c HN
               ltac:(rewrite Hn, nth_error_app2, Nat.sub_diag by lia; done))).
    rewrite (bind_Ok _ _ _ _ _ Hc).
    rewrite (bind_Ok _ _ _ _ _ (eTree_getChildNumber_Ok _ _ _ HN)). cbv zeta.
    replace (Z.of_nat (length pre) + 1) with (Z.of_nat (length (pre ++ [c])))
      by (rewrite length_app; simpl; lia).
    destruct rest as [|c' rest].
    + apply Forall2_nil_inv_l in Hw as ->.
      destruct (Z.ltb_spec (Z.of_nat (length (pre ++ [c]))) (Z.of_nat (length (nodes N)))).
      { rewrite length_app in *. simpl in *. lia. }
      rewrite (IH (pre ++ [c]) [] fuel (cA ++ w)); [|by rewrite <- app_assoc|done|simpl; lia].
      simpl. by rewrite app_nil_r.
    + destruct (Z.ltb_spec (Z.of_nat (length (pre ++ [c]))) (Z.of_nat (length (nodes N)))).
      2:{ rewrite length_app in *. simpl in *. lia. }
      rewrite (IH (pre ++ [c]) ws' fuel (cA ++ w ++ cs ","));
        [|by rewrite <- app_assoc|done|simpl in *; lia].
      apply Forall2_cons_inv_l in Hw as (w' & ws'' & _ & _ & ->).
      simpl. by rewrite <- !app_assoc.
Qed.

Lemma eTree_getNewickTreeStringP_S f r :
  eTree_getNewickTreeStringP (S f) r =
    (let* n := eTree_getChildNumber r in
     let* cA :=
       if 0 <? n
       then
         let* cA := write_children (eTree_getNewickTreeStringP f) r
                      (Z.to_nat n) 0 (cs "(") in
         ret (cA ++ cs ")")
       else ret [] in
     let* l := eTree_getLabel r in
     let* cA :=
       match l with
       | Some p => let* s := load_str p in ret (cA ++ s)
       | None => ret cA
       end in
     let* d := eTree_getBranchLength r in
     if double_ne d INFINITY
     then ret (cA ++ cs ":" ++ printf_f d)
     else ret cA).
Proof. reflexivity. Qed.

(** The writer produces [write_tree] of the tree it finds. *)
Lemma eTree_getNewickTreeStringP_spec f σ r T :
  read_tree f σ r = Some T ->
  forall f', (height T <= f')%nat ->
    eTree_getNewickTreeStringP f' r σ = Ok (write_tree T, σ).
Proof.
  revert r T. induction f as [|f IH]; intros r [l d kids] Hr f' Hf'; [done|].
  apply read_tree_inv in Hr as (N & HN & Hd & Hl & Hk).
  rewrite height_eq in Hf'. destruct f' as [|f']; [lia|].
  rewrite eTree_getNewickTreeStringP_S, write_tree_eq.
  rewrite (bind_Ok _ _ _ _ _ (eTree_getChildNumber_Ok _ _ _ HN)).
  assert (Hkids : Forall2 (fun c w => eTree_getNewickTreeStringP f' c σ = Ok (w, σ))
                    (nodes N) (List.map write_tree kids)).
  { apply Forall2_fmap_r. eapply Forall2_impl_in; [done|].
    intros c k Hkin Hck. apply (IH c k); [by apply read_child_inv in Hck|].
    assert (height k <= list_max (List.map height kids))%nat.
    { apply list_max_le_elem, in_map. by apply list_elem_of_In. }
    lia. }
  assert (Hbody :
    (if 0 <? Z.of_nat (length (nodes N))
     then
       let* cA := write_children (eTree_getNewickTreeStringP f') r
                    (Z.to_nat (Z.of_nat (length (nodes N)))) 0 (cs "(") in
       ret (cA ++ cs ")")
     else ret []) σ = Ok (write_kids (List.map write_tree kids), σ)).
  { pose proof (Forall2_length _ _ _ Hkids) as Hlen. rewrite length_map in Hlen.
    destruct (Z.ltb_spec 0 (Z.of_nat (length (nodes N)))).
    - rewrite (bind_Ok _ _ _ _ _
        (write_children_spec _ σ r N HN (nodes N) [] _
           (Z.to_nat (Z.of_nat (length (nodes N)))) (cs "(") eq_refl Hkids
           ltac:(rewrite Nat2Z.id; lia))).
      destruct kids as [|k kids]; [simpl in Hlen; lia|].
      unfold write_kids. simpl List.map. by rewrite <- app_assoc.
    - destruct kids as [|k kids]; [done|]. simpl in Hlen. lia. }
  rewrite (bind_Ok _ _ _ _ _ Hbody).
  unfold eTree_getLabel. rewrite !bind_assoc.
  rewrite (bind_Ok _ _ _ _ _ (load_Ok _ _ _ HN)).
  rewrite (bind_Ok _ _ σ (label N) σ) by done.
  assert (Hlab :
    (match label N with
     | Some p => let* s := load_str p in ret (write_kids (List.map write_tree kids) ++ s)
     | None => ret (write_kids (List.map write_tree kids))
     end) σ = Ok (write_kids (List.map write_tree kids) ++ write_label l, σ)).
  { destruct (label N) as [p|].
    - destruct Hl as (s & Hs & ->). by rewrite (bind_Ok _ _ _ _ _ (load_str_Ok _ _ _ Hs)).
    - subst l. simpl. by rewrite app_nil_r. }
  rewrite (bind_Ok _ _ _ _ _ Hlab).
  rewrite (bind_Ok _ _ _ _ _ (eTree_getBranchLength_Ok _ _ _ HN)).
  rewrite Hd. unfold write_length.
  destruct (double_ne d INFINITY); unfold ret; [by rewrite <- app_assoc|].
  by rewrite !app_nil_r.
Qed.

End Writer.


(** ** The whole parser *)

Lemma span_word_length s : (length (snd (span_word s)) <= length s)%nat.
Proof.
  induction s as [|c s IH]; [done|]. rewrite span_word_cons.
  destruct (isspace c); simpl; lia.
Qed.

Lemma length_words s : (length (words s) <= length s)%nat.
Proof.
  remember (length s) as n eqn:Hn. assert (Hle : (length s <= n)%nat) by lia.
  clear Hn. revert s Hle. induction n as [|n IH]; intros s Hle.
  - destruct s; [simpl; lia|simpl in Hle; lia].
  - destruct s as [|c s]; [simpl; lia|]. simpl in Hle.
    destruct (isspace c) eqn:Ec.
    + change (words (c :: s)) with (if isspace c then words s else
        match s with
        | [] => [[c]]
        | d :: _ => if isspace d then [c] :: words s
                    else match words s with w :: ws => (c :: w) :: ws | [] => [[c]] end
        end). rewrite Ec. specialize (IH s ltac:(lia)). lia.
    + rewrite (words_span c s Ec). simpl.
      pose proof (span_word_length s).
      specialize (IH (snd (span_word s)) ltac:(lia)). lia.
Qed.

Section Whole.
Context `{Libc}.

(** What [eTree_parseNewickString] returns, from the tokens of its
    argument. *)
Lemma eTree_parseNewickString_spec string σ :
  match words (spaced string) with
  | [] => eTree_parseNewickString string σ = Abort
  | w :: ws =>
      match tparseP (S (length (spaced string))) (w :: ws) with
      | Ok (T, toks') =>
          if Ascii.eqb (first_char (thead toks')) ";"
          then
            exists t σ',
              eTree_parseNewickString string σ = Ok (aroot t, σ') /\
              erase t = T /\ repr σ' None t /\
              (forall x, x ∈ dom (trees σ) -> trees σ' !! x = trees σ !! x) /\
              (forall p, p ∈ dom (strs σ) -> strs σ' !! p = strs σ !! p)
          else eTree_parseNewickString string σ = Abort
      | _ => eTree_parseNewickString string σ = Abort
      end
  end.
Proof.
  unfold eTree_parseNewickString. cbv zeta.
  pose proof (string_getNextWord_spec (spaced string) σ) as Hfirst.
  pose proof (length_words (spaced string)) as Hlen.
  destruct (words (spaced string)) as [|w ws] eqn:Ew.
  { destruct Hfirst as [r Hfirst]. by rewrite (bind_Ok _ _ _ _ _ Hfirst). }
  destruct Hfirst as (s & Hs & Hfirst). rewrite (bind_Ok _ _ _ _ _ Hfirst).
  set (tok := fresh (dom (strs σ))) in *.
  set (σ1 := set_strs (<[tok := w]> (strs σ)) σ) in *.
  assert (Hw : strs σ1 !! tok = Some w) by (simpl; by rewrite lookup_insert_eq).
  pose proof (eTree_parseNewickStringP_sim (S (length (spaced string))) σ1 tok s w Hw) as Hsim.
  rewrite Hs in Hsim.
  pose proof (tparseP_fuel (length (spaced string)) (w :: ws) Hlen) as Hfuel.
  pose proof (tparseP_no_fault (S (length (spaced string))) (w :: ws)) as Hfault.
  set (F := S (length (spaced string))) in *.
  destruct (tparseP F (w :: ws)) as [[T toks']| | |]; try done.
  2:{ simpl in Hsim. by rewrite (bind_Abort _ _ _ Hsim). }
  simpl in Hsim.
  destruct Hsim as (t & tok' & s' & σ' & w' & Hp & -> & <- & HP).
  rewrite (bind_Ok _ _ _ _ _ Hp). cbn [fst thead].
  rewrite (bind_Ok _ _ _ _ _ (parsed_token _ _ _ _ _ _ HP)).
  unfold assert at 1. unfold bind at 1.
  destruct (Ascii.eqb (first_char w') ";"); [|done].
  destruct HP as (Hr & Hnd & N1 & F1 & F2 & Hw' & Htok & Hlab).
  assert (Hfree : free tok' σ' = Ok (tt, set_strs (delete tok' (strs σ')) σ')).
  { unfold free. by rewrite Hw'. }
  rewrite (bind_Ok _ _ _ _ _ Hfree).
  exists t, (set_strs (delete tok' (strs σ')) σ').
  split; [done|]. split; [done|]. split; [|split].
  - eapply repr_frame; [done|done|]. intros p Hp'. simpl.
    rewrite lookup_delete_ne; [done|]. by intros <-.
  - intros x Hx. simpl. by apply F1.
  - intros p Hp'. simpl.
    assert (Hpt : p <> tok).
    { intros ->. by apply (is_fresh (dom (strs σ))). }
    assert (Hp1 : p ∈ dom (strs σ1)).
    { subst σ1. simpl. rewrite dom_insert_L. set_solver. }
    rewrite lookup_delete_ne.
    + rewrite (F2 p Hp1 Hpt). subst σ1. simpl. by rewrite lookup_insert_ne.
    + intros <-. apply Hpt, Htok.
      apply elem_of_dom. rewrite <- (F2 tok' Hp1 Hpt). by rewrite Hw'.
Qed.


(** What a successful run has read and built. *)
Lemma eTree_parseNewickString_inv string σ r σ' :
  eTree_parseNewickString string σ = Ok (r, σ') ->
  exists T pre rest,
    words (spaced string) = pre ++ cs ";" :: rest /\
    subtree T pre /\
    (forall w, w ∈ tree_labels T -> w ∈ pre) /\
    tree_at σ' r T /\
    (exists N, trees σ' !! r = Some N /\ parent N = None).
Proof.
  intros Hok. pose proof (eTree_parseNewickString_spec string σ) as Hs.
  pose proof (tokens_ok string) as Htok.
  destruct (words (spaced string)) as [|w ws]; [congruence|].
  destruct (tparseP _ _) as [[T toks']| | |] eqn:Ep; try congruence.
  destruct (Ascii.eqb _ _) eqn:Esemi; [|congruence].
  destruct Hs as (t & σ2 & Hp & <- & Hr & _).
  rewrite Hok in Hp. injection Hp as -> ->.
  apply tparseP_inv in Ep as (pre & Hpre & Hcl & Hlab & Hsub).
  destruct toks' as [|x rest]; [done|].
  assert (Hx : token_ok x).
  { rewrite Hpre in Htok. apply Forall_app_r in Htok.
    by apply Forall_cons in Htok as [? _]. }
  simpl in Esemi.
  rewrite (token_ok_structural x ";" Hx (first_char_eqb _ _ Esemi) eq_refl) in Hpre.
  exists (erase t), pre, rest. split; [done|]. split; [by apply Hsub|].
  split; [done|]. split.
  - exists (height (erase t)). by apply (repr_read_tree σ2 None).
  - destruct t as [a lbl len kids]. apply repr_eq in Hr as (Ha & _). simpl. eauto.
Qed.


End Whole.


(** ** Decidable forms *)

Lemma cleanb_sound w : cleanb w = true -> clean w.
Proof.
  destruct w as [|c w]; [done|]. unfold cleanb. intros Hf.
  split; [done|]. intros x Hx.
  rewrite forallb_forall in Hf. specialize (Hf x (proj1 (list_elem_of_In _ _) Hx)).
  apply andb_prop in Hf as [H1 H2].
  by apply negb_true_iff in H1, H2.
Qed.

Lemma readableb_sound `{Libc} t : readableb t = true -> readable t.
Proof.
  induction t as [l d kids IH] using tree_ind'. simpl.
  intros [[Hl Hd]%andb_prop Hk]%andb_prop. split; [|split].
  - destruct l as [s|]; [by apply cleanb_sound|done].
  - intros Hne. rewrite Hne in Hd. apply andb_prop in Hd as [Hc Hs].
    split; [by apply cleanb_sound|].
    destruct (sscanf_lf (printf_f d)) as [d'|]; [eauto|done].
  - rewrite forallb_forall in Hk. rewrite Forall_forall in IH.
    assert (Hall : forall k, In k kids -> readable k).
    { intros k Hkin. apply IH; [by apply list_elem_of_In|by apply Hk]. }
    clear -Hall. induction kids as [|k kids IHk]; [done|]. split.
    + apply Hall. by left.
    + apply IHk. intros k' Hk'. apply Hall. by right.
Qed.

(** ** The sentinel *)

Lemma double_ne_INFINITY d : double_ne d INFINITY = false <-> d = INFINITY.
Proof.
  unfold double_ne, INFINITY. split.
  - intros Hd. apply negb_false_iff in Hd.
    destruct d as [s|s| |s m e]; try (by destruct s); done.
  - by intros ->.
Qed.


(** ** The claims *)




(** C4. The text ["(A:1,B:2,(C:3,D:4):5);"] is read as a root with
    three children in order: the leaves A (length 1) and B (length 2)
    and a node of length 5 with the leaves C (length 3) and D (length
    4); the tree is written as
    ["(A:1.000000,B:2.000000,(C:3.000000,D:4.000000):5.000000);"],
    which is read as the same tree. *)
Theorem parse_example :
  exists r σ,
    @eTree_parseNewickString Glibc.libc example_text empty_mem = Ok (r, σ) /\
    read_tree 3 σ r = Some example_tree /\
    exists s,
      @eTree_getNewickTreeString Glibc.libc 3 r σ = Ok (s, σ) /\
      s = cs "(A:1.000000,B:2.000000,(C:3.000000,D:4.000000):5.000000);" /\
      exists r' σ',
        @eTree_parseNewickString Glibc.libc s σ = Ok (r', σ') /\
        read_tree 3 σ' r' = Some example_tree.
Proof.
  eexists _, _. split; [vm_compute; reflexivity|].
  split; [vm_compute; reflexivity|].
  eexists. split; [vm_compute; reflexivity|]. split; [reflexivity|].
  eexists _, _. split; vm_compute; reflexivity.
Qed.


Lemma guarded_reparent_acyclic_witness :
  reachable_guarded ∅ two_node_mem /\
  acyclic (trees two_node_mem) /\
  (forall n p q P Q, trees two_node_mem !! p = Some P -> trees two_node_mem !! q = Some Q ->
     n ∈ nodes P -> n ∈ nodes Q -> p = q).
Proof.
  assert (Hr : reachable_guarded ∅ two_node_mem).
  { eapply (greach_op ∅ (SetParent 1%positive (Some 2%positive))).
    - eapply (greach_op ∅ Construct).
      + eapply (greach_op ∅ Construct); [apply greach_init|exact I|].
        vm_compute. reflexivity.
      + exact I.
      + vm_compute. reflexivity.
    - split; [discriminate|]. intros [k Hk]. vm_compute in Hk. discriminate.
    - vm_compute. reflexivity. }
  split; [exact Hr|]. exact (guarded_reparent_acyclic ∅ two_node_mem Hr).
Defined.

Lemma eTree_getChild_range_witness :
  eTree_getChildNumber 2%positive two_node_mem = Ok (1, two_node_mem) /\
  (0 <= 0 < 1 ->
     exists N c, trees two_node_mem !! 2%positive = Some N /\
       nth_error (nodes N) (Z.to_nat 0) = Some c /\
       eTree_getChild 2%positive 0 two_node_mem = Ok (c, two_node_mem)).
Proof.
  assert (Hn : eTree_getChildNumber 2%positive two_node_mem = Ok (1, two_node_mem)).
  { vm_compute. reflexivity. }
  split; [exact Hn|].
  exact (proj1 (eTree_getChild_range two_node_mem 2%positive 1 0 Hn)).
Defined.

(** C5. A new node has branch length [INFINITY], which differs from
    zero; [!= INFINITY] is false for [INFINITY] alone; the writer
    follows the text of the children and of the label with [":"] and
    the ["%f"] text of the length exactly when the length is not
    [INFINITY]. *)
Theorem unset_branch_length `{Libc} :
  (forall σ, exists e σ',
     eTree_construct σ = Ok (e, σ') /\
     eTree_getBranchLength e σ' = Ok (INFINITY, σ')) /\
  double_ne INFINITY zero = true /\ INFINITY <> zero /\
  (forall d, double_ne d INFINITY = false <-> d = INFINITY) /\
  (forall σ r l d kids fuel,
     tree_at σ r (Node l d kids) -> (height (Node l d kids) <= fuel)%nat ->
     eTree_getNewickTreeStringP fuel r σ =
       Ok ((write_kids (List.map write_tree kids) ++ write_label l)
             ++ (if double_ne d INFINITY then cs ":" ++ printf_f d else []), σ)).
Proof.
  split; [|split; [done|split; [done|split; [apply double_ne_INFINITY|]]]].
  - intros σ. eexists _, _. split; [apply eTree_construct_spec|].
    apply (eTree_getBranchLength_Ok _ _ (mkETree INFINITY [] None None)).
    simpl. by rewrite lookup_insert_eq.
  - intros σ r l d kids fuel [f Hf] Hfuel.
    rewrite (eTree_getNewickTreeStringP_spec f σ r _ Hf fuel Hfuel).
    by rewrite write_tree_eq, <- app_assoc.
Qed.

Lemma unset_branch_length_witness :
  tree_at example_mem 1%positive example_tree /\
  @eTree_getNewickTreeStringP Glibc.libc 3 1%positive example_mem =
    Ok ((@write_kids
           (List.map (@write_tree Glibc.libc) (tree_kids example_tree))
           ++ write_label None)
          ++ (if double_ne INFINITY INFINITY
              then cs ":" ++ Glibc.print_f INFINITY else []), example_mem).
Proof.
  assert (H1 : tree_at example_mem 1%positive example_tree).
  { exists 3%nat. vm_compute. reflexivity. }
  split; [exact H1|].
  refine (proj2 (proj2 (proj2 (proj2 (@unset_branch_length Glibc.libc))))
            example_mem 1%positive None INFINITY _ 3%nat H1 _).
  vm_compute. lia.
Defined.




(** ** Labels read by the parser *)

Lemma eTree_parseNewickString_getLabel_spec σ tok s e N w :
  strs σ !! tok = Some w -> trees σ !! e = Some N -> label N = None ->
  if labelling w
  then
    match words s with
    | [] => eTree_parseNewickString_getLabel (tok, s) e σ = Abort
    | w' :: ws =>
        exists tok' s' σ' p,
          eTree_parseNewickString_getLabel (tok, s) e σ = Ok ((tok', s'), σ') /\
          words s' = ws /\ strs σ' !! tok' = Some w' /\
          trees σ' !! e = Some (mkETree (branchLength N) (nodes N) (Some p) (parent N)) /\
          strs σ' !! p = Some w
    end
  else eTree_parseNewickString_getLabel (tok, s) e σ = Ok ((tok, s), σ).
Proof.
  intros Htok HN Hlab. unfold eTree_parseNewickString_getLabel. cbn [fst].
  rewrite (bind_Ok _ _ _ _ _ (load_str_Ok _ _ _ Htok)).
  fold (labelling w). destruct (labelling w); [|done].
  destruct (eTree_setLabel_copy σ e N tok w HN Htok) as (Hset & Hp & Hlive).
  { by rewrite Hlab. }
  rewrite Hlab in Hset, Hp, Hlive. cbv zeta in Hset, Hp.
  set (p := fresh (dom (strs σ))) in *.
  rewrite (bind_Ok _ _ _ _ _ Hset).
  unfold eTree_parseNewickTreeString_getNextToken. cbn [fst snd].
  set (σ1 := mkMem _ (<[p := w]> (strs σ))).
  assert (Hfree : free tok σ1 = Ok (tt, set_strs (delete tok (strs σ1)) σ1)).
  { unfold free. subst σ1. simpl. by rewrite lookup_insert_ne, Htok. }
  rewrite (bind_Ok _ _ _ _ _ Hfree).
  set (σ2 := set_strs (delete tok (strs σ1)) σ1).
  pose proof (string_getNextWord_spec s σ2) as Hnext.
  destruct (words s) as [|w' ws].
  - destruct Hnext as [r Hnext]. by rewrite (bind_Ok _ _ _ _ _ Hnext).
  - destruct Hnext as (r & Hr & Hnext). rewrite (bind_Ok _ _ _ _ _ Hnext).
    set (tok' := fresh (dom (strs σ2))).
    exists tok', r, (set_strs (<[tok' := w']> (strs σ2)) σ2), p.
    split; [done|]. split; [done|]. split; [simpl; by rewrite lookup_insert_eq|].
    split; [simpl; by rewrite lookup_insert_eq|].
    assert (Hp2 : strs σ2 !! p = Some w).
    { subst σ2 σ1. simpl. rewrite lookup_delete_ne by done. by rewrite lookup_insert_eq. }
    simpl. rewrite lookup_insert_ne; [done|].
    intros Heq. apply (is_fresh (dom (strs σ2))). fold tok'. rewrite Heq.
    by apply elem_of_dom_2 in Hp2.
Qed.

(** C8. When the current token does not begin with one of [: , ; )],
    [eTree_parseNewickString_getLabel] makes a copy of it the label of
    the node and moves to the next token; otherwise it changes nothing.
    In a tree returned by the parser the labels are tokens of the text
    (the grammar places them after the children, or first in a bare
    node), so none is empty or holds white space; a node without label
    token has label NULL. *)
Theorem label_rule `{Libc} :
  (forall σ tok s e N w,
     strs σ !! tok = Some w -> trees σ !! e = Some N -> label N = None ->
     if labelling w
     then
       match words s with
       | [] => eTree_parseNewickString_getLabel (tok, s) e σ = Abort
       | w' :: ws =>
           exists tok' s' σ' p,
             eTree_parseNewickString_getLabel (tok, s) e σ = Ok ((tok', s'), σ') /\
             words s' = ws /\ strs σ' !! tok' = Some w' /\
             trees σ' !! e = Some (mkETree (branchLength N) (nodes N) (Some p) (parent N)) /\
             strs σ' !! p = Some w
       end
     else eTree_parseNewickString_getLabel (tok, s) e σ = Ok ((tok, s), σ)) /\
  (forall string σ r σ',
     eTree_parseNewickString string σ = Ok (r, σ') ->
     exists T pre rest,
       words (spaced string) = pre ++ cs ";" :: rest /\
       subtree T pre /\ tree_at σ' r T /\ labels_proper T).
Proof.
  split; [apply eTree_parseNewickString_getLabel_spec|].
  intros string σ r σ' Hok.
  apply eTree_parseNewickString_inv in Hok as (T & pre & rest & Hw & Hsub & Hlab & Ht & _).
  exists T, pre, rest. split; [done|]. split; [done|]. split; [done|].
  intros s Hs. apply (words_proper (spaced string)). rewrite Hw.
  apply elem_of_app. left. by apply Hlab.
Qed.

Lemma label_rule_witness :
  strs word_mem !! 1%positive = Some (cs "A") /\
  (exists tok' s' σ' p,
     eTree_parseNewickString_getLabel (1%positive, cs " ;") 1%positive word_mem =
       Ok ((tok', s'), σ') /\
     words s' = [] /\ strs σ' !! tok' = Some (cs ";") /\
     trees σ' !! 1%positive = Some (mkETree INFINITY [] (Some p) None) /\
     strs σ' !! p = Some (cs "A")) /\
  exists T pre rest,
    words (spaced example_text) = pre ++ cs ";" :: rest /\
    @subtree Glibc.libc T pre /\ tree_at example_mem 1%positive T /\ labels_proper T.
Proof.
  assert (H1 : strs word_mem !! 1%positive = Some (cs "A")) by (vm_compute; reflexivity).
  assert (H2 : trees word_mem !! 1%positive = Some (mkETree INFINITY [] None None))
    by (vm_compute; reflexivity).
  assert (H3 : @eTree_parseNewickString Glibc.libc example_text empty_mem =
               Ok (1%positive, example_mem)) by (vm_compute; reflexivity).
  split; [exact H1|]. split.
  - exact (proj1 (@label_rule Glibc.libc) word_mem 1%positive (cs " ;") 1%positive
             _ (cs "A") H1 H2 eq_refl).
  - exact (proj2 (@label_rule Glibc.libc) example_text empty_mem 1%positive example_mem H3).
Defined.

(** C10. [eTree_setBranchLength] stores any double, unchecked; storing
    [INFINITY] in a node that holds [INFINITY] (a new node, for one)
    leaves the memory as it is, and after storing [INFINITY] the writer
    ends the text of the node with its label. *)
Theorem setBranchLength_sentinel `{Libc} :
  (forall σ e N d, trees σ !! e = Some N ->
     exists σ', eTree_setBranchLength e d σ = Ok (tt, σ') /\
       eTree_getBranchLength e σ' = Ok (d, σ')) /\
  (forall σ e σ1, eTree_construct σ = Ok (e, σ1) ->
     eTree_setBranchLength e INFINITY σ1 = Ok (tt, σ1)) /\
  (forall σ e N, trees σ !! e = Some N -> branchLength N = INFINITY ->
     eTree_setBranchLength e INFINITY σ = Ok (tt, σ)) /\
  (forall σ e σ' T fuel,
     eTree_setBranchLength e INFINITY σ = Ok (tt, σ') ->
     tree_at σ' e T -> (height T <= fuel)%nat ->
     eTree_getNewickTreeStringP fuel e σ' =
       Ok (write_kids (List.map write_tree (tree_kids T)) ++ write_label (tree_label T), σ')).
Proof.
  split; [|split; [|split]].
  - intros σ e N d HN. eexists. split; [by apply (eTree_setBranchLength_Ok _ _ N)|].
    apply (eTree_getBranchLength_Ok _ _ (mkETree d (nodes N) (label N) (parent N))).
    simpl. by rewrite lookup_insert_eq.
  - intros σ e σ1 Hc. rewrite eTree_construct_spec in Hc. injection Hc as <- <-.
    apply (eTree_setBranchLength_same _ _ (mkETree INFINITY [] None None)).
    simpl. by rewrite lookup_insert_eq.
  - intros σ e N HN Hinf. rewrite <- Hinf. by apply eTree_setBranchLength_same.
  - intros σ e σ' [l d kids] fuel Hset [f Hf] Hfuel.
    apply eTree_setBranchLength_inv in Hset as (N & HN & ->).
    rewrite (eTree_getNewickTreeStringP_spec f _ e _ Hf fuel Hfuel).
    destruct f as [|f]; [done|].
    apply read_tree_inv in Hf as (N' & HN' & Hd & _).
    simpl in HN'. rewrite lookup_insert_eq in HN'. injection HN' as <-.
    simpl in Hd. subst d. rewrite write_tree_eq. unfold write_length. simpl.
    by rewrite app_nil_r.
Qed.

Lemma setBranchLength_sentinel_witness :
  trees example_mem !! 2%positive = Some (mkETree (Glibc.of_Z 1) [] (Some 2%positive) (Some 1%positive)) /\
  (exists σ', eTree_setBranchLength 2%positive S754_nan example_mem = Ok (tt, σ') /\
     eTree_getBranchLength 2%positive σ' = Ok (S754_nan, σ')) /\
  eTree_construct empty_mem =
    Ok (1%positive, mkMem {[1%positive := mkETree INFINITY [] None None]} ∅) /\
  eTree_setBranchLength 1%positive INFINITY
    (mkMem {[1%positive := mkETree INFINITY [] None None]} ∅) =
    Ok (tt, mkMem {[1%positive := mkETree INFINITY [] None None]} ∅).
Proof.
  assert (H1 : trees example_mem !! 2%positive =
               Some (mkETree (Glibc.of_Z 1) [] (Some 2%positive) (Some 1%positive)))
    by (vm_compute; reflexivity).
  assert (H2 : eTree_construct empty_mem =
               Ok (1%positive, mkMem {[1%positive := mkETree INFINITY [] None None]} ∅))
    by (vm_compute; reflexivity).
  split; [exact H1|]. split.
  - exact (proj1 (@setBranchLength_sentinel Glibc.libc) example_mem 2%positive _ S754_nan H1).
  - split; [exact H2|].
    exact (proj1 (proj2 (@setBranchLength_sentinel Glibc.libc)) empty_mem 1%positive _ H2).
Defined.


(** * Further properties of the tree interface *)

Lemma mem_eq σ σ' : trees σ' = trees σ -> strs σ' = strs σ -> σ' = σ.
Proof. destruct σ, σ'. simpl. by intros -> ->. Qed.

Lemma listRemove_app_last l n : n ∉ l -> listRemove (l ++ [n]) n = l.
Proof.
  induction l as [|x l IH]; simpl; intros Hn.
  - by rewrite Pos.eqb_refl.
  - apply not_elem_of_cons in Hn as [Hx Hn].
    destruct (Pos.eqb_spec x n) as [->|_]; [done|]. by rewrite IH.
Qed.

Lemma listRemove_length l n : n ∈ l -> S (length (listRemove l n)) = length l.
Proof.
  induction l as [|x l IH]; simpl; intros Hn; [by apply elem_of_nil in Hn|].
  destruct (Pos.eqb_spec x n) as [->|Hne]; [done|].
  apply elem_of_cons in Hn as [->|Hn]; [done|]. simpl. by rewrite IH.
Qed.

Lemma eTree_getParent_Ok σ n N :
  trees σ !! n = Some N -> eTree_getParent n σ = Ok (parent N, σ).
Proof.
  intros HN. unfold eTree_getParent. by rewrite (bind_Ok _ _ _ _ _ (load_Ok _ _ _ HN)).
Qed.

Lemma eTree_getLabel_Ok σ n N :
  trees σ !! n = Some N -> eTree_getLabel n σ = Ok (label N, σ).
Proof.
  intros HN. unfold eTree_getLabel. by rewrite (bind_Ok _ _ _ _ _ (load_Ok _ _ _ HN)).
Qed.

(** X1. Attaching a node that has no parent and detaching it again
    gives back the memory one started from: [eTree_setParent(n, p);
    eTree_setParent(n, NULL)] changes nothing. *)
Theorem attach_detach_identity σ n p N P :
  trees σ !! n = Some N -> parent N = None ->
  trees σ !! p = Some P -> n ∉ nodes P ->
  (eTree_setParent n (Some p);; eTree_setParent n None) σ = Ok (tt, σ).
Proof.
  intros HN Hpar HP Hnot.
  destruct (eTree_setParent_Ok σ n N (Some p) HN) as [σ1 H1].
  { intros q [= <-]. eauto. }
  { intros q Hq. congruence. }
  rewrite (bind_Ok _ _ _ _ _ H1).
  apply eTree_setParent_inv in H1 as (N0 & HN0 & Hs1 & _ & _ & Ht1).
  rewrite HN in HN0. injection HN0 as <-. rewrite Hpar in Ht1.
  assert (HN1 : trees σ1 !! n = Some (reparent n None (Some p) n N)).
  { by rewrite Ht1, HN. }
  destruct (eTree_setParent_Ok σ1 n _ None HN1) as [σ2 H2].
  { intros q Hq. congruence. }
  { intros q. unfold reparent. simpl. rewrite decide_True by done.
    intros [= <-]. rewrite Ht1, HP. eauto. }
  rewrite H2. f_equal. f_equal.
  apply eTree_setParent_inv in H2 as (N1 & HN1' & Hs2 & _ & _ & Ht2).
  rewrite HN1 in HN1'. injection HN1' as <-.
  assert (Hp1 : parent (reparent n None (Some p) n N) = Some p).
  { unfold reparent. simpl. by rewrite decide_True. }
  rewrite Hp1 in Ht2.
  apply mem_eq; [|congruence].
  apply map_eq. intros x. rewrite Ht2, Ht1.
  destruct (trees σ !! x) as [X|] eqn:EX; [|done]. simpl. f_equal.
  unfold reparent. simpl. rewrite app_nil_r.
  assert (Hparent : (if decide (x = n) then None
                     else if decide (x = n) then Some p else parent X) = parent X).
  { destruct (decide (x = n)) as [->|_]; [|done].
    rewrite EX in HN. injection HN as ->. done. }
  rewrite Hparent.
  destruct (decide (Some p = Some x)) as [[= ->]|Hpx].
  - rewrite EX in HP. injection HP as ->.
    rewrite listRemove_app_last by done. by destruct P.
  - rewrite app_nil_r. by destruct X.
Qed.

Lemma attach_detach_identity_witness :
  (eTree_setParent 1%positive (Some 2%positive);; eTree_setParent 1%positive None)
    two_nodes_apart = Ok (tt, two_nodes_apart).
Proof.
  apply (attach_detach_identity two_nodes_apart 1%positive 2%positive
           (mkETree INFINITY [] None None) (mkETree INFINITY [] None None)).
  - vm_compute; reflexivity.
  - reflexivity.
  - vm_compute; reflexivity.
  - simpl. apply not_elem_of_nil.
Defined.

(** X2. Reparenting a node to the parent it already has is not a
    no-op: the node is taken out of the child list and appended, so it
    becomes the last child; the other children keep their order, no
    other node and no buffer changes, and the memory is the same only
    when the node was the last child already. *)
Theorem setParent_same_parent σ n p N P :
  trees σ !! n = Some N -> parent N = Some p -> trees σ !! p = Some P ->
  exists σ' P',
    eTree_setParent n (Some p) σ = Ok (tt, σ') /\
    strs σ' = strs σ /\
    trees σ' !! p = Some P' /\
    nodes P' = listRemove (nodes P) n ++ [n] /\
    (n ∈ nodes P -> length (nodes P') = length (nodes P)) /\
    (forall x, x <> p -> trees σ' !! x = trees σ !! x) /\
    (forall l, nodes P = l ++ [n] -> n ∉ l -> σ' = σ).
Proof.
  intros HN Hpar HP.
  destruct (eTree_setParent_Ok σ n N (Some p) HN) as [σ1 H1].
  { intros q [= <-]. eauto. }
  { intros q Hq. rewrite Hpar in Hq. injection Hq as <-. eauto. }
  apply eTree_setParent_inv in H1 as H1'.
  destruct H1' as (N0 & HN0 & Hs1 & _ & _ & Ht1).
  rewrite HN in HN0. injection HN0 as <-. rewrite Hpar in Ht1.
  assert (Hother : forall x, x <> p -> trees σ1 !! x = trees σ !! x).
  { intros x Hx. rewrite Ht1. destruct (trees σ !! x) as [X|] eqn:EX; [|done].
    simpl. f_equal. unfold reparent.
    rewrite !(decide_False (P := Some p = Some x)) by congruence.
    rewrite app_nil_r. destruct (decide (x = n)) as [->|_].
    - rewrite EX in HN. injection HN as ->. rewrite <- Hpar. by destruct N.
    - by destruct X. }
  exists σ1, (reparent n (Some p) (Some p) p P).
  split; [done|]. split; [done|]. split; [by rewrite Ht1, HP|].
  assert (Hnodes : nodes (reparent n (Some p) (Some p) p P) = listRemove (nodes P) n ++ [n]).
  { unfold reparent. simpl. by rewrite !decide_True by done. }
  split; [done|]. split; [|split; [done|]].
  - intros Hin. rewrite Hnodes, length_app. simpl.
    rewrite <- (listRemove_length _ _ Hin). lia.
  - intros l Hl Hnl. apply mem_eq; [|done]. apply map_eq. intros x.
    destruct (decide (x = p)) as [->|Hx]; [|by apply Hother].
    rewrite Ht1, HP. simpl. f_equal. unfold reparent.
    rewrite !decide_True by done. rewrite Hl, listRemove_app_last by done.
    rewrite <- Hl. destruct (decide (p = n)) as [->|_].
    + rewrite HP in HN. injection HN as ->. rewrite <- Hpar. by destruct N.
    + by destruct P.
Qed.

Lemma setParent_same_parent_witness :
  exists σ' P',
    eTree_setParent 1%positive (Some 3%positive) two_children_mem = Ok (tt, σ') /\
    strs σ' = strs two_children_mem /\
    trees σ' !! 3%positive = Some P' /\
    nodes P' = [2%positive; 1%positive].
Proof.
  assert (H1 : trees two_children_mem !! 1%positive =
               Some (mkETree INFINITY [] None (Some 3%positive)))
    by (vm_compute; reflexivity).
  assert (H3 : trees two_children_mem !! 3%positive =
               Some (mkETree INFINITY [1%positive; 2%positive] None None))
    by (vm_compute; reflexivity).
  destruct (setParent_same_parent two_children_mem 1%positive 3%positive _ _
              H1 eq_refl H3) as (σ' & P' & Hset & Hs & HP' & Hn & _).
  exists σ', P'. split; [exact Hset|]. split; [exact Hs|]. split; [exact HP'|].
  exact Hn.
Defined.

(** X3. Moving a node from one parent to a different one in a memory
    built through the interface: the old parent has one child less, the
    new parent one more, every other node has as many as before. *)
Theorem setParent_child_numbers s0 σ n N p q σ' :
  reachable s0 σ ->
  trees σ !! n = Some N -> parent N = Some p -> q <> p ->
  eTree_setParent n (Some q) σ = Ok (tt, σ') ->
  exists kp kq,
    eTree_getChildNumber p σ = Ok (kp, σ) /\
    eTree_getChildNumber q σ = Ok (kq, σ) /\
    eTree_getChildNumber p σ' = Ok (kp - 1, σ') /\
    eTree_getChildNumber q σ' = Ok (kq + 1, σ') /\
    (forall x k, x <> p -> x <> q ->
       eTree_getChildNumber x σ = Ok (k, σ) ->
       eTree_getChildNumber x σ' = Ok (k, σ')).
Proof.
  intros Hr HN Hpar Hqp Hset.
  pose proof (reachable_linked _ _ Hr) as Hl.
  destruct (Hl n N HN) as (_ & _ & Hup).
  destruct (Hup p Hpar) as (P & HP & Hin).
  apply eTree_setParent_inv in Hset as (N0 & HN0 & _ & Hnew & _ & Ht).
  rewrite HN in HN0. injection HN0 as <-. rewrite Hpar in Ht.
  destruct (Hnew q eq_refl) as [Q HQ].
  exists (Z.of_nat (length (nodes P))), (Z.of_nat (length (nodes Q))).
  split; [by apply eTree_getChildNumber_Ok|].
  split; [by apply eTree_getChildNumber_Ok|].
  split; [|split].
  - rewrite (eTree_getChildNumber_Ok σ' p (reparent n (Some p) (Some q) p P)).
    2:{ by rewrite Ht, HP. }
    unfold reparent. simpl. rewrite decide_True by done.
    rewrite decide_False by congruence. rewrite app_nil_r.
    pose proof (listRemove_length _ _ Hin) as Hlen.
    do 2 f_equal. lia.
  - rewrite (eTree_getChildNumber_Ok σ' q (reparent n (Some p) (Some q) q Q)).
    2:{ by rewrite Ht, HQ. }
    unfold reparent. simpl. rewrite decide_False by congruence.
    rewrite decide_True by done. rewrite length_app. simpl.
    do 2 f_equal. lia.
  - intros x k Hxp Hxq Hk.
    apply eTree_getChildNumber_inv in Hk as (X & HX & -> & _).
    rewrite (eTree_getChildNumber_Ok σ' x (reparent n (Some p) (Some q) x X)).
    2:{ by rewrite Ht, HX. }
    unfold reparent. simpl. rewrite !decide_False by congruence.
    by rewrite app_nil_r.
Qed.

(** X4. Relabelling: [eTree_setLabel] with a live string other than the
    node's own label leaves the node with a copy in a buffer of its own
    (the caller's string is untouched), the buffer of the old label is
    released, and nothing else changes; with NULL the label becomes
    NULL and the old buffer is released. *)
Theorem eTree_setLabel_replaces σ eTree N :
  trees σ !! eTree = Some N ->
  (forall l, label N = Some l -> is_Some (strs σ !! l)) ->
  (forall s c, strs σ !! s = Some c -> label N <> Some s ->
     exists σ' p,
       eTree_setLabel eTree (Some s) σ = Ok (tt, σ') /\
       eTree_getLabel eTree σ' = Ok (Some p, σ') /\
       p <> s /\ strs σ' !! p = Some c /\ strs σ' !! s = Some c /\
       (forall q, q ∈ dom (strs σ') <->
                  q = p \/ (q ∈ dom (strs σ) /\ label N <> Some q)) /\
       (forall q, q <> p -> label N <> Some q -> strs σ' !! q = strs σ !! q) /\
       (forall x, x <> eTree -> trees σ' !! x = trees σ !! x) /\
       eTree_getParent eTree σ' = Ok (parent N, σ') /\
       eTree_getBranchLength eTree σ' = Ok (branchLength N, σ') /\
       eTree_getChildNumber eTree σ' = Ok (Z.of_nat (length (nodes N)), σ')) /\
  (exists σ',
     eTree_setLabel eTree None σ = Ok (tt, σ') /\
     eTree_getLabel eTree σ' = Ok (None, σ') /\
     (forall q, q ∈ dom (strs σ') <-> q ∈ dom (strs σ) /\ label N <> Some q) /\
     (forall q, label N <> Some q -> strs σ' !! q = strs σ !! q) /\
     (forall x, x <> eTree -> trees σ' !! x = trees σ !! x)).
Proof.
  intros HN Hlive. split.
  - intros s c Hs Hown.
    destruct (eTree_setLabel_copy σ eTree N s c HN Hs) as (Hset & Hp & Hsl).
    { intros l Hl. split; [by apply Hlive|]. intros ->. by apply Hown. }
    cbv zeta in Hset, Hp, Hsl.
    set (live := match label N with Some l => delete l (strs σ) | None => strs σ end) in *.
    set (p := fresh (dom live)) in *.
    assert (Hlive_dom : forall q, q ∈ dom live <-> q ∈ dom (strs σ) /\ label N <> Some q).
    { intros q. subst live. destruct (label N) as [l|].
      - rewrite dom_delete_L, elem_of_difference, elem_of_singleton.
        split; intros [? ?]; (split; [done|congruence]).
      - split; [intros ?; split; [done|discriminate]|by intros [? _]]. }
    assert (Hlive_lookup : forall q, label N <> Some q -> live !! q = strs σ !! q).
    { intros q Hq. subst live. destruct (label N) as [l|]; [|done].
      rewrite lookup_delete_ne; [done|congruence]. }
    eexists _, p. split; [exact Hset|].
    set (N' := mkETree (branchLength N) (nodes N) (Some p) (parent N)).
    assert (HN' : forall ss, trees (mkMem (<[eTree := N']> (trees σ)) ss) !! eTree = Some N').
    { intros ss. simpl. by rewrite lookup_insert_eq. }
    split; [by rewrite (eTree_getLabel_Ok _ _ N')|].
    split; [done|]. simpl.
    split; [by rewrite lookup_insert_eq|].
    split; [by rewrite lookup_insert_ne|].
    split.
    { intros q. rewrite dom_insert_L, elem_of_union, elem_of_singleton, Hlive_dom. done. }
    split.
    { intros q Hq Hl. rewrite lookup_insert_ne by done. by apply Hlive_lookup. }
    split.
    { intros x Hx. by rewrite lookup_insert_ne. }
    split; [by rewrite (eTree_getParent_Ok _ _ N')|].
    split; [by rewrite (eTree_getBranchLength_Ok _ _ N')|].
    by rewrite (eTree_getChildNumber_Ok _ _ N').
  - rewrite (eTree_setLabel_NULL σ eTree N HN Hlive).
    set (live := match label N with Some l => delete l (strs σ) | None => strs σ end).
    eexists. split; [done|].
    set (N' := mkETree (branchLength N) (nodes N) None (parent N)).
    split.
    { rewrite (eTree_getLabel_Ok _ _ N'); [done|]. simpl. by rewrite lookup_insert_eq. }
    simpl. split; [|split].
    + intros q. subst live. destruct (label N) as [l|].
      * rewrite dom_delete_L, elem_of_difference, elem_of_singleton.
        split; intros [? ?]; (split; [done|congruence]).
      * split; [intros ?; split; [done|discriminate]|by intros [? _]].
    + intros q Hq. subst live. destruct (label N) as [l|]; [|done].
      rewrite lookup_delete_ne; [done|congruence].
    + intros x Hx. by rewrite lookup_insert_ne.
Qed.

(** * String comparison *)

Lemma nat_of_ascii_inj a b : nat_of_ascii a = nat_of_ascii b -> a = b.
Proof.
  intros Heq. rewrite <- (ascii_nat_embedding a), <- (ascii_nat_embedding b).
  by rewrite Heq.
Qed.

Lemma strcmp_zero s1 s2 : strcmp s1 s2 = 0 <-> s1 = s2.
Proof.
  revert s2. induction s1 as [|a s1 IH]; intros [|b s2]; simpl; try done.
  destruct (Ascii.eqb_spec a b) as [->|Hne].
  - rewrite IH. split; [by intros ->|by intros [= ->]].
  - split; [|by intros [= -> ->]].
    intros Hz. destruct Hne. apply nat_of_ascii_inj. lia.
Qed.

Lemma strcasecmp_zero s1 s2 :
  strcasecmp s1 s2 = 0 <-> List.map tolower s1 = List.map tolower s2.
Proof.
  revert s2. induction s1 as [|a s1 IH]; intros [|b s2]; simpl; try done.
  destruct (Ascii.eqb_spec (tolower a) (tolower b)) as [Heq|Hne].
  - rewrite IH. split; [intros Hm; by f_equal|by intros [= _ ?]].
  - split; [|by intros [= ? _]].
    intros Hz. destruct Hne. apply nat_of_ascii_inj. lia.
Qed.

Lemma stString_eq_Ok σ string1 string2 :
  valid_str σ string1 -> valid_str σ string2 ->
  stString_eq string1 string2 σ =
    Ok (bool_decide (contents σ string1 = contents σ string2), σ).
Proof.
  unfold stString_eq.
  destruct string1 as [p1|], string2 as [p2|]; simpl.
  - intros [s1 H1] [s2 H2].
    rewrite (bind_Ok _ _ _ _ _ (load_str_Ok _ _ _ H1)).
    rewrite (bind_Ok _ _ _ _ _ (load_str_Ok _ _ _ H2)).
    unfold ret. do 2 f_equal. rewrite H1, H2.
    destruct (Z.eqb_spec (strcmp s1 s2) 0) as [Hz|Hz].
    + apply strcmp_zero in Hz as ->. by rewrite bool_decide_eq_true_2.
    + rewrite bool_decide_eq_false_2; [done|].
      intros [= ->]. by apply Hz, strcmp_zero.
  - intros [s1 H1] _. rewrite H1. done.
  - intros _ [s2 H2]. rewrite H2. done.
  - done.
Qed.

Lemma stString_eqcase_Ok σ string1 string2 :
  valid_str σ string1 -> valid_str σ string2 ->
  stString_eqcase string1 string2 σ =
    Ok (bool_decide (List.map tolower <$> contents σ string1 =
                     List.map tolower <$> contents σ string2), σ).
Proof.
  unfold stString_eqcase.
  destruct string1 as [p1|], string2 as [p2|]; simpl.
  - intros [s1 H1] [s2 H2].
    rewrite (bind_Ok _ _ _ _ _ (load_str_Ok _ _ _ H1)).
    rewrite (bind_Ok _ _ _ _ _ (load_str_Ok _ _ _ H2)).
    unfold ret. do 2 f_equal. rewrite H1, H2.
    destruct (Z.eqb_spec (strcasecmp s1 s2) 0) as [Hz|Hz].
    + apply strcasecmp_zero in Hz.
      rewrite bool_decide_eq_true_2; [done|]. simpl. by f_equal.
    + rewrite bool_decide_eq_false_2; [done|].
      intros [= Heq]. by apply Hz, strcasecmp_zero.
  - intros [s1 H1] _. rewrite H1. done.
  - intros _ [s2 H2]. rewrite H2. done.
  - done.
Qed.

(** X5. [stString_eq] compares by contents, NULL being a value of its
    own: for pointers that are NULL or live it answers true exactly
    when both are NULL or both buffers hold the same text (so NULL
    differs from the empty string, and two buffers at different
    addresses with the same text are equal); it changes nothing. *)
Theorem stString_eq_contents σ string1 string2 :
  valid_str σ string1 -> valid_str σ string2 ->
  exists b,
    stString_eq string1 string2 σ = Ok (b, σ) /\
    (b = true <-> contents σ string1 = contents σ string2).
Proof.
  intros V1 V2. eexists. split; [by apply stString_eq_Ok|].
  apply bool_decide_eq_true.
Qed.

(** X6. [stString_eqcase] compares the contents after [tolower], NULL
    being a value of its own; whenever [stString_eq] answers true so
    does [stString_eqcase]. *)
Theorem stString_eqcase_contents σ string1 string2 :
  valid_str σ string1 -> valid_str σ string2 ->
  exists b,
    stString_eqcase string1 string2 σ = Ok (b, σ) /\
    (b = true <-> List.map tolower <$> contents σ string1 =
                  List.map tolower <$> contents σ string2) /\
    (stString_eq string1 string2 σ = Ok (true, σ) -> b = true).
Proof.
  intros V1 V2. eexists. split; [by apply stString_eqcase_Ok|].
  split; [apply bool_decide_eq_true|].
  rewrite (stString_eq_Ok σ string1 string2 V1 V2).
  intros [= Heq]. apply bool_decide_eq_true_1 in Heq. rewrite Heq.
  by rewrite bool_decide_eq_true_2.
Qed.


(** * Destruction *)

Lemma eTree_destruct_S f eTree :
  eTree_destruct (S f) eTree =
    (let* n := load eTree in
     destructList (eTree_destruct f) (nodes n);;
     let* n := load eTree in
     (match label n with
      | Some l => free l
      | None => ret tt
      end);;
     free_tree eTree).
Proof. reflexivity. Qed.

Lemma released_refl σ : released σ σ [] [].
Proof. split; intros x; by rewrite decide_False by apply not_elem_of_nil. Qed.

Lemma released_trans σ σ1 σ2 n1 l1 n2 l2 :
  released σ σ1 n1 l1 -> released σ1 σ2 n2 l2 ->
  released σ σ2 (n1 ++ n2) (l1 ++ l2).
Proof.
  intros [T1 S1] [T2 S2]. split.
  - intros x. rewrite T2, T1.
    destruct (decide (x ∈ n1 ++ n2)) as [Hin|Hout].
    + apply elem_of_app in Hin. destruct (decide (x ∈ n2)); [done|].
      destruct Hin; [by rewrite decide_True|done].
    + rewrite !decide_False; [done| |]; intros ?; apply Hout, elem_of_app; auto.
  - intros x. rewrite S2, S1.
    destruct (decide (x ∈ l1 ++ l2)) as [Hin|Hout].
    + apply elem_of_app in Hin. destruct (decide (x ∈ l2)); [done|].
      destruct Hin; [by rewrite decide_True|done].
    + rewrite !decide_False; [done| |]; intros ?; apply Hout, elem_of_app; auto.
Qed.

Lemma NoDup_flat_map_cons {A} (f : A -> list loc) k ks :
  NoDup (List.flat_map f (k :: ks)) ->
  NoDup (f k) /\ NoDup (List.flat_map f ks) /\
  forall x, x ∈ f k -> x ∉ List.flat_map f ks.
Proof. simpl. intros (H1 & H2 & H3)%NoDup_app. auto. Qed.

(** A tree that sits in memory at distinct addresses is released as a
    whole. *)
Lemma eTree_destruct_repr t :
  forall σ par f,
    repr σ par t -> NoDup (anodes t) -> NoDup (alabels t) ->
    (height (erase t) <= f)%nat ->
    exists σ', eTree_destruct f (aroot t) σ = Ok (tt, σ') /\
               released σ σ' (anodes t) (alabels t).
Proof.
  induction t as [a lbl len kids IH] using atree_ind'.
  intros σ par f Hr Hn Hl Hf. rewrite erase_eq, height_eq in Hf.
  destruct f as [|f]; [lia|].
  apply repr_eq in Hr as (Ha & Hlbl & Hk).
  rewrite anodes_eq in Hn. apply NoDup_cons in Hn as [Hroot Hn].
  rewrite alabels_eq in Hl. apply NoDup_app in Hl as (Hl1 & Hl2 & Hl).
  assert (Hh : Forall (fun k => height (erase k) <= f)%nat kids).
  { apply Forall_forall. intros k Hkin.
    assert (height (erase k) <= list_max (List.map height (List.map erase kids)))%nat.
    { apply list_max_le_elem, in_map, in_map. by apply list_elem_of_In. }
    lia. }
  assert (Hkids : exists σ1,
    destructList (eTree_destruct f) (List.map aroot kids) σ = Ok (tt, σ1) /\
    released σ σ1 (List.flat_map anodes kids) (List.flat_map alabels kids)).
  { clear Ha Hlbl Hroot Hl1 Hl2 Hf. revert σ Hk.
    induction kids as [|k kids IHk]; intros σ Hk.
    { exists σ. split; [done|apply released_refl]. }
    apply Forall_cons in IH as [IH1 IH2]. apply Forall_cons in Hk as [Hk1 Hk2].
    apply Forall_cons in Hh as [Hh1 Hh2].
    apply NoDup_flat_map_cons in Hn as (Hn1 & Hn2 & Hn3).
    apply NoDup_flat_map_cons in Hl as (Hl1 & Hl2 & Hl3).
    destruct (IH1 σ (Some a) f Hk1 Hn1 Hl1 Hh1) as (σ1 & Hd1 & [T1 S1]).
    destruct (IHk IH2 Hn2 Hl2 Hh2 σ1) as (σ2 & Hd2 & Hrel).
    { rewrite Forall_forall in Hk2. apply Forall_forall. intros k' Hk'.
      eapply repr_frame; [by apply Hk2| |].
      - intros x Hx. rewrite T1. rewrite decide_False; [done|].
        intros Hxk. apply (Hn3 x Hxk). apply elem_of_flat_map. eauto.
      - intros p Hp. rewrite S1. rewrite decide_False; [done|].
        intros Hpk. apply (Hl3 p Hpk). apply elem_of_flat_map. eauto. }
    exists σ2. split.
    - simpl. by rewrite (bind_Ok _ _ _ _ _ Hd1).
    - simpl. by apply (released_trans σ σ1 σ2). }
  destruct Hkids as (σ1 & Hd1 & [T1 S1]).
  simpl aroot. rewrite eTree_destruct_S.
  rewrite (bind_Ok _ _ _ _ _ (load_Ok _ _ _ Ha)). simpl nodes.
  rewrite (bind_Ok _ _ _ _ _ Hd1).
  assert (Ha1 : trees σ1 !! a =
            Some (mkETree len (List.map aroot kids) (fst <$> lbl) par)).
  { rewrite T1. by rewrite decide_False. }
  rewrite (bind_Ok _ _ _ _ _ (load_Ok _ _ _ Ha1)). simpl label.
  destruct lbl as [[p s]|]; simpl.
  - assert (Hp : p ∉ List.flat_map alabels kids).
    { apply Hl2. apply list_elem_of_here. }
    assert (Hp1 : strs σ1 !! p = Some s).
    { rewrite S1. by rewrite decide_False. }
    assert (Hfree : free p σ1 = Ok (tt, set_strs (delete p (strs σ1)) σ1)).
    { unfold free. by rewrite Hp1. }
    rewrite (bind_Ok _ _ _ _ _ Hfree).
    unfold free_tree. simpl. rewrite Ha1.
    eexists. split; [done|]. split; simpl.
    + intros x. destruct (decide (x = a)) as [->|Hx].
      * rewrite lookup_delete_eq. rewrite decide_True; [done|apply list_elem_of_here].
      * rewrite lookup_delete_ne by done. rewrite T1.
        destruct (decide (x ∈ List.flat_map anodes kids)) as [Hin|Hin].
        -- rewrite decide_True; [done|]. by apply list_elem_of_further.
        -- rewrite decide_False; [done|]. by intros [?|?]%elem_of_cons.
    + intros q. destruct (decide (q = p)) as [->|Hq].
      * rewrite lookup_delete_eq. rewrite decide_True; [done|apply list_elem_of_here].
      * rewrite lookup_delete_ne by done. rewrite S1.
        destruct (decide (q ∈ List.flat_map alabels kids)) as [Hin|Hin].
        -- rewrite decide_True; [done|]. by apply list_elem_of_further.
        -- rewrite decide_False; [done|]. by intros [?|?]%elem_of_cons.
  - rewrite (bind_Ok _ _ σ1 tt σ1) by done.
    unfold free_tree. rewrite Ha1.
    eexists. split; [done|]. split; simpl.
    + intros x. destruct (decide (x = a)) as [->|Hx].
      * rewrite lookup_delete_eq. rewrite decide_True; [done|apply list_elem_of_here].
      * rewrite lookup_delete_ne by done. rewrite T1.
        destruct (decide (x ∈ List.flat_map anodes kids)) as [Hin|Hin].
        -- rewrite decide_True; [done|]. by apply list_elem_of_further.
        -- rewrite decide_False; [done|]. by intros [?|?]%elem_of_cons.
    + done.
Qed.

(** X7. Destruction is recursive: for a tree that sits in memory with
    distinct node addresses and distinct label buffers,
    [eTree_destruct] releases exactly the nodes of the subtree and their
    label buffers; every other node and buffer is left as it was. *)
Theorem eTree_destruct_subtree σ par t fuel :
  repr σ par t -> NoDup (anodes t) -> NoDup (alabels t) ->
  (height (erase t) <= fuel)%nat ->
  exists σ',
    eTree_destruct fuel (aroot t) σ = Ok (tt, σ') /\
    (forall x, trees σ' !! x = if decide (x ∈ anodes t) then None else trees σ !! x) /\
    (forall p, strs σ' !! p = if decide (p ∈ alabels t) then None else strs σ !! p).
Proof. apply eTree_destruct_repr. Qed.

(** * The writer, any memory *)

Lemma load_str_inv σ p s σ' :
  load_str p σ = Ok (s, σ') -> strs σ !! p = Some s /\ σ' = σ.
Proof. unfold load_str. destruct (strs σ !! p); intros [= -> ->]; auto. Qed.

Lemma write_children_unfold (wp : loc -> M cstr) r k i cA :
  write_children wp r k i cA =
    (let* n := eTree_getChildNumber r in
     if i <? n then
       match k with
       | O => out_of_fuel
       | S k' =>
           let* child := eTree_getChild r i in
           let* cA2 := wp child in
           let* n := eTree_getChildNumber r in
           let cA3 := if i + 1 <? n then cA ++ cA2 ++ cs "," else cA ++ cA2 in
           write_children wp r k' (i + 1) cA3
       end
     else ret cA).
Proof. by destruct k. Qed.

Lemma write_children_inv (wp : loc -> M cstr) r σ N :
  trees σ !! r = Some N ->
  (forall c sc σ1, wp c σ = Ok (sc, σ1) -> σ1 = σ) ->
  forall k i cA s σ',
    write_children wp r k (Z.of_nat i) cA σ = Ok (s, σ') ->
    σ' = σ /\
    forall j c, (i <= j)%nat -> nth_error (nodes N) j = Some c ->
      exists sc, wp c σ = Ok (sc, σ).
Proof.
  intros HN Hro k. induction k as [|k IH]; intros i cA s σ' Hw;
    rewrite write_children_unfold in Hw;
    rewrite (bind_Ok _ _ _ _ _ (eTree_getChildNumber_Ok _ _ _ HN)) in Hw;
    destruct (Z.ltb_spec (Z.of_nat i) (Z.of_nat (length (nodes N)))) as [Hlt|Hge].
  - done.
  - injection Hw as <- <-. split; [done|]. intros j c Hj Hc.
    assert (j < length (nodes N))%nat by (apply nth_error_Some; congruence). lia.
  - destruct (nth_error (nodes N) i) as [c|] eqn:Ec.
    2:{ apply nth_error_None in Ec. lia. }
    rewrite (bind_Ok _ _ _ _ _ (eTree_getChild_Ok σ r N i c HN Ec)) in Hw.
    apply bind_inv in Hw as (cA2 & σ1 & Hc & Hw).
    pose proof (Hro _ _ _ Hc) as ->.
    rewrite (bind_Ok _ _ _ _ _ (eTree_getChildNumber_Ok _ _ _ HN)) in Hw.
    cbv zeta in Hw. replace (Z.of_nat i + 1) with (Z.of_nat (S i)) in Hw by lia.
    apply IH in Hw as [-> Hrest]. split; [done|]. intros j c' Hj Hc'.
    destruct (decide (j = i)) as [->|Hne].
    + rewrite Ec in Hc'. injection Hc' as <-. eauto.
    + apply (Hrest j); [lia|done].
  - injection Hw as <- <-. split; [done|]. intros j c Hj Hc.
    assert (j < length (nodes N))%nat by (apply nth_error_Some; congruence). lia.
Qed.

Section WriterFacts.
Context `{Libc}.

(** When the writer returns, memory is as before and the writer has
    returned on every child. *)
Lemma eTree_getNewickTreeStringP_inv f :
  forall r σ s σ',
    eTree_getNewickTreeStringP f r σ = Ok (s, σ') ->
    σ' = σ /\
    exists f' N, f = S f' /\ trees σ !! r = Some N /\
      forall c, c ∈ nodes N ->
        exists sc, eTree_getNewickTreeStringP f' c σ = Ok (sc, σ).
Proof.
  induction f as [|f IH]; intros r σ s σ' Hw; [done|].
  rewrite eTree_getNewickTreeStringP_S in Hw.
  apply bind_inv in Hw as (n & σ1 & Hn & Hw).
  apply eTree_getChildNumber_inv in Hn as (N & HN & -> & ->).
  apply bind_inv in Hw as (cA & σ2 & Hbody & Hw).
  assert (Hb : σ2 = σ /\ forall c, c ∈ nodes N ->
            exists sc, eTree_getNewickTreeStringP f c σ = Ok (sc, σ)).
  { destruct (Z.ltb_spec 0 (Z.of_nat (length (nodes N)))) as [Hpos|Hz].
    - apply bind_inv in Hbody as (cA' & σ3 & Hwc & [= <- <-]).
      change 0 with (Z.of_nat 0) in Hwc.
      apply (write_children_inv _ r σ N HN
               (fun c sc σ1 Hc => proj1 (IH c σ sc σ1 Hc))) in Hwc as [-> Hall].
      split; [done|]. intros c Hc.
      apply list_elem_of_In, In_nth_error in Hc as [j Hj].
      apply (Hall j c); [lia|done].
    - injection Hbody as <- <-. split; [done|]. intros c Hc.
      destruct (nodes N); [by apply elem_of_nil in Hc|simpl in Hz; lia]. }
  destruct Hb as [-> Hall].
  apply bind_inv in Hw as (l & σ3 & Hl & Hw).
  unfold eTree_getLabel in Hl.
  apply bind_inv in Hl as (N1 & ? & [_ ->]%load_inv & [= <- <-]).
  apply bind_inv in Hw as (cA2 & σ4 & Hlab & Hw).
  assert (σ4 = σ) as ->.
  { destruct (label N1) as [p|].
    - apply bind_inv in Hlab as (s0 & ? & [_ ->]%load_str_inv & [= <- <-]). done.
    - by injection Hlab as <- <-. }
  apply bind_inv in Hw as (d & σ5 & Hd & Hw).
  unfold eTree_getBranchLength in Hd.
  apply bind_inv in Hd as (N2 & ? & [_ ->]%load_inv & [= <- <-]).
  split.
  - destruct (double_ne (branchLength N2) INFINITY); by injection Hw as <- <-.
  - exists f, N. done.
Qed.

Lemma writer_descends k :
  forall f r c σ s σ',
    eTree_getNewickTreeStringP f r σ = Ok (s, σ') -> below σ k r c ->
    exists f' sc, (f' < f)%nat /\ eTree_getNewickTreeStringP f' c σ = Ok (sc, σ).
Proof.
  induction k as [|k IH]; intros f r c σ s σ' Hw Hb;
    apply eTree_getNewickTreeStringP_inv in Hw as (_ & f0 & N & -> & HN & Hall).
  - destruct Hb as (N' & HN' & Hc). rewrite HN in HN'. injection HN' as <-.
    destruct (Hall c Hc) as [sc Hsc]. exists f0, sc. split; [lia|done].
  - destruct Hb as (x & (N' & HN' & Hx) & Hb). rewrite HN in HN'. injection HN' as <-.
    destruct (Hall x Hx) as [sx Hsx].
    destruct (IH f0 x c σ sx σ Hsx Hb) as (f' & sc & Hlt & Hsc).
    exists f', sc. split; [lia|done].
Qed.

Lemma writer_acyclic f :
  forall r σ s σ',
    eTree_getNewickTreeStringP f r σ = Ok (s, σ') -> forall k, ~ below σ k r r.
Proof.
  induction f as [f IH] using lt_wf_ind. intros r σ s σ' Hw k Hb.
  destruct (writer_descends k f r r σ s σ' Hw Hb) as (f' & sc & Hlt & Hw').
  exact (IH f' Hlt r σ sc σ Hw' k Hb).
Qed.

(** X8. [eTree_destruct] does not detach: after a child subtree is
    destructed its parent still lists it, [eTree_getChild] hands out the
    released pointer, any access through it is undefined, and the
    parent can no longer be written. *)
Theorem eTree_destruct_keeps_parent_link σ p P t i fuel :
  trees σ !! p = Some P -> nth_error (nodes P) i = Some (aroot t) ->
  repr σ (Some p) t -> p ∉ anodes t ->
  NoDup (anodes t) -> NoDup (alabels t) -> (height (erase t) <= fuel)%nat ->
  exists σ',
    eTree_destruct fuel (aroot t) σ = Ok (tt, σ') /\
    trees σ' !! p = Some P /\
    eTree_getChild p (Z.of_nat i) σ' = Ok (aroot t, σ') /\
    eTree_getParent (aroot t) σ' = Fault /\
    forall f s σ'', eTree_getNewickTreeString f p σ' <> Ok (s, σ'').
Proof.
  intros HP Hi Hr Hp Hn Hl Hf.
  destruct (eTree_destruct_repr t σ (Some p) fuel Hr Hn Hl Hf) as (σ' & Hd & [T _]).
  assert (HP' : trees σ' !! p = Some P) by (by rewrite T, decide_False).
  assert (Hgone : trees σ' !! aroot t = None).
  { rewrite T, decide_True; [done|]. destruct t. apply list_elem_of_here. }
  exists σ'. split; [done|]. split; [done|].
  split; [by apply (eTree_getChild_Ok σ' p P)|]. split.
  - unfold eTree_getParent, bind, load. by rewrite Hgone.
  - intros f s σ'' Hw. unfold eTree_getNewickTreeString in Hw.
    apply bind_inv in Hw as (cA & σ1 & Hw & _).
    apply eTree_getNewickTreeStringP_inv in Hw as (_ & f0 & N & _ & HN & Hall).
    rewrite HP' in HN. injection HN as <-.
    destruct (Hall (aroot t)) as [sc Hsc].
    { apply list_elem_of_In. by apply nth_error_In in Hi. }
    apply eTree_getNewickTreeStringP_inv in Hsc as (_ & f1 & N1 & _ & HN1 & _).
    congruence.
Qed.

(** X9. The writer returns only on a tree: when
    [eTree_getNewickTreeString] returns for [r], no node is reached
    from itself through child lists, neither [r] nor any node below it,
    and every node below [r] is allocated.  On child lists with a cycle
    it never returns, whatever the bound on the recursion. *)
Theorem eTree_getNewickTreeString_needs_tree fuel r σ s σ' :
  eTree_getNewickTreeString fuel r σ = Ok (s, σ') ->
  (forall k, ~ below σ k r r) /\
  (forall k c, below σ k r c ->
     is_Some (trees σ !! c) /\ forall j, ~ below σ j c c).
Proof.
  unfold eTree_getNewickTreeString. intros Hw.
  apply bind_inv in Hw as (cA & σ1 & Hw & _). split.
  - by apply (writer_acyclic fuel r σ cA σ1).
  - intros k c Hb.
    destruct (writer_descends k fuel r c σ cA σ1 Hw Hb) as (f' & sc & _ & Hc).
    split; [|by apply (writer_acyclic f' c σ sc σ)].
    apply eTree_getNewickTreeStringP_inv in Hc as (_ & f0 & N & _ & HN & _). eauto.
Qed.

End WriterFacts.


(** * What the parser allocates *)

Lemma same_dom_fmap {A} (f : loc -> A -> A) (m m' : gmap loc A) :
  (forall x, m' !! x = f x <$> m !! x) -> forall x, x ∈ dom m' <-> x ∈ dom m.
Proof.
  intros Hm x. rewrite !elem_of_dom, Hm. destruct (m !! x); simpl; split;
    intros [? ?]; eauto; discriminate.
Qed.

Lemma getNextToken_inv tok s tok' s' σ σ' :
  eTree_parseNewickTreeString_getNextToken (tok, s) σ = Ok ((tok', s'), σ') ->
  trees σ' = trees σ /\
  forall p, p ∈ dom (strs σ') <-> p = tok' \/ (p ∈ dom (strs σ) /\ p <> tok).
Proof.
  unfold eTree_parseNewickTreeString_getNextToken. simpl. intros H.
  apply bind_inv in H as ([] & σ1 & Hfree & H).
  unfold free in Hfree. destruct (strs σ !! tok) as [w|] eqn:Ew; [|done].
  injection Hfree as <-.
  apply bind_inv in H as ([t r] & σ2 & Hg & H).
  unfold string_getNextWord in Hg.
  destruct (span_word (skip_spaces s)) as [w' r'].
  destruct w' as [|c w'].
  - injection Hg as <- <- <-. done.
  - unfold bind, alloc_str, ret in Hg. injection Hg as <- <- <-.
    injection H as <- <- <-. simpl. split; [done|]. intros p.
    rewrite dom_insert_L, dom_delete_L, elem_of_union, elem_of_singleton,
      elem_of_difference, elem_of_singleton. done.
Qed.

Lemma alabels_snoc e lbl len kids c :
  alabels (ANode e lbl len (kids ++ [c])) = alabels (ANode e lbl len kids) ++ alabels c.
Proof.
  rewrite !alabels_eq, flat_map_app. simpl. by rewrite app_nil_r, app_assoc.
Qed.

Lemma anodes_snoc e lbl len kids c x :
  x ∈ anodes (ANode e lbl len (kids ++ [c])) <->
  x ∈ anodes (ANode e lbl len kids) \/ x ∈ anodes c.
Proof.
  rewrite !anodes_eq, flat_map_app. simpl. rewrite app_nil_r.
  rewrite !elem_of_cons, elem_of_app. tauto.
Qed.

Lemma construct_parsed_exact σ0 tok0 w :
  strs σ0 !! tok0 = Some w ->
  let e := fresh (dom (trees σ0)) in
  parsed_exact σ0 (set_trees (<[e := mkETree INFINITY [] None None]> (trees σ0)) σ0)
    tok0 tok0 w (ANode e None INFINITY []).
Proof.
  intros Hw e. split; [by apply construct_parsed|].
  split; [|split; [|split]].
  - rewrite alabels_eq. simpl. apply NoDup_nil_2.
  - intros p Hp. rewrite alabels_eq in Hp. simpl in Hp. by apply elem_of_nil in Hp.
  - intros x. simpl. rewrite dom_insert_L, elem_of_union, elem_of_singleton.
    rewrite list_elem_of_singleton. tauto.
  - intros p. simpl.
    apply elem_of_dom_2 in Hw. split.
    + intros Hp. destruct (decide (p = tok0)); auto.
    + intros [[? _]|[->|Hp]]; [done|done|by apply elem_of_nil in Hp].
Qed.

Lemma getNextToken_parsed_exact σ0 σ tok0 tok w t s :
  parsed_exact σ0 σ tok0 tok w t ->
  match words s with
  | [] => eTree_parseNewickTreeString_getNextToken (tok, s) σ = Abort
  | w' :: ws =>
      exists tok' s' σ',
        eTree_parseNewickTreeString_getNextToken (tok, s) σ = Ok ((tok', s'), σ') /\
        words s' = ws /\ parsed_exact σ0 σ' tok0 tok' w' t
  end.
Proof.
  intros [HP HT]. pose proof (getNextToken_parsed _ _ _ _ _ _ s HP) as Hnext.
  destruct (words s) as [|w' ws]; [done|].
  destruct Hnext as (tok' & s' & σ' & Hn & Hws & HP').
  exists tok', s', σ'. split; [done|]. split; [done|]. split; [done|].
  apply getNextToken_inv in Hn as [Htr Hdom].
  destruct HT as (Hnd & Hnew & Dt & Ds).
  destruct HP as (_ & _ & _ & _ & _ & _ & Htok & Hlab).
  split; [done|]. split; [done|]. split.
  - intros x. rewrite Htr. apply Dt.
  - intros p. rewrite Hdom, Ds. split.
    + intros [->|[[?|[->|?]] Hne]]; auto. done.
    + intros [[Hp Hne]|[->|Hp]]; auto.
      * right. split; [auto|]. intros ->. by apply Hne, Htok.
      * right. split; [auto|]. by intros ->.
Qed.

Lemma attach_parsed_exact σ0 σ σ' tok0 tok tok' w w' e lbl len kids c :
  parsed_exact σ0 σ tok0 tok w (ANode e lbl len kids) ->
  parsed_exact σ σ' tok tok' w' c ->
  exists σ'',
    eTree_setParent (aroot c) (Some e) σ' = Ok (tt, σ'') /\
    parsed_exact σ0 σ'' tok0 tok' w' (ANode e lbl len (kids ++ [c])).
Proof.
  intros [HP HT] [HQ HT'].
  destruct (attach_parsed _ _ _ _ _ _ _ _ _ _ _ _ _ HP HQ) as (σ'' & Hset & HP'').
  exists σ''. split; [done|]. split; [done|].
  apply eTree_setParent_inv in Hset as (N & _ & Hstrs & _ & _ & Ht'').
  pose proof (same_dom_fmap _ _ _ Ht'') as Hdt.
  destruct HT as (Hnd & Hnew & Dt & Ds). destruct HT' as (Hnd' & Hnew' & Dt' & Ds').
  pose proof HP as (Hr & _ & _ & _ & _ & _ & Htok & Hlab).
  destruct (repr_dom _ _ _ Hr) as [_ Hdl].
  assert (Hold : forall p, p ∈ alabels (ANode e lbl len kids) ->
            p ∈ dom (strs σ) /\ p <> tok).
  { intros p Hp. split; [by apply Hdl|]. by intros ->. }
  split; [|split; [|split]].
  - rewrite alabels_snoc. apply NoDup_app. split; [done|]. split; [|done].
    intros p Hp Hp'. destruct (Hold p Hp) as [Hd Hne]. by apply Hne, Hnew'.
  - intros p. rewrite alabels_snoc, elem_of_app. intros [Hp|Hp] Hp0; [by apply Hnew|].
    destruct (decide (p = tok0)) as [|Hne]; [done|].
    destruct (parsed_old_strs _ _ _ _ _ _ p HP Hp0 Hne) as [Hd Hne'].
    destruct Hne'. by apply Hnew'.
  - intros x. rewrite Hdt, Dt', Dt, anodes_snoc. tauto.
  - intros p. rewrite Hstrs, Ds', Ds, alabels_snoc, elem_of_app. split.
    + intros [[[?|[->|?]] Hne]|[->|?]]; auto. done.
    + intros [[Hp Hne]|[->|[Hp|Hp]]]; auto.
      * left. split; [auto|]. intros ->. by apply Hne, Htok.
      * left. destruct (Hold p Hp) as [_ Hne]. auto.
Qed.

Lemma setLabel_parsed_exact σ0 σ tok0 tok w e len kids :
  parsed_exact σ0 σ tok0 tok w (ANode e None len kids) ->
  exists p σ',
    eTree_setLabel e (Some tok) σ = Ok (tt, σ') /\
    parsed_exact σ0 σ' tok0 tok w (ANode e (Some (p, w)) len kids).
Proof.
  intros [HP HT]. pose proof HP as (Hr & _ & _ & _ & _ & Hw & _).
  apply repr_eq in Hr as (He & _ & _).
  destruct (eTree_setLabel_copy σ e _ tok w He Hw) as (Hset & Hp & Hlive).
  { simpl. done. }
  simpl in Hset, Hp, Hlive.
  set (p := fresh (dom (strs σ))) in *.
  pose proof (is_fresh (dom (strs σ))) as Hf. fold p in Hf.
  exists p, (mkMem (<[e := mkETree len (List.map aroot kids) (Some p) None]> (trees σ))
               (<[p := w]> (strs σ))).
  split; [done|]. split.
  - apply (root_update_parsed σ0 σ tok0 tok w e None len kids (Some (p, w)) len); [done| |].
    + intros q Hq. rewrite lookup_insert_ne; [done|]. by intros <-.
    + split; [by rewrite lookup_insert_eq|done].
  - destruct HT as (Hnd & Hnew & Dt & Ds).
    rewrite alabels_eq in Hnd, Hnew, Ds. simpl in Hnd, Hnew, Ds.
    split; [|split; [|split]].
    + rewrite alabels_eq. simpl. apply NoDup_cons. split; [|done].
      intros Hin. apply Hf, Ds. auto.
    + intros q. rewrite alabels_eq. simpl. intros [->|Hq]%elem_of_cons Hq0; [|by apply Hnew].
      destruct (decide (p = tok0)) as [|Hne]; [done|]. destruct Hf. apply Ds. auto.
    + intros x. simpl. rewrite dom_insert_L, elem_of_union, elem_of_singleton, Dt.
      rewrite !anodes_eq, !elem_of_cons. tauto.
    + intros q. rewrite alabels_eq. simpl.
      rewrite dom_insert_L, elem_of_union, elem_of_singleton, Ds, elem_of_cons. tauto.
Qed.

Lemma setBranchLength_parsed_exact σ0 σ tok0 tok w e lbl len kids d :
  parsed_exact σ0 σ tok0 tok w (ANode e lbl len kids) ->
  exists σ',
    eTree_setBranchLength e d σ = Ok (tt, σ') /\
    parsed_exact σ0 σ' tok0 tok w (ANode e lbl d kids).
Proof.
  intros [HP HT].
  destruct (setBranchLength_parsed _ _ _ _ _ _ _ _ _ d HP) as (σ' & Hset & HP').
  exists σ'. split; [done|]. split; [done|].
  pose proof HP as (Hr & _). apply repr_eq in Hr as (He & _).
  rewrite (eTree_setBranchLength_Ok _ _ _ d He) in Hset. injection Hset as <-.
  destruct HT as (Hnd & Hnew & Dt & Ds).
  split; [done|]. split; [done|]. split; [|done].
  intros x. simpl. rewrite dom_insert_L, elem_of_union, elem_of_singleton, Dt.
  rewrite !anodes_eq, !elem_of_cons. tauto.
Qed.

Lemma parsed_exact_token σ0 σ tok0 tok w t :
  parsed_exact σ0 σ tok0 tok w t -> load_str tok σ = Ok (w, σ).
Proof. intros [HP _]. by apply (parsed_token σ0 σ tok0 tok w t). Qed.

Section SimulationExact.
Context `{Libc}.

(** The steps of the simulation again, now with the account of what
    has been allocated. *)
Lemma getLabel_sim_exact σ0 σ tok0 tok w s e len kids :
  parsed_exact σ0 σ tok0 tok w (ANode e None len kids) ->
  match tparse_label (w :: words s) with
  | Ok (l, toks') =>
      exists lbl tok' s' σ' w',
        eTree_parseNewickString_getLabel (tok, s) e σ = Ok ((tok', s'), σ') /\
        toks' = w' :: words s' /\ snd <$> lbl = l /\
        parsed_exact σ0 σ' tok0 tok' w' (ANode e lbl len kids)
  | Abort => eTree_parseNewickString_getLabel (tok, s) e σ = Abort
  | _ => False
  end.
Proof.
  intros HP. unfold tparse_label, eTree_parseNewickString_getLabel.
  cbn [thead fst]. rewrite (bind_Ok _ _ _ _ _ (parsed_exact_token _ _ _ _ _ _ HP)).
  fold (labelling w). destruct (labelling w).
  - destruct (setLabel_parsed_exact _ _ _ _ _ _ _ _ HP) as (p & σ1 & Hset & HP1).
    rewrite (bind_Ok _ _ _ _ _ Hset).
    pose proof (getNextToken_parsed_exact _ _ _ _ _ _ s HP1) as Hnext.
    destruct (words s) as [|w' ws]; simpl; [done|].
    destruct Hnext as (tok' & s' & σ' & Hn & Hws & HP').
    exists (Some (p, w)), tok', s', σ', w'. by rewrite Hws.
  - exists None, tok, s, σ, w. done.
Qed.

Lemma getBranchLength_sim_exact σ0 σ tok0 tok w s e lbl kids :
  parsed_exact σ0 σ tok0 tok w (ANode e lbl INFINITY kids) ->
  match tparse_length (w :: words s) with
  | Ok (d, toks') =>
      exists tok' s' σ' w',
        eTree_parseNewickString_getBranchLength (tok, s) e σ = Ok ((tok', s'), σ') /\
        toks' = w' :: words s' /\
        parsed_exact σ0 σ' tok0 tok' w' (ANode e lbl d kids)
  | Abort => eTree_parseNewickString_getBranchLength (tok, s) e σ = Abort
  | _ => False
  end.
Proof.
  intros HP. unfold tparse_length, eTree_parseNewickString_getBranchLength.
  cbn [thead fst]. rewrite (bind_Ok _ _ _ _ _ (parsed_exact_token _ _ _ _ _ _ HP)).
  destruct (Ascii.eqb (first_char w) ":").
  - pose proof (getNextToken_parsed_exact _ _ _ _ _ _ s HP) as Hnext.
    destruct (words s) as [|w1 ws]; simpl.
    { by rewrite (bind_Abort _ _ _ Hnext). }
    destruct Hnext as (tok1 & s1 & σ1 & Hn & Hws & HP1).
    rewrite (bind_Ok _ _ _ _ _ Hn). cbn [fst].
    rewrite (bind_Ok _ _ _ _ _ (parsed_exact_token _ _ _ _ _ _ HP1)).
    destruct (sscanf_lf w1) as [d|]; [|done].
    destruct (setBranchLength_parsed_exact _ _ _ _ _ _ _ _ _ d HP1) as (σ2 & Hset & HP2).
    rewrite (bind_Ok _ _ _ _ _ Hset).
    pose proof (getNextToken_parsed_exact _ _ _ _ _ _ s1 HP2) as Hnext2.
    rewrite Hws in Hnext2.
    destruct ws as [|w2 ws2]; simpl; [done|].
    destruct Hnext2 as (tok2 & s2 & σ3 & Hn2 & Hws2 & HP3).
    exists tok2, s2, σ3, w2. by rewrite Hws2.
  - exists tok, s, σ, w. done.
Qed.

Lemma parse_tail_sim_exact σ0 σ tok0 tok w s e kids :
  parsed_exact σ0 σ tok0 tok w (ANode e None INFINITY kids) ->
  sim_parse_exact
    (rbind (tparse_label (w :: words s)) (fun '(l, toks) =>
     rbind (tparse_length toks) (fun '(d, toks) =>
     rbind (rassert (closing (thead toks))) (fun _ =>
     Ok (Node l d (List.map erase kids), toks)))))
    ((let* cur := eTree_parseNewickString_getLabel (tok, s) e in
      let* cur := eTree_parseNewickString_getBranchLength cur e in
      let* w := load_str (fst cur) in
      let c := first_char w in
      assert (Ascii.eqb c "," || Ascii.eqb c ";" || Ascii.eqb c ")");;
      ret (e, cur)) σ)
    σ0 tok0.
Proof.
  intros HP. pose proof (getLabel_sim_exact _ _ _ _ _ s _ _ _ HP) as Hl.
  destruct (tparse_label (w :: words s)) as [[l toks1]| | |]; try done.
  2:{ simpl. by rewrite (bind_Abort _ _ _ Hl). }
  destruct Hl as (lbl & tok1 & s1 & σ1 & w1 & Hgl & -> & <- & HP1).
  rewrite (bind_Ok _ _ _ _ _ Hgl). cbn [rbind].
  pose proof (getBranchLength_sim_exact _ _ _ _ _ s1 _ _ _ HP1) as Hd.
  destruct (tparse_length (w1 :: words s1)) as [[d toks2]| | |]; try done.
  2:{ simpl. by rewrite (bind_Abort _ _ _ Hd). }
  destruct Hd as (tok2 & s2 & σ2 & w2 & Hgd & -> & HP2).
  rewrite (bind_Ok _ _ _ _ _ Hgd). cbn [rbind fst thead].
  rewrite (bind_Ok _ _ _ _ _ (parsed_exact_token _ _ _ _ _ _ HP2)).
  cbv zeta. fold (closing w2). unfold rassert, assert.
  destruct (closing w2); [|done]. simpl.
  exists (ANode e lbl d kids), tok2, s2, σ2, w2. done.
Qed.



Lemma parse_children_sim_exact (pp : list cstr -> result (tree * list cstr))
    (ph : cursor -> M (loc * cursor)) :
  (forall σ tok s w, strs σ !! tok = Some w ->
     sim_parse_exact (pp (w :: words s)) (ph (tok, s) σ) σ tok) ->
  forall k σ0 tok0 σ tok s w e kids,
    parsed_exact σ0 σ tok0 tok w (ANode e None INFINITY kids) ->
    sim_children_exact (tparse_children pp k (w :: words s))
      (parse_children ph e k (tok, s) σ) σ0 tok0 e kids.
Proof.
  intros Hp k. induction k as [|k IH]; intros σ0 tok0 σ tok s w e kids HP; [done|].
  rewrite tparse_children_S, parse_children_S.
  pose proof (proj1 HP) as (_ & _ & _ & _ & _ & Hw & _).
  specialize (Hp σ tok s w Hw).
  destruct (pp (w :: words s)) as [[T toks1]| | |]; simpl in Hp.
  - destruct Hp as (t & tok1 & s1 & σ1 & w1 & Hph & -> & <- & HP1).
    rewrite (bind_Ok _ _ _ _ _ Hph). cbv beta iota.
    destruct (attach_parsed_exact _ _ _ _ _ _ _ _ _ _ _ _ _ HP HP1) as (σ2 & Hset & HP2).
    rewrite (bind_Ok _ _ _ _ _ Hset). cbn [fst rbind thead].
    rewrite (bind_Ok _ _ _ _ _ (parsed_exact_token _ _ _ _ _ _ HP2)).
    unfold rassert, assert. unfold bind at 1.
    destruct (Nat.eqb (length w1) 1); [|done]. cbn [rbind].
    destruct (Ascii.eqb (first_char w1) ",").
    + pose proof (getNextToken_parsed_exact _ _ _ _ _ _ s1 HP2) as Hnext.
      destruct (words s1) as [|w2 ws] eqn:Ews; cbn [tnext rbind].
      { by rewrite (bind_Abort _ _ _ Hnext). }
      destruct Hnext as (tok2 & s2 & σ3 & Hn & Hws & HP3).
      rewrite (bind_Ok _ _ _ _ _ Hn). rewrite <- Hws.
      specialize (IH _ _ _ _ s2 _ _ _ HP3).
      destruct (tparse_children pp k (w2 :: words s2)) as [[rest toks']| | |];
        simpl in IH |- *; try done.
      destruct IH as (kids' & tok' & s' & σ' & w' & Hk & -> & <- & HP').
      exists (t :: kids'), tok', s', σ', w'.
      split; [done|]. split; [done|]. split; [done|].
      by rewrite <- app_assoc in HP'.
    + exists [t], tok1, s1, σ2, w1. done.
  - by rewrite (bind_Abort _ _ _ Hp).
  - done.
  - by rewrite (bind_NoFuel _ _ _ Hp).
Qed.



Lemma eTree_parseNewickStringP_sim_exact f σ0 tok0 s w :
  strs σ0 !! tok0 = Some w ->
  sim_parse_exact (tparseP f (w :: words s)) (eTree_parseNewickStringP f (tok0, s) σ0) σ0 tok0.
Proof.
  revert σ0 tok0 s w. induction f as [|f IH]; intros σ0 tok0 s w Hw; [done|].
  rewrite tparseP_S, eTree_parseNewickStringP_S.
  rewrite (bind_Ok _ _ _ _ _ (eTree_construct_spec σ0)).
  pose proof (construct_parsed_exact σ0 tok0 w Hw) as HP0. cbv zeta in HP0.
  set (e := fresh (dom (trees σ0))) in *.
  set (σ1 := set_trees _ σ0) in *. cbn [fst thead].
  rewrite (bind_Ok _ _ _ _ _ (parsed_exact_token _ _ _ _ _ _ HP0)).
  destruct (Ascii.eqb (first_char w) "(").
  2:{ cbn [rbind]. rewrite (bind_Ok _ _ σ1 (tok0, s) σ1) by done.
      apply (parse_tail_sim_exact σ0 σ1 tok0 tok0 w s e [] HP0). }
  rewrite !bind_assoc. unfold rassert, assert at 1. unfold bind at 1.
  destruct (Nat.eqb (length w) 1); [|done]. cbn [rbind].
  rewrite !bind_assoc.
  pose proof (getNextToken_parsed_exact _ _ _ _ _ _ s HP0) as Hnext.
  destruct (words s) as [|w1 ws] eqn:Ews; cbn [tnext rbind].
  { by rewrite (bind_Abort _ _ _ Hnext). }
  destruct Hnext as (tok1 & s1 & σ2 & Hn & Hws & HP1).
  rewrite (bind_Ok _ _ _ _ _ Hn), <- Hws. rewrite !bind_assoc.
  pose proof (parse_children_sim_exact (tparseP f) (eTree_parseNewickStringP f)
                (fun σ tok s w Hw => IH σ tok s w Hw) f _ _ _ _ s1 _ _ _ HP1) as Hk.
  destruct (tparse_children (tparseP f) f (w1 :: words s1)) as [[Ts toks2]| | |];
    simpl in Hk; cbn [rbind].
  - destruct Hk as (kids & tok2 & s2 & σ3 & w2 & Hpc & -> & <- & HP2).
    rewrite (bind_Ok _ _ _ _ _ Hpc). rewrite !bind_assoc. cbn [fst thead].
    rewrite (bind_Ok _ _ _ _ _ (parsed_exact_token _ _ _ _ _ _ HP2)).
    rewrite !bind_assoc. unfold rassert, assert at 1. unfold bind at 1.
    destruct (Ascii.eqb (first_char w2) ")"); [|done]. cbn [rbind].
    pose proof (getNextToken_parsed_exact _ _ _ _ _ _ s2 HP2) as Hnext2.
    destruct (words s2) as [|w3 ws3] eqn:Ews2; cbn [tnext rbind].
    { by rewrite (bind_Abort _ _ _ Hnext2). }
    destruct Hnext2 as (tok3 & s3 & σ4 & Hn2 & Hws3 & HP3).
    rewrite (bind_Ok _ _ _ _ _ Hn2), <- Hws3.
    apply (parse_tail_sim_exact σ0 σ4 tok0 tok3 w3 s3 e kids HP3).
  - by rewrite (bind_Abort _ _ _ Hk).
  - done.
  - by rewrite (bind_NoFuel _ _ _ Hk).
Qed.

End SimulationExact.

Lemma anodes_below σ par t x :
  repr σ par t -> x ∈ anodes t -> x = aroot t \/ exists k, below σ k (aroot t) x.
Proof.
  revert par. induction t as [a lbl len kids IH] using atree_ind'.
  intros par. rewrite repr_eq, anodes_eq. intros (Ha & _ & Hk).
  intros [->|Hx]%elem_of_cons; [by left|]. right.
  apply elem_of_flat_map in Hx as (k & Hkin & Hx).
  rewrite Forall_forall in IH, Hk.
  assert (Hch : child σ a (aroot k)).
  { exists (mkETree len (List.map aroot kids) (fst <$> lbl) par). split; [done|].
    simpl. apply list_elem_of_In, in_map. by apply list_elem_of_In. }
  destruct (IH k Hkin (Some a) (Hk k Hkin) Hx) as [->|[j Hj]].
  - by exists O.
  - exists (S j), (aroot k). done.
Qed.

Lemma alabels_owner σ par t p :
  repr σ par t -> p ∈ alabels t ->
  exists x N, x ∈ anodes t /\ trees σ !! x = Some N /\ label N = Some p.
Proof.
  revert par. induction t as [a lbl len kids IH] using atree_ind'.
  intros par. rewrite repr_eq, alabels_eq, anodes_eq. intros (Ha & _ & Hk).
  intros [Hp|Hp]%elem_of_app.
  - destruct lbl as [[q s]|]; [|by apply elem_of_nil in Hp].
    apply list_elem_of_singleton in Hp as ->.
    eexists a, _. split; [apply list_elem_of_here|]. split; [done|done].
  - apply elem_of_flat_map in Hp as (k & Hkin & Hp).
    rewrite Forall_forall in IH, Hk.
    destruct (IH k Hkin (Some a) (Hk k Hkin) Hp) as (x & N & Hx & HN & Hl).
    exists x, N. split; [|done]. apply list_elem_of_further.
    apply elem_of_flat_map. eauto.
Qed.

Section WholeExact.
Context `{Libc}.

(** What a successful run leaves: the tree returned, at distinct new
    addresses, and nothing else that was not there before. *)
Lemma eTree_parseNewickString_exact string σ r σ' :
  eTree_parseNewickString string σ = Ok (r, σ') ->
  exists t, aroot t = r /\ repr σ' None t /\
    NoDup (anodes t) /\ NoDup (alabels t) /\
    released σ' σ (anodes t) (alabels t).
Proof.
  intros Hok. unfold eTree_parseNewickString in Hok. cbv zeta in Hok.
  pose proof (string_getNextWord_spec (spaced string) σ) as Hfirst.
  destruct (words (spaced string)) as [|w ws] eqn:Ew.
  { destruct Hfirst as [r0 Hfirst]. by rewrite (bind_Ok _ _ _ _ _ Hfirst) in Hok. }
  destruct Hfirst as (s & Hs & Hfirst). rewrite (bind_Ok _ _ _ _ _ Hfirst) in Hok.
  set (tok := fresh (dom (strs σ))) in *.
  pose proof (is_fresh (dom (strs σ))) as Hfresh. fold tok in Hfresh.
  set (σ1 := set_strs (<[tok := w]> (strs σ)) σ) in *.
  assert (Hw : strs σ1 !! tok = Some w) by (simpl; by rewrite lookup_insert_eq).
  pose proof (eTree_parseNewickStringP_sim_exact (S (length (spaced string))) σ1 tok s w Hw)
    as Hsim.
  rewrite Hs in Hsim.
  pose proof (tparseP_no_fault (S (length (spaced string))) (w :: ws)) as Hfault.
  set (F := S (length (spaced string))) in *.
  destruct (tparseP F (w :: ws)) as [[T toks']| | |]; try done.
  2:{ simpl in Hsim. by rewrite (bind_Abort _ _ _ Hsim) in Hok. }
  2:{ simpl in Hsim. by rewrite (bind_NoFuel _ _ _ Hsim) in Hok. }
  simpl in Hsim.
  destruct Hsim as (t & tok' & s' & σ2 & w' & Hp & -> & <- & [HP HT]).
  rewrite (bind_Ok _ _ _ _ _ Hp) in Hok. cbn [fst thead] in Hok.
  rewrite (bind_Ok _ _ _ _ _ (parsed_token _ _ _ _ _ _ HP)) in Hok.
  unfold assert at 1 in Hok. unfold bind at 1 in Hok.
  destruct (Ascii.eqb (first_char w') ";"); [|done].
  destruct HP as (Hr & Hnd & N1 & F1 & F2 & Hw' & Htok & Hlab).
  destruct HT as (Hndl & Hnew & Dt & Ds).
  assert (Hfree : free tok' σ2 = Ok (tt, set_strs (delete tok' (strs σ2)) σ2)).
  { unfold free. by rewrite Hw'. }
  rewrite (bind_Ok _ _ _ _ _ Hfree) in Hok. injection Hok as <- <-.
  assert (Hd1 : forall p, p ∈ dom (strs σ1) <-> p = tok \/ p ∈ dom (strs σ)).
  { intros p. subst σ1. simpl.
    by rewrite dom_insert_L, elem_of_union, elem_of_singleton. }
  exists t. split; [done|]. split; [|split; [done|split; [done|split]]].
  - eapply repr_frame; [done|done|]. intros p Hp'. simpl.
    rewrite lookup_delete_ne; [done|]. by intros <-.
  - intros x. simpl. destruct (decide (x ∈ anodes t)) as [Hx|Hx].
    + apply not_elem_of_dom. by apply (N1 x).
    + destruct (decide (x ∈ dom (trees σ))) as [Hin|Hout].
      * symmetry. by apply (F1 x).
      * pose proof Hout as Hnone. apply not_elem_of_dom in Hnone.
        rewrite Hnone. symmetry.
        apply not_elem_of_dom. rewrite Dt. intros [Hin|Hin]; [|done].
        by apply Hout.
  - intros p. simpl. destruct (decide (p ∈ alabels t)) as [Hp'|Hp'].
    + apply not_elem_of_dom. intros Hin. apply Hfresh.
      rewrite <- (Hnew p Hp'); [done|]. apply Hd1. by right.
    + destruct (decide (p ∈ dom (strs σ))) as [Hin|Hout].
      * assert (Hpt : p <> tok) by (by intros ->).
        assert (Hp1 : p ∈ dom (strs σ1)) by (apply Hd1; by right).
        rewrite lookup_delete_ne.
        -- rewrite (F2 p Hp1 Hpt). subst σ1. simpl. by rewrite lookup_insert_ne.
        -- intros <-. by apply Hpt, Htok.
      * apply not_elem_of_dom in Hout as Hnone. rewrite Hnone. symmetry.
        destruct (decide (p = tok')) as [->|Hne]; [by rewrite lookup_delete_eq|].
        rewrite lookup_delete_ne by done. apply not_elem_of_dom. rewrite Ds.
        intros [[Hin Hpt]|[?|?]]; [|done|done].
        apply Hd1 in Hin as [?|?]; done.
Qed.

(** X10. Parsing and destructing leak nothing: in the memory the
    parser leaves, [eTree_destruct] of the tree it returned succeeds and
    gives back exactly the memory the parser was started in.  So the
    parser frees every token buffer, the new nodes and labels are all
    owned by the tree, and the caller's memory is never touched. *)
Theorem parse_then_destruct string σ r σ' :
  eTree_parseNewickString string σ = Ok (r, σ') ->
  exists T, tree_at σ' r T /\
    forall fuel, (height T <= fuel)%nat ->
      eTree_destruct fuel r σ' = Ok (tt, σ).
Proof.
  intros Hok.
  apply eTree_parseNewickString_exact in Hok as (t & <- & Hr & Hn & Hl & [Rt Rs]).
  exists (erase t). split.
  - exists (height (erase t)). by apply (repr_read_tree σ' None).
  - intros fuel Hf.
    destruct (eTree_destruct_repr t σ' None fuel Hr Hn Hl Hf) as (σ'' & Hd & [Rt' Rs']).
    rewrite Hd. do 2 f_equal. apply mem_eq; apply map_eq; intros x.
    + by rewrite Rt', Rt.
    + by rewrite Rs', Rs.
Qed.

(** X11. What the parser adds to memory: the root it returns is a new
    address, no node and no buffer that existed before is changed, every
    new node is the root or lies below it, and every new buffer is the
    label of a new node. *)
Theorem parse_allocates_the_tree string σ r σ' :
  eTree_parseNewickString string σ = Ok (r, σ') ->
  (r ∉ dom (trees σ)) /\
  (forall x, x ∈ dom (trees σ) -> trees σ' !! x = trees σ !! x) /\
  (forall p, p ∈ dom (strs σ) -> strs σ' !! p = strs σ !! p) /\
  (forall x, x ∈ dom (trees σ') -> x ∉ dom (trees σ) ->
     x = r \/ exists k, below σ' k r x) /\
  (forall p, p ∈ dom (strs σ') -> p ∉ dom (strs σ) ->
     exists x N, (x ∉ dom (trees σ)) /\ trees σ' !! x = Some N /\ label N = Some p).
Proof.
  intros Hok.
  apply eTree_parseNewickString_exact in Hok as (t & <- & Hr & Hn & Hl & [Rt Rs]).
  assert (Hnew : forall x, x ∈ anodes t -> x ∉ dom (trees σ)).
  { intros x Hx. apply not_elem_of_dom. by rewrite Rt, decide_True. }
  split; [|split; [|split; [|split]]].
  - apply Hnew. destruct t. apply list_elem_of_here.
  - intros x [X HX]%elem_of_dom. specialize (Rt x). rewrite HX in Rt.
    destruct (decide (x ∈ anodes t)); [done|]. by rewrite HX.
  - intros p [s Hs]%elem_of_dom. specialize (Rs p). rewrite Hs in Rs.
    destruct (decide (p ∈ alabels t)); [done|]. by rewrite Hs.
  - intros x [X HX]%elem_of_dom Hout. apply (anodes_below σ' None t x Hr).
    specialize (Rt x). apply not_elem_of_dom in Hout. rewrite Hout in Rt.
    destruct (decide (x ∈ anodes t)); [done|]. congruence.
  - intros p [s Hs]%elem_of_dom Hout.
    assert (Hp : p ∈ alabels t).
    { specialize (Rs p). apply not_elem_of_dom in Hout. rewrite Hout in Rs.
      destruct (decide (p ∈ alabels t)); [done|]. congruence. }
    destruct (alabels_owner σ' None t p Hr Hp) as (x & N & Hx & HN & HlN).
    exists x, N. split; [by apply Hnew|done].
Qed.

End WholeExact.


(** * The parser reads tokens *)

Lemma thead_app toks ext : toks <> [] -> thead (toks ++ ext) = thead toks.
Proof. by destruct toks. Qed.

Lemma tnext_app toks t ext :
  tnext toks = Ok t -> tnext (toks ++ ext) = Ok (t ++ ext) /\ t <> [].
Proof. destruct toks as [|w [|w' r]]; simpl; try done. by intros [= <-]. Qed.

Lemma words_nonspace d r : isspace d = false -> words (d :: r) <> [].
Proof.
  intros Hd. simpl. rewrite Hd. destruct r as [|e r]; [done|].
  destruct (isspace e); [done|]. by destruct (words (e :: r)).
Qed.

(** White space separates words. *)
Lemma words_app_space a c b :
  isspace c = true -> words (a ++ c :: b) = words a ++ words b.
Proof.
  intros Hc. induction a as [|x a IH].
  - simpl. by rewrite Hc.
  - change ((x :: a) ++ c :: b) with (x :: (a ++ c :: b)).
    destruct (isspace x) eqn:Ex.
    { simpl. by rewrite Ex. }
    destruct a as [|d a].
    { simpl. by rewrite Ex, Hc. }
    change (((d :: a) ++ c :: b)) with (d :: (a ++ c :: b)) in *.
    destruct (isspace d) eqn:Ed.
    + change (words (x :: d :: a ++ c :: b)) with
        (if isspace x then words (d :: a ++ c :: b)
         else if isspace d then [x] :: words (d :: a ++ c :: b)
         else match words (d :: a ++ c :: b) with
              | w :: ws => (x :: w) :: ws
              | [] => [[x]]
              end).
      change (words (x :: d :: a)) with
        (if isspace x then words (d :: a)
         else if isspace d then [x] :: words (d :: a)
         else match words (d :: a) with
              | w :: ws => (x :: w) :: ws
              | [] => [[x]]
              end).
      rewrite Ex, Ed, IH. done.
    + change (words (x :: d :: a ++ c :: b)) with
        (if isspace x then words (d :: a ++ c :: b)
         else if isspace d then [x] :: words (d :: a ++ c :: b)
         else match words (d :: a ++ c :: b) with
              | w :: ws => (x :: w) :: ws
              | [] => [[x]]
              end).
      change (words (x :: d :: a)) with
        (if isspace x then words (d :: a)
         else if isspace d then [x] :: words (d :: a)
         else match words (d :: a) with
              | w :: ws => (x :: w) :: ws
              | [] => [[x]]
              end).
      rewrite Ex, Ed, IH.
      pose proof (words_nonspace d a Ed) as Hne.
      by destruct (words (d :: a)).
Qed.

Lemma words_blank s : (forall c, c ∈ s -> isspace c = true) -> words s = [].
Proof.
  induction s as [|c s IH]; intros Hs; [done|]. simpl.
  rewrite (Hs c) by apply list_elem_of_here.
  apply IH. intros d Hd. apply Hs. by apply list_elem_of_further.
Qed.

Lemma spaced_blank s : (forall c, c ∈ s -> isspace c = true) -> spaced s = s.
Proof.
  intros Hs. rewrite spaced_flat_map.
  induction s as [|c s IH]; [done|]. simpl. rewrite IH.
  2:{ intros d Hd. apply Hs. by apply list_elem_of_further. }
  unfold space_out. destruct (structural c) eqn:Ec; [|done].
  apply structural_not_space in Ec. rewrite (Hs c) in Ec; [done|apply list_elem_of_here].
Qed.

Section TokenStability.
Context `{Libc}.

Lemma tparse_label_app toks l t ext :
  toks <> [] -> tparse_label toks = Ok (l, t) ->
  tparse_label (toks ++ ext) = Ok (l, t ++ ext) /\ t <> [].
Proof.
  intros Hne. unfold tparse_label. rewrite (thead_app toks ext Hne).
  destruct (labelling (thead toks)).
  - destruct (tnext toks) as [t1| | |] eqn:En; simpl; try done.
    intros [= <- <-]. destruct (tnext_app _ _ ext En) as [-> Hne1]. done.
  - by intros [= <- <-].
Qed.

Lemma tparse_length_app toks d t ext :
  toks <> [] -> tparse_length toks = Ok (d, t) ->
  tparse_length (toks ++ ext) = Ok (d, t ++ ext) /\ t <> [].
Proof.
  intros Hne. unfold tparse_length. rewrite (thead_app toks ext Hne).
  destruct (Ascii.eqb (first_char (thead toks)) ":").
  - destruct (tnext toks) as [t1| | |] eqn:En; simpl; try done.
    destruct (tnext_app _ _ ext En) as [-> Hne1]. simpl.
    rewrite (thead_app t1 ext Hne1).
    destruct (sscanf_lf (thead t1)) as [d'|]; [|done].
    destruct (tnext t1) as [t2| | |] eqn:En2; simpl; try done.
    intros [= <- <-]. destruct (tnext_app _ _ ext En2) as [-> Hne2]. done.
  - by intros [= <- <-].
Qed.

Lemma tparse_children_app ext (p : list cstr -> result (tree * list cstr)) :
  (forall toks T t, toks <> [] -> p toks = Ok (T, t) ->
     p (toks ++ ext) = Ok (T, t ++ ext) /\ t <> []) ->
  forall k toks Ts t, toks <> [] ->
    tparse_children p k toks = Ok (Ts, t) ->
    tparse_children p k (toks ++ ext) = Ok (Ts, t ++ ext) /\ t <> [].
Proof.
  intros Hp k. induction k as [|k IH]; intros toks Ts t Hne Hr; [done|].
  rewrite tparse_children_S in Hr |- *.
  destruct (p toks) as [[c toks1]| | |] eqn:Ep; cbn [rbind] in Hr; try done.
  destruct (Hp _ _ _ Hne Ep) as [Ep' Hne1]. rewrite Ep'. cbn [rbind].
  rewrite (thead_app toks1 ext Hne1). unfold rassert in *.
  destruct (Nat.eqb (length (thead toks1)) 1); cbn [rbind] in Hr |- *; [|done].
  destruct (Ascii.eqb (first_char (thead toks1)) ",").
  - destruct (tnext toks1) as [toks2| | |] eqn:En; cbn [rbind] in Hr; try done.
    destruct (tnext_app _ _ ext En) as [En' Hne2]. rewrite En'. cbn [rbind].
    destruct (tparse_children p k toks2) as [[rest toks3]| | |] eqn:Ek;
      cbn [rbind] in Hr; try done.
    injection Hr as <- <-. destruct (IH _ _ _ Hne2 Ek) as [Ek' Hne3].
    rewrite Ek'. done.
  - injection Hr as <- <-. done.
Qed.

(** A successful run reads a prefix of the tokens: more tokens at the
    end change nothing. *)
Lemma tparseP_app ext f :
  forall toks T t, toks <> [] -> tparseP f toks = Ok (T, t) ->
    tparseP f (toks ++ ext) = Ok (T, t ++ ext) /\ t <> [].
Proof.
  induction f as [|f IH]; intros toks T t Hne Hr; [done|].
  rewrite tparseP_S in Hr |- *. rewrite (thead_app toks ext Hne).
  set (first := if Ascii.eqb (first_char (thead toks)) "(" then _ else _) in Hr.
  destruct first as [[kids toks1]| | |] eqn:Efirst; cbn [rbind] in Hr; try done.
  assert (Hfirst :
    (if Ascii.eqb (first_char (thead toks)) "("
     then
       rbind (rassert (Nat.eqb (length (thead toks)) 1)) (fun _ =>
       rbind (tnext (toks ++ ext)) (fun toks =>
       rbind (tparse_children (tparseP f) f toks) (fun '(kids, toks) =>
       rbind (rassert (Ascii.eqb (first_char (thead toks)) ")")) (fun _ =>
       rbind (tnext toks) (fun toks => Ok (kids, toks))))))
     else Ok ([], toks ++ ext)) = Ok (kids, toks1 ++ ext) /\ toks1 <> []).
  { subst first. destruct (Ascii.eqb (first_char (thead toks)) "(").
    2:{ by injection Efirst as <- <-. }
    unfold rassert in *.
    destruct (Nat.eqb (length (thead toks)) 1); cbn [rbind] in Efirst |- *; [|done].
    destruct (tnext toks) as [t1| | |] eqn:En; cbn [rbind] in Efirst; try done.
    destruct (tnext_app _ _ ext En) as [-> Hne1]. cbn [rbind].
    destruct (tparse_children (tparseP f) f t1) as [[ks t2]| | |] eqn:Ek;
      cbn [rbind] in Efirst; try done.
    destruct (tparse_children_app ext (tparseP f) IH f _ _ _ Hne1 Ek) as [-> Hne2].
    cbn [rbind]. rewrite (thead_app t2 ext Hne2).
    destruct (Ascii.eqb (first_char (thead t2)) ")"); cbn [rbind] in Efirst |- *; [|done].
    destruct (tnext t2) as [t3| | |] eqn:En3; cbn [rbind] in Efirst; try done.
    destruct (tnext_app _ _ ext En3) as [-> Hne3]. cbn [rbind].
    by injection Efirst as <- <-. }
  destruct Hfirst as [-> Hne1]. cbn [rbind].
  destruct (tparse_label toks1) as [[l toks2]| | |] eqn:El; cbn [rbind] in Hr; try done.
  destruct (tparse_label_app _ _ _ ext Hne1 El) as [-> Hne2]. cbn [rbind].
  destruct (tparse_length toks2) as [[d toks3]| | |] eqn:Ed; cbn [rbind] in Hr; try done.
  destruct (tparse_length_app _ _ _ ext Hne2 Ed) as [-> Hne3]. cbn [rbind].
  rewrite (thead_app toks3 ext Hne3). unfold rassert in *.
  destruct (closing (thead toks3)); cbn [rbind] in Hr |- *; [|done].
  by injection Hr as <- <-.
Qed.

(** The outcome of [eTree_parseNewickString], from the tokens alone. *)
Lemma eTree_parseNewickString_tokens string σ :
  let toks := words (spaced string) in
  match toks with
  | [] => eTree_parseNewickString string σ = Abort
  | _ :: _ =>
      match tparseP (S (length toks)) toks with
      | Ok (T, toks') =>
          if Ascii.eqb (first_char (thead toks')) ";"
          then exists r σ', eTree_parseNewickString string σ = Ok (r, σ') /\
                            tree_at σ' r T
          else eTree_parseNewickString string σ = Abort
      | _ => eTree_parseNewickString string σ = Abort
      end
  end.
Proof.
  intros toks. pose proof (eTree_parseNewickString_spec string σ) as Hs.
  pose proof (length_words (spaced string)) as Hlen. fold toks in Hs, Hlen.
  destruct toks as [|w ws] eqn:Et; [done|].
  rewrite (tparseP_mono (S (length (w :: ws))) (S (length (spaced string)))) in Hs;
    [|lia|by apply tparseP_fuel].
  destruct (tparseP (S (length (w :: ws))) (w :: ws)) as [[T toks']| | |]; try done.
  destruct (Ascii.eqb (first_char (thead toks')) ";"); [|done].
  destruct Hs as (t & σ' & Hok & <- & Hr & _).
  exists (aroot t), σ'. split; [done|].
  exists (height (erase t)). by apply (repr_read_tree σ' None).
Qed.

(** X12. The parser sees its argument only through the tokens: two
    texts with the same tokens once the structural characters are
    spaced out (so, texts that differ in white space between tokens)
    both abort or both give the same tree, whatever the memories. *)
Theorem parse_depends_on_tokens string1 string2 σ1 σ2 :
  words (spaced string1) = words (spaced string2) ->
  (eTree_parseNewickString string1 σ1 = Abort <->
   eTree_parseNewickString string2 σ2 = Abort) /\
  (forall r1 σ1', eTree_parseNewickString string1 σ1 = Ok (r1, σ1') ->
     exists r2 σ2' T,
       eTree_parseNewickString string2 σ2 = Ok (r2, σ2') /\
       tree_at σ1' r1 T /\ tree_at σ2' r2 T).
Proof.
  intros Heq.
  pose proof (eTree_parseNewickString_tokens string1 σ1) as H1.
  pose proof (eTree_parseNewickString_tokens string2 σ2) as H2.
  cbv zeta in H1, H2. rewrite <- Heq in H2.
  destruct (words (spaced string1)) as [|w ws].
  { rewrite H1, H2. split; [done|]. intros; discriminate. }
  destruct (tparseP _ _) as [[T toks']| | |].
  2-4: (rewrite H1, H2; split; [done|]; intros; discriminate).
  destruct (Ascii.eqb _ _).
  2:{ rewrite H1, H2. split; [done|]. intros; discriminate. }
  destruct H1 as (r1 & σ1' & Hok1 & HT1). destruct H2 as (r2 & σ2' & Hok2 & HT2).
  rewrite Hok1, Hok2. split; [done|].
  intros ? ? [= <- <-]. exists r2, σ2', T. done.
Qed.

(** X13. Nothing after the terminating [";"] is read: when a text
    parses, every text whose tokens continue its tokens parses to the
    same tree; in particular any text appended after a white space
    character changes nothing. *)
Theorem parse_ignores_rest string σ r σ' :
  eTree_parseNewickString string σ = Ok (r, σ') ->
  exists T, tree_at σ' r T /\
    (forall string2 ext σ2,
       words (spaced string2) = words (spaced string) ++ ext ->
       exists r2 σ2', eTree_parseNewickString string2 σ2 = Ok (r2, σ2') /\
                      tree_at σ2' r2 T) /\
    (forall c rest σ2, isspace c = true ->
       exists r2 σ2', eTree_parseNewickString (string ++ c :: rest) σ2 = Ok (r2, σ2') /\
                      tree_at σ2' r2 T).
Proof.
  intros Hok. pose proof (eTree_parseNewickString_tokens string σ) as H1.
  cbv zeta in H1.
  destruct (words (spaced string)) as [|w ws] eqn:Ew; [congruence|].
  destruct (tparseP _ _) as [[T toks']| | |] eqn:Ep; try congruence.
  destruct (Ascii.eqb _ _) eqn:Esemi; [|congruence].
  destruct H1 as (r1 & σ1' & Hok1 & HT1).
  rewrite Hok in Hok1. injection Hok1 as <- <-.
  assert (Hext : forall string2 ext σ2,
    words (spaced string2) = (w :: ws) ++ ext ->
    exists r2 σ2', eTree_parseNewickString string2 σ2 = Ok (r2, σ2') /\
                   tree_at σ2' r2 T).
  { intros string2 ext σ2 Hw2.
    pose proof (eTree_parseNewickString_tokens string2 σ2) as H2.
    cbv zeta in H2. rewrite Hw2 in H2.
    destruct (tparseP_app ext _ (w :: ws) T toks' ltac:(done) Ep) as [Ep' Hne].
    change ((w :: ws) ++ ext) with (w :: (ws ++ ext)) in *.
    rewrite (tparseP_mono (S (length (w :: ws))) (S (length (w :: ws ++ ext)))) in H2.
    2:{ simpl. rewrite length_app. lia. }
    2:{ rewrite Ep'. done. }
    rewrite Ep' in H2. rewrite (thead_app toks' ext Hne), Esemi in H2. done. }
  exists T. split; [done|]. split; [done|].
  intros c rest σ2 Hc. apply (Hext _ (words (spaced rest))).
  rewrite spaced_app, spaced_cons, spaced_plain.
  2:{ destruct (structural c) eqn:Ec; [|done].
      apply structural_not_space in Ec. congruence. }
  rewrite <- Ew. by apply (words_app_space (spaced string) c (spaced rest)).
Qed.

(** X14. A text without any token (empty, or white space only) makes
    the parser fail its assertion. *)
Theorem parse_blank_aborts string σ :
  (forall c, c ∈ string -> isspace c = true) ->
  eTree_parseNewickString string σ = Abort.
Proof.
  intros Hs. pose proof (eTree_parseNewickString_spec string σ) as Hp.
  by rewrite (spaced_blank string Hs), (words_blank string Hs) in Hp.
Qed.

End TokenStability.


(** * Writing what the parser has read *)

Lemma labels_as_parsed_eq l d kids :
  labels_as_parsed (Node l d kids) <->
  (match l with
   | Some s => clean s \/ (s = cs "(" /\ kids <> [])
   | None => True
   end) /\ Forall labels_as_parsed kids.
Proof.
  simpl. apply and_iff_compat_l.
  induction kids as [|k kids IH]; [split; [constructor|done]|].
  rewrite Forall_cons, <- IH. done.
Qed.

Lemma proper_label w :
  proper_token w -> labelling w = true -> clean w \/ w = cs "(".
Proof.
  intros [[Hne [(c & Hc & ->)|Hw]] Hsp] Hl.
  - right. unfold labelling in Hl. simpl in Hl. unfold structural in Hc.
    destruct (Ascii.eqb_spec c "(") as [->|_]; [done|].
    destruct (Ascii.eqb c ")"), (Ascii.eqb c ":"), (Ascii.eqb c ","), (Ascii.eqb c ";");
      simpl in *; done.
  - left. split; [done|]. intros c Hc. split; [by apply Hsp|by apply Hw].
Qed.

Lemma proper_tokens s : Forall proper_token (words (spaced s)).
Proof.
  pose proof (tokens_ok s) as Hok. rewrite Forall_forall in Hok.
  apply Forall_forall. intros w Hw. split; [by apply Hok|].
  by apply (words_proper (spaced s) w).
Qed.

Section WriteAgain.
Context `{Libc}.

Lemma lengths_print_eq l d kids :
  lengths_print (Node l d kids) <->
  (double_ne d INFINITY = true ->
     clean (printf_f d) /\ exists d', sscanf_lf (printf_f d) = Some d') /\
  Forall lengths_print kids.
Proof.
  simpl. apply and_iff_compat_l.
  induction kids as [|k kids IH]; [split; [constructor|done]|].
  rewrite Forall_cons, <- IH. done.
Qed.

Lemma tparse_label_inv_some toks s toks' :
  tparse_label toks = Ok (Some s, toks') ->
  s = thead toks /\ labelling s = true /\ toks <> [].
Proof.
  unfold tparse_label. destruct (labelling (thead toks)) eqn:El; [|done].
  destruct (tnext toks) as [t1| | |] eqn:En; simpl; try done.
  intros [= <- <-]. apply tnext_inv in En as (w & -> & _). done.
Qed.

Lemma Forall_thead (P : cstr -> Prop) toks : toks <> [] -> Forall P toks -> P (thead toks).
Proof. destruct toks; [done|]. by intros _ [? _]%Forall_cons. Qed.

Lemma tparse_children_labels (p : list cstr -> result (tree * list cstr)) :
  (forall toks T toks', p toks = Ok (T, toks') -> read_as T toks toks') ->
  (forall toks T toks', p toks = Ok (T, toks') ->
     Forall proper_token toks -> labels_as_parsed T) ->
  forall k toks kids toks',
    tparse_children p k toks = Ok (kids, toks') ->
    Forall proper_token toks -> Forall labels_as_parsed kids.
Proof.
  intros Hinv Hp k. induction k as [|k IH]; intros toks kids toks' Hr Hok; [done|].
  rewrite tparse_children_S in Hr.
  destruct (p toks) as [[c toks1]| | |] eqn:Ep; cbn [rbind] in Hr; try done.
  pose proof (Hp _ _ _ Ep Hok) as Hc.
  destruct (Hinv _ _ _ Ep) as (pre1 & -> & _).
  unfold rassert in Hr.
  destruct (Nat.eqb (length (thead toks1)) 1); cbn [rbind] in Hr; [|done].
  destruct (Ascii.eqb (first_char (thead toks1)) ",").
  - destruct (tnext toks1) as [toks2| | |] eqn:En; cbn [rbind] in Hr; try done.
    destruct (tparse_children p k toks2) as [[rest toks3]| | |] eqn:Ek;
      cbn [rbind] in Hr; try done.
    injection Hr as <- <-. apply tnext_inv in En as (w & -> & _).
    constructor; [done|]. apply (IH _ _ _ Ek).
    apply Forall_app_r in Hok. by apply Forall_cons in Hok as [_ ?].
  - injection Hr as <- <-. by constructor.
Qed.

(** The labels of a tree the parser returns. *)
Lemma tparseP_labels f :
  forall toks T toks',
    tparseP f toks = Ok (T, toks') ->
    Forall proper_token toks -> labels_as_parsed T.
Proof.
  induction f as [|f IH]; intros toks T toks' Hr Hok; [done|].
  rewrite tparseP_S in Hr.
  destruct (Ascii.eqb (first_char (thead toks)) "(") eqn:Eopen.
  - unfold rassert in Hr.
    destruct (Nat.eqb (length (thead toks)) 1); cbn [rbind] in Hr; [|done].
    destruct (tnext toks) as [toks1| | |] eqn:En; cbn [rbind] in Hr; try done.
    destruct (tparse_children (tparseP f) f toks1) as [[kids toks2]| | |] eqn:Ek;
      cbn [rbind] in Hr; try done.
    destruct (Ascii.eqb (first_char (thead toks2)) ")"); cbn [rbind] in Hr; [|done].
    destruct (tnext toks2) as [toks3| | |] eqn:En2; cbn [rbind] in Hr; try done.
    destruct (tparse_label toks3) as [[l toks4]| | |] eqn:El; cbn [rbind] in Hr; try done.
    destruct (tparse_length toks4) as [[d toks5]| | |] eqn:Ed; cbn [rbind] in Hr; try done.
    destruct (closing (thead toks5)); cbn [rbind] in Hr; [|done].
    injection Hr as <- <-.
    apply tnext_inv in En as (w & -> & _).
    apply Forall_cons in Hok as [_ Hok1].
    pose proof (tparse_children_labels _ (tparseP_inv f) IH _ _ _ _ Ek Hok1) as Hkids.
    destruct (tparse_children_inv _ (tparseP_inv f) _ _ _ _ Ek)
      as (k1 & ks & pre1 & -> & -> & _).
    apply tnext_inv in En2 as (w2 & -> & _).
    apply Forall_app_r in Hok1. apply Forall_cons in Hok1 as [_ Hok3].
    apply labels_as_parsed_eq. split; [|done].
    destruct l as [s|]; [|done].
    apply tparse_label_inv_some in El as (-> & Hlab & Hne).
    destruct (proper_label _ (Forall_thead _ _ Hne Hok3) Hlab) as [?|?]; [by left|].
    right. done.
  - cbn [rbind] in Hr.
    destruct (tparse_label toks) as [[l toks4]| | |] eqn:El; cbn [rbind] in Hr; try done.
    destruct (tparse_length toks4) as [[d toks5]| | |] eqn:Ed; cbn [rbind] in Hr; try done.
    unfold rassert in Hr.
    destruct (closing (thead toks5)); cbn [rbind] in Hr; [|done].
    injection Hr as <- <-.
    apply labels_as_parsed_eq. split; [|constructor].
    destruct l as [s|]; [|done].
    apply tparse_label_inv_some in El as (-> & Hlab & Hne).
    destruct (proper_label _ (Forall_thead _ _ Hne Hok) Hlab) as [?|Heq]; [by left|].
    rewrite Heq in Eopen. done.
Qed.

Lemma tparse_tail_tokens_lab l d x rest kids :
  match l with Some s => labelling s = true | None => True end ->
  (double_ne d INFINITY = true -> exists d', sscanf_lf (printf_f d) = Some d') ->
  terminator x ->
  rbind (tparse_label (label_tokens l ++ length_tokens d ++ x :: rest))
    (fun '(l, toks) =>
     rbind (tparse_length toks) (fun '(d, toks) =>
     rbind (rassert (closing (thead toks))) (fun _ =>
     Ok (Node l d kids, toks)))) =
  Ok (Node l (reread_length d) kids, x :: rest).
Proof.
  intros Hl Hd Hx.
  pose proof (terminator_facts x Hx) as (Hx1 & Hx2 & Hx3 & Hx4 & Hx5).
  assert (Hlen :
    rbind (tparse_length (length_tokens d ++ x :: rest)) (fun '(d, toks) =>
    rbind (rassert (closing (thead toks))) (fun _ =>
    Ok (Node l d kids, toks))) = Ok (Node l (reread_length d) kids, x :: rest)).
  { unfold length_tokens, reread_length.
    destruct (double_ne d INFINITY) eqn:Ed.
    - destruct (Hd eq_refl) as [d' Hd']. rewrite Hd'.
      change ([cs ":"; printf_f d] ++ x :: rest) with (cs ":" :: printf_f d :: x :: rest).
      rewrite (tparse_length_Some _ d') by done. simpl. by rewrite Hx4.
    - rewrite tparse_length_None by done. simpl. by rewrite Hx4. }
  destruct l as [s|].
  - change (label_tokens (Some s) ++ length_tokens d ++ x :: rest)
      with (s :: (length_tokens d ++ x :: rest)).
    rewrite tparse_label_Some; [done|done|].
    by destruct (length_tokens d).
  - change (label_tokens None ++ length_tokens d ++ x :: rest)
      with (length_tokens d ++ x :: rest).
    rewrite tparse_label_None; [done|].
    unfold length_tokens. by destruct (double_ne d INFINITY).
Qed.

Lemma words_label_lab l r :
  match l with Some s => clean s \/ s = cs "(" | None => True end -> boundary r ->
  words (spaced (write_label l) ++ r) = label_tokens l ++ words r.
Proof.
  intros Hl Hr. destruct l as [s|]; [|done]. simpl.
  destruct Hl as [Hc| ->]; [by apply words_clean|].
  by apply (words_structural "(" r).
Qed.

Lemma reads_back_parsed t : labels_as_parsed t -> lengths_print t -> reads_back t.
Proof.
  induction t as [l d kids IH] using tree_ind'. intros Hlp Hdp x rest f Hx Hf.
  apply labels_as_parsed_eq in Hlp as [Hl Hlk].
  apply lengths_print_eq in Hdp as [Hd Hdk].
  assert (Hd' : double_ne d INFINITY = true ->
                exists d', sscanf_lf (printf_f d) = Some d').
  { intros Hne. by destruct (Hd Hne) as [_ ?]. }
  assert (Hlab : match l with Some s => labelling s = true | None => True end).
  { destruct l as [s|]; [|done].
    destruct Hl as [Hc|[-> _]]; [by apply clean_labelling|done]. }
  rewrite size_eq in Hf. destruct f as [|f]; [lia|].
  rewrite tparseP_S, tree_tokens_eq, reread_eq.
  destruct kids as [|k kids].
  - change (([] ++ label_tokens l ++ length_tokens d) ++ x :: rest)
      with ((label_tokens l ++ length_tokens d) ++ x :: rest).
    rewrite <- app_assoc. rewrite (tail_not_open l d x rest).
    + cbn [rbind]. by apply tparse_tail_tokens_lab.
    + destruct l as [s|]; [|done]. by destruct Hl as [?|[_ ?]].
    + done.
  - replace ((([cs "("] ++ join_tokens (List.map tree_tokens (k :: kids)) ++ [cs ")"])
               ++ label_tokens l ++ length_tokens d) ++ x :: rest)
      with (cs "(" :: (join_tokens (List.map tree_tokens (k :: kids)) ++
              cs ")" :: (label_tokens l ++ length_tokens d ++ x :: rest)))
      by list_assoc.
    set (toks1 := join_tokens _ ++ _).
    cbn [thead first_char cs list_ascii_of_string length Nat.eqb rassert].
    change (Ascii.eqb "(" "(") with true. cbv iota. cbn [rbind].
    rewrite tnext_cons by (subst toks1; by destruct (join_tokens _)).
    cbn [rbind]. subst toks1.
    pose proof (list_sum_bounds (k :: kids)) as [Hb1 Hb2].
    rewrite (tparse_children_tokens f (k :: kids)); [| |done| |lia].
    + cbn [rbind thead first_char cs list_ascii_of_string rassert].
      change (Ascii.eqb ")" ")") with true. cbv iota. cbn [rbind].
      rewrite tnext_cons
        by (destruct l; [done|]; unfold length_tokens;
            by destruct (double_ne d INFINITY)).
      cbn [rbind]. by apply tparse_tail_tokens_lab.
    + apply Forall_forall. intros c Hc.
      rewrite Forall_forall in IH, Hlk, Hdk. by apply IH; [|apply Hlk|apply Hdk].
    + eapply Forall_impl; [exact Hb2|]. intros c Hc. cbv beta in Hc. lia.
Qed.

Lemma tokenizes_parsed t : labels_as_parsed t -> lengths_print t -> tokenizes t.
Proof.
  induction t as [l d kids IH] using tree_ind'. intros Hlp Hdp r Hb.
  apply labels_as_parsed_eq in Hlp as [Hl Hlk].
  apply lengths_print_eq in Hdp as [Hd Hdk].
  assert (Hd' : double_ne d INFINITY = true -> clean (printf_f d)).
  { intros Hne. by destruct (Hd Hne) as [? _]. }
  assert (Hl' : match l with Some s => clean s \/ s = cs "(" | None => True end).
  { destruct l as [s|]; [|done]. destruct Hl as [?|[? _]]; auto. }
  destruct (words_length d r Hd' Hb) as [Hwl Hbl].
  rewrite write_tree_eq, tree_tokens_eq, !spaced_app, <- !app_assoc.
  assert (Htail : words (spaced (write_label l) ++ spaced (write_length d) ++ r) =
                  label_tokens l ++ length_tokens d ++ words r).
  { rewrite words_label_lab by done. by rewrite Hwl. }
  destruct kids as [|k kids]; [done|].
  unfold write_kids. change (List.map write_tree (k :: kids))
    with (write_tree k :: List.map write_tree kids).
  cbv iota. change (cs "(") with ["("%char]. change (cs ")") with [")"%char].
  rewrite !spaced_app, <- !app_assoc.
  rewrite words_structural by done.
  change (write_tree k :: List.map write_tree kids)
    with (List.map write_tree (k :: kids)).
  rewrite words_join.
  - rewrite words_structural by done. rewrite Htail. list_assoc.
  - apply Forall_forall. intros c Hc.
    rewrite Forall_forall in IH, Hlk, Hdk. by apply IH; [|apply Hlk|apply Hdk].
  - by apply boundary_spaced_structural.
Qed.

Lemma eTree_parseNewickString_rewritten T σ0 :
  labels_as_parsed T -> lengths_print T ->
  exists r σ',
    eTree_parseNewickString (write_tree T ++ cs ";") σ0 = Ok (r, σ') /\
    tree_at σ' r (reread T).
Proof.
  intros HL HD.
  pose proof (eTree_parseNewickString_spec (write_tree T ++ cs ";") σ0) as Hs.
  assert (Htoks : words (spaced (write_tree T ++ cs ";")) = tree_tokens T ++ [cs ";"]).
  { rewrite spaced_app. rewrite (tokenizes_parsed T HL HD); [|done].
    f_equal. }
  rewrite Htoks in Hs.
  set (F := S (length (spaced (write_tree T ++ cs ";")))) in *.
  assert (Hp : tparseP F (tree_tokens T ++ [cs ";"]) = Ok (reread T, [cs ";"])).
  { pose proof (reads_back_parsed T HL HD (cs ";") []) as Hrb.
    destruct (Nat.le_gt_cases (size T) F) as [Hle|Hgt].
    - apply Hrb; [by right; right|done].
    - rewrite <- (tparseP_mono F (size T)); [|lia|].
      + apply Hrb; [by right; right|done].
      + apply tparseP_fuel. rewrite <- Htoks. apply length_words. }
  destruct (tree_tokens T ++ [cs ";"]) as [|w ws] eqn:Ew.
  { by destruct (tree_tokens T). }
  rewrite Hp in Hs. simpl in Hs.
  destruct Hs as (t & σ' & Hok & He & Hr & _).
  exists (aroot t), σ'. split; [done|].
  exists (height (erase t)). rewrite <- He. by apply (repr_read_tree σ' None).
Qed.

Lemma readable_lengths_print t : readable t -> lengths_print t.
Proof.
  induction t as [l d kids IH] using tree_ind'. intros Hr.
  pose proof (readable_kids _ _ _ Hr) as Hrk. destruct Hr as (_ & Hd & _).
  apply lengths_print_eq. split; [done|].
  rewrite Forall_forall in IH, Hrk. apply Forall_forall. intros k Hk.
  by apply IH, Hrk.
Qed.

(** The tree at an address is the one that sits there. *)
Lemma read_tree_repr σ f :
  forall t par T, repr σ par t -> read_tree f σ (aroot t) = Some T -> T = erase t.
Proof.
  induction f as [|f IH]; [done|]. intros [a lbl len kids] par [l d ks] Hr Hread.
  simpl aroot in Hread. apply read_tree_inv in Hread as (N & HN & Hd & Hl & Hk).
  apply repr_eq in Hr as (Ha & Hlbl & Hkr).
  rewrite Ha in HN. injection HN as <-. simpl in Hd, Hl, Hk.
  rewrite erase_eq. f_equal.
  - destruct lbl as [[p s]|]; simpl in *; [|done].
    destruct Hl as (s' & Hs' & ->). congruence.
  - done.
  - apply Forall2_fmap_l in Hk. clear Ha.
    induction Hk as [|t k ts ks' Htk _ IHk]; [done|].
    apply Forall_cons in Hkr as [Hrt Hkr]. simpl. f_equal; [|by apply IHk].
    apply read_child_inv in Htk. by apply (IH t (Some a)).
Qed.

(** X15. Writing what was parsed and parsing it again: the tree the
    parser returns is written by [eTree_getNewickTreeString] as its
    Newick text, and when its set branch lengths print under ["%f"] as
    words that [sscanf] converts, that text parses, in any memory, to
    the same topology and labels, every set length being the value read
    back from its ["%f"] text. *)
Theorem write_then_parse_again string σ r σ' T :
  eTree_parseNewickString string σ = Ok (r, σ') ->
  tree_at σ' r T -> lengths_print T ->
  (forall fuel, (height T <= fuel)%nat ->
     eTree_getNewickTreeString fuel r σ' = Ok (write_tree T ++ cs ";", σ')) /\
  (forall σ2, exists r2 σ2',
     eTree_parseNewickString (write_tree T ++ cs ";") σ2 = Ok (r2, σ2') /\
     tree_at σ2' r2 (reread T)).
Proof.
  intros Hok [f0 HT] HD. pose proof (eTree_parseNewickString_spec string σ) as Hs.
  pose proof (proper_tokens string) as Htok.
  destruct (words (spaced string)) as [|w ws]; [congruence|].
  destruct (tparseP _ _) as [[T' toks']| | |] eqn:Ep; try congruence.
  destruct (Ascii.eqb _ _); [|congruence].
  destruct Hs as (t & σ1 & Hp & <- & Hr & _).
  rewrite Hok in Hp. injection Hp as -> ->.
  pose proof (read_tree_repr σ1 f0 t None T Hr HT) as ->.
  split.
  - intros fuel Hf. unfold eTree_getNewickTreeString.
    by rewrite (bind_Ok _ _ _ _ _
      (eTree_getNewickTreeStringP_spec _ _ _ _ HT fuel Hf)).
  - intros σ2. apply eTree_parseNewickString_rewritten; [|done].
    by apply (tparseP_labels _ _ _ _ Ep).
Qed.

End WriteAgain.


(** * Trees built through the interface *)

(** ** Labels stay owned *)

Lemma eTree_setLabel_inv_strs σ n l u σ' :
  eTree_setLabel n l σ = Ok (u, σ') ->
  exists N, trees σ !! n = Some N /\
    (forall l0, label N = Some l0 -> is_Some (strs σ !! l0)) /\
    let live := match label N with Some l0 => delete l0 (strs σ) | None => strs σ end in
    match l with
    | None =>
        σ' = mkMem (<[n := mkETree (branchLength N) (nodes N) None (parent N)]> (trees σ))
                   live
    | Some s =>
        exists c, live !! s = Some c /\
          σ' = mkMem (<[n := mkETree (branchLength N) (nodes N)
                                 (Some (fresh (dom live))) (parent N)]> (trees σ))
                     (<[fresh (dom live) := c]> live)
    end.
Proof.
  unfold eTree_setLabel. intros H.
  apply bind_inv in H as ([] & σ1 & H1 & H).
  apply bind_inv in H1 as (N & ? & [HN ->]%load_inv & H1).
  exists N. split; [done|].
  set (live := match label N with Some l0 => delete l0 (strs σ) | None => strs σ end).
  assert (Hσ1 : σ1 = mkMem (trees σ) live /\
                forall l0, label N = Some l0 -> is_Some (strs σ !! l0)).
  { subst live. destruct (label N) as [l0|].
    - unfold free in H1. destruct (strs σ !! l0) eqn:E0; [|discriminate].
      injection H1 as <-. split; [done|]. intros ? [= <-]. eauto.
    - injection H1 as <-. split; [by destruct σ|]. intros ? [=]. }
  destruct Hσ1 as [-> Hold]. split; [done|]. cbv zeta.
  apply bind_inv in H as (l' & σ2 & H2 & H).
  destruct l as [s|].
  - apply bind_inv in H2 as (c & σc & Hc & [= <- <-]).
    unfold stringCopy in Hc. apply bind_inv in Hc as (w & ? & Hw & Hc).
    apply load_str_inv in Hw as [Hw ->]. simpl in Hw.
    unfold alloc_str in Hc. injection Hc as <- <-. simpl in H.
    apply bind_inv in H as (N2 & ? & [HN2 ->]%load_inv & H).
    apply store_inv in H as [_ ->]. simpl in HN2.
    rewrite HN in HN2. injection HN2 as <-.
    exists w. done.
  - injection H2 as <- <-.
    apply bind_inv in H as (N2 & ? & [HN2 ->]%load_inv & H).
    apply store_inv in H as [_ ->]. simpl in HN2.
    rewrite HN in HN2. injection HN2 as <-. done.
Qed.

(** A change of one node that keeps its label, or of the links only,
    keeps the labels owned. *)
Lemma labels_owned_same σ σ' :
  strs σ' = strs σ ->
  (forall x, label <$> trees σ' !! x = label <$> trees σ !! x \/
             (trees σ !! x = None /\ label <$> trees σ' !! x = Some None)) ->
  labels_owned σ -> labels_owned σ'.
Proof.
  intros Hs Ht Ho.
  assert (Hback : forall x N l, trees σ' !! x = Some N -> label N = Some l ->
            exists X, trees σ !! x = Some X /\ label X = Some l).
  { intros x N l HN Hl. destruct (Ht x) as [Hx|[_ Hx]]; rewrite HN in Hx; simpl in Hx.
    - destruct (trees σ !! x) as [X|]; [|done]. injection Hx as Hx.
      exists X. split; [done|congruence].
    - congruence. }
  intros x N l HN Hl. destruct (Hback x N l HN Hl) as (X & HX & HlX).
  destruct (Ho x X l HX HlX) as [Hlive Huniq]. split; [by rewrite Hs|].
  intros y N' HN' Hl'. destruct (Hback y N' l HN' Hl') as (Y & HY & HlY).
  by apply (Huniq y Y).
Qed.

Lemma run_op_labels_owned o σ σ' :
  run_op o σ = Ok (tt, σ') -> labels_owned σ -> labels_owned σ'.
Proof.
  destruct o as [|n p|n d|n l]; simpl; intros H Ho.
  - apply bind_inv in H as (r & σ1 & H1 & [= <-]).
    unfold eTree_construct, alloc_tree in H1. injection H1 as <- <-.
    apply (labels_owned_same σ); [done| |done]. intros x. simpl.
    destruct (decide (x = fresh (dom (trees σ)))) as [->|Hne].
    + right. rewrite lookup_insert_eq. split; [|done].
      apply not_elem_of_dom, is_fresh.
    + left. by rewrite lookup_insert_ne.
  - apply eTree_setParent_inv in H as (N & HN & Hs & _ & _ & Ht').
    apply (labels_owned_same σ); [done| |done]. intros x. left.
    rewrite Ht'. by destruct (trees σ !! x).
  - apply eTree_setBranchLength_inv in H as (N & HN & ->).
    apply (labels_owned_same σ); [done| |done]. intros x. left. simpl.
    destruct (decide (x = n)) as [->|Hne].
    + by rewrite lookup_insert_eq, HN.
    + by rewrite lookup_insert_ne.
  - apply eTree_setLabel_inv_strs in H as (N & HN & Hold & H). cbv zeta in H.
    set (live := match label N with Some l0 => delete l0 (strs σ) | None => strs σ end) in *.
    (* the labels of the other nodes are in [live], unchanged *)
    assert (Hother : forall x X l1, x <> n -> trees σ !! x = Some X -> label X = Some l1 ->
              live !! l1 = strs σ !! l1 /\ is_Some (live !! l1)).
    { intros x X l1 Hx HX Hl1. destruct (Ho x X l1 HX Hl1) as [Hlive Huniq].
      assert (live !! l1 = strs σ !! l1) as Heq.
      { subst live. destruct (label N) as [l0|] eqn:El0; [|done].
        rewrite lookup_delete_ne; [done|]. intros <-.
        apply Hx. symmetry. by apply (Huniq n N). }
      split; [done|]. by rewrite Heq. }
    assert (Hgen : forall lnew ss,
      (forall l1, is_Some (live !! l1) -> ss !! l1 = live !! l1) ->
      match lnew with
      | Some p => is_Some (ss !! p) /\ ~ is_Some (live !! p)
      | None => True
      end ->
      labels_owned (mkMem (<[n := mkETree (branchLength N) (nodes N) lnew (parent N)]>
                             (trees σ)) ss)).
    { intros lnew ss Hss Hnew x X l1. simpl.
      destruct (decide (x = n)) as [->|Hx].
      - rewrite lookup_insert_eq. intros [= <-]. simpl. intros ->. split; [by destruct Hnew|].
        intros y Y. destruct (decide (y = n)) as [->|Hy]; [done|].
        rewrite lookup_insert_ne by done. intros HY HlY.
        destruct (Hother y Y l1 Hy HY HlY) as [_ Hin]. by destruct Hnew as [_ []].
      - rewrite lookup_insert_ne by done. intros HX Hl1.
        destruct (Hother x X l1 Hx HX Hl1) as [Heq Hin].
        destruct (Ho x X l1 HX Hl1) as [Hlive Huniq]. split.
        + rewrite Hss by done. by rewrite Heq.
        + intros y Y. destruct (decide (y = n)) as [->|Hy].
          * rewrite lookup_insert_eq. intros [= <-]. simpl. intros ->.
            by destruct Hnew as [_ []].
          * rewrite lookup_insert_ne by done. apply Huniq. }
    destruct l as [s|].
    + destruct H as (c & Hc & ->). apply Hgen.
      * intros l1 Hin. rewrite lookup_insert_ne; [done|]. intros <-.
        apply (is_fresh (dom live)). by apply elem_of_dom.
      * split; [by rewrite lookup_insert_eq|]. intros Hin.
        apply (is_fresh (dom live)). by apply elem_of_dom.
    + rewrite H. by apply Hgen.
Qed.

Lemma reachable_labels_owned s0 σ : reachable s0 σ -> labels_owned σ.
Proof.
  induction 1 as [|o σ σ' _ IH Hop].
  - intros x N l HN. simpl in HN. by rewrite lookup_empty in HN.
  - by apply (run_op_labels_owned o σ σ').
Qed.

Lemma reachable_guarded_acyclic s0 σ : reachable_guarded s0 σ -> acyclic (trees σ).
Proof.
  induction 1 as [|o σ σ' _ IH Hg Hop].
  - intros n [k Hk]. simpl in Hk. by rewrite lookup_empty in Hk.
  - by eapply run_op_acyclic.
Qed.

(** ** Every node roots a tree *)

Lemma all_some_exists {A B} (g : A -> option B) l :
  (forall a, a ∈ l -> exists b, g a = Some b) ->
  exists r, all_some (List.map g l) = Some r.
Proof.
  induction l as [|a l IH]; intros Hg; [by exists []|].
  destruct (Hg a) as [b Hb]; [apply list_elem_of_here|].
  destruct IH as [r Hr]; [intros a' Ha'; apply Hg; by apply list_elem_of_further|].
  exists (b :: r). simpl. by rewrite Hb, Hr.
Qed.

(** With linked and acyclic nodes, reading the tree at [r] ends: the
    nodes in [S] are ancestors of [r], and each level adds one. *)
Lemma read_tree_exists σ :
  linked (trees σ) -> acyclic (trees σ) ->
  (forall x N l, trees σ !! x = Some N -> label N = Some l -> is_Some (strs σ !! l)) ->
  forall f (S : gset loc) r,
    r ∈ dom (trees σ) ->
    (forall x, x ∈ S -> is_ancestor (trees σ) x r) ->
    (base.size (dom (trees σ) ∖ S) <= f)%nat ->
    exists T, read_tree f σ r = Some T.
Proof.
  intros Hl Ha Hlab f. induction f as [|f IH]; intros S r Hr HS Hsz.
  - assert (r ∉ S) by (intros Hin; by apply (Ha r), HS).
    assert (Hne : dom (trees σ) ∖ S ≢ ∅) by set_solver.
    apply size_non_empty_iff in Hne. lia.
  - assert (HrS : r ∉ S) by (intros Hin; by apply (Ha r), HS).
    apply elem_of_dom in Hr as [N HN]. rewrite read_tree_S, HN.
    destruct (Hl r N HN) as (_ & Hch & _).
    destruct (all_some_exists (read_child f σ r) (nodes N)) as [kids Hkids].
    { intros c Hc. destruct (Hch c Hc) as (C & HC & Hpar).
      unfold read_child. rewrite HC, decide_True by done.
      assert (Hrc : is_ancestor (trees σ) r c).
      { exists O. rewrite climb_S, HC. simpl. by rewrite Hpar. }
      apply (IH (S ∪ {[r]})).
      - by apply elem_of_dom_2 in HC.
      - intros x [Hx| ->%elem_of_singleton]%elem_of_union; [|done].
        destruct (HS x Hx) as [k Hk]. exists (Datatypes.S k).
        rewrite climb_S, HC. simpl. by rewrite Hpar.
      - assert (Hsub : dom (trees σ) ∖ (S ∪ {[r]}) ⊂ dom (trees σ) ∖ S).
        { apply elem_of_dom_2 in HN. set_solver. }
        apply subset_size in Hsub. lia. }
    rewrite Hkids. destruct (label N) as [p|] eqn:Ep; [|eauto].
    destruct (Hlab r N p HN Ep) as [s ->]. eauto.
Qed.

Section BuiltTrees.
Context `{Libc}.

(** X16. Trees built through the interface can be written: in every
    memory reached by calls of the interface in which no node is
    reparented under itself or one of its descendants, every node roots
    a tree, and [eTree_getNewickTreeString] returns its Newick text for
    every bound on the recursion that is at least the height. *)
Theorem built_trees_are_written s0 σ r :
  reachable_guarded s0 σ -> r ∈ dom (trees σ) ->
  exists T, tree_at σ r T /\
    forall fuel, (height T <= fuel)%nat ->
      eTree_getNewickTreeString fuel r σ = Ok (write_tree T ++ cs ";", σ).
Proof.
  intros Hg Hr.
  pose proof (reachable_guarded_reachable _ _ Hg) as Hreach.
  pose proof (reachable_labels_owned _ _ Hreach) as Ho.
  destruct (read_tree_exists σ (reachable_linked _ _ Hreach)
              (reachable_guarded_acyclic _ _ Hg)
              (fun x N l HN Hl => proj1 (Ho x N l HN Hl))
              (base.size (dom (trees σ))) ∅ r Hr) as [T HT].
  { intros x Hx. by apply elem_of_empty in Hx. }
  { apply subseteq_size. set_solver. }
  exists T. split; [by eexists|].
  intros fuel Hf. unfold eTree_getNewickTreeString.
  by rewrite (bind_Ok _ _ _ _ _ (eTree_getNewickTreeStringP_spec _ _ _ _ HT fuel Hf)).
Qed.

End BuiltTrees.

Lemma built_trees_are_written_witness :
  exists T, tree_at two_node_mem 2%positive T /\
    forall fuel, (height T <= fuel)%nat ->
      @eTree_getNewickTreeString Glibc.libc fuel 2%positive two_node_mem =
        Ok (@write_tree Glibc.libc T ++ cs ";", two_node_mem).
Proof.
  assert (Hr : reachable_guarded ∅ two_node_mem).
  { eapply (greach_op ∅ (SetParent 1%positive (Some 2%positive))).
    - eapply (greach_op ∅ Construct).
      + eapply (greach_op ∅ Construct); [apply greach_init|exact I|].
        vm_compute. reflexivity.
      + exact I.
      + vm_compute. reflexivity.
    - split; [discriminate|]. intros [k Hk]. vm_compute in Hk. discriminate.
    - vm_compute. reflexivity. }
  assert (Hd : 2%positive ∈ dom (trees two_node_mem)).
  { apply elem_of_dom. eexists. vm_compute. reflexivity. }
  exact (@built_trees_are_written Glibc.libc ∅ two_node_mem 2%positive Hr Hd).
Defined.


(** ** A built tree, with its addresses *)

Lemma Forall2_exists {A B} (P : A -> B -> Prop) (l : list A) :
  (forall a, a ∈ l -> exists b, P a b) -> exists bs, Forall2 P l bs.
Proof.
  induction l as [|a l IH]; intros HP; [exists []; constructor|].
  destruct (HP a) as [b Hb]; [apply list_elem_of_here|].
  destruct IH as [bs Hbs]; [intros a' Ha'; apply HP; by apply list_elem_of_further|].
  exists (b :: bs). by constructor.
Qed.

(** A node of the tree is reached from the root by child lists, so it
    reaches the root by parent links. *)
Lemma anodes_climb σ par t x :
  repr σ par t -> x ∈ anodes t -> exists i, climb (trees σ) i x = Some (aroot t).
Proof.
  revert par. induction t as [a lbl len kids IH] using atree_ind'.
  intros par. rewrite repr_eq, anodes_eq. intros (Ha & _ & Hk).
  intros [->|Hx]%elem_of_cons; [by exists O|].
  apply elem_of_flat_map in Hx as (k & Hkin & Hx).
  rewrite Forall_forall in IH, Hk.
  destruct (IH k Hkin (Some a) (Hk k Hkin) Hx) as [i Hi].
  exists (i + 1)%nat. rewrite climb_add, Hi. simpl.
  pose proof (Hk k Hkin) as Hrk. destruct k as [b bl bd bk].
  apply repr_eq in Hrk as (Hb & _). simpl. by rewrite Hb.
Qed.

Lemma below_anodes σ k :
  forall par t x, repr σ par t -> below σ k (aroot t) x -> x ∈ anodes t.
Proof.
  assert (Hchild : forall par t c, repr σ par t -> child σ (aroot t) c ->
            exists k', k' ∈ match t with ANode _ _ _ kids => kids end /\ aroot k' = c /\
                       repr σ (Some (aroot t)) k').
  { intros par [a lbl len kids] c (Ha & _ & Hk)%repr_eq (N & HN & Hc). simpl in *.
    rewrite Ha in HN. injection HN as <-. simpl in Hc.
    apply list_elem_of_In, in_map_iff in Hc as (k' & Hk' & Hin).
    apply list_elem_of_In in Hin. rewrite Forall_forall in Hk.
    exists k'. split; [done|]. split; [done|]. by apply Hk. }
  induction k as [|k IH]; intros par t x Hr Hb.
  - destruct (Hchild par t x Hr Hb) as (k' & Hin & <- & Hr').
    destruct t as [a lbl len kids]. rewrite anodes_eq. apply list_elem_of_further.
    apply elem_of_flat_map. exists k'. split; [done|]. destruct k'. apply list_elem_of_here.
  - destruct Hb as (c & Hc & Hb).
    destruct (Hchild par t c Hr Hc) as (k' & Hin & <- & Hr').
    pose proof (IH _ _ _ Hr' Hb) as Hx.
    destruct t as [a lbl len kids]. rewrite anodes_eq. apply list_elem_of_further.
    apply elem_of_flat_map. eauto.
Qed.

Lemma anodes_label σ par t x N p :
  repr σ par t -> x ∈ anodes t -> trees σ !! x = Some N -> label N = Some p ->
  p ∈ alabels t.
Proof.
  revert par. induction t as [a lbl len kids IH] using atree_ind'.
  intros par. rewrite repr_eq, anodes_eq, alabels_eq. intros (Ha & _ & Hk).
  intros [->|Hx]%elem_of_cons HN Hp.
  - rewrite Ha in HN. injection HN as <-. simpl in Hp.
    destruct lbl as [[q s]|]; [|done]. injection Hp as ->.
    apply elem_of_app. left. apply list_elem_of_here.
  - apply elem_of_flat_map in Hx as (k & Hkin & Hx).
    rewrite Forall_forall in IH, Hk.
    apply elem_of_app. right. apply elem_of_flat_map. exists k. split; [done|].
    by apply (IH k Hkin (Some a) (Hk k Hkin)).
Qed.

(** Two children of one node have no node in common below them. *)
Lemma siblings_apart_lt t a c1 c2 C1 C2 i j x :
  acyclic t ->
  t !! c1 = Some C1 -> parent C1 = Some a ->
  t !! c2 = Some C2 -> parent C2 = Some a ->
  (i < j)%nat -> climb t i x = Some c1 -> climb t j x = Some c2 -> False.
Proof.
  intros Hac H1 P1 H2 P2 Hij Hi Hj.
  replace j with (i + S (j - i - 1))%nat in Hj by lia.
  rewrite climb_add, Hi in Hj. simpl in Hj. rewrite H1, P1 in Hj.
  apply (Hac a). exists (j - i - 1)%nat.
  replace (S (j - i - 1)) with ((j - i - 1) + 1)%nat by lia.
  rewrite climb_add, Hj. simpl. by rewrite H2, P2.
Qed.

Lemma siblings_apart t a c1 c2 C1 C2 i j x :
  acyclic t ->
  t !! c1 = Some C1 -> parent C1 = Some a ->
  t !! c2 = Some C2 -> parent C2 = Some a ->
  climb t i x = Some c1 -> climb t j x = Some c2 -> c1 = c2.
Proof.
  intros Hac H1 P1 H2 P2 Hi Hj.
  destruct (Nat.lt_trichotomy i j) as [Hlt|[->|Hgt]].
  - by destruct (siblings_apart_lt t a c1 c2 C1 C2 i j x).
  - congruence.
  - by destruct (siblings_apart_lt t a c2 c1 C2 C1 j i x).
Qed.

Lemma repr_root σ par t :
  repr σ par t -> exists N, trees σ !! aroot t = Some N /\ parent N = par.
Proof. destruct t as [a lbl len kids]. intros (Ha & _)%repr_eq. simpl. eauto. Qed.

(** In a memory without cycles a tree sits at distinct addresses. *)
Lemma repr_NoDup σ :
  linked (trees σ) -> acyclic (trees σ) ->
  forall t par, repr σ par t -> NoDup (anodes t).
Proof.
  intros Hl Hac t. induction t as [a lbl len kids IH] using atree_ind'.
  intros par Hr. pose proof Hr as (Ha & _ & Hk)%repr_eq.
  destruct (Hl a _ Ha) as (Hnd & _). simpl in Hnd.
  rewrite anodes_eq. apply NoDup_cons. split.
  - intros Hin. apply elem_of_flat_map in Hin as (k & Hkin & Hin).
    rewrite Forall_forall in Hk. pose proof (Hk k Hkin) as Hrk.
    destruct (anodes_climb σ _ k a Hrk Hin) as [i Hi].
    destruct (repr_root _ _ _ Hrk) as (K & HK & HpK).
    apply (Hac a). exists i.
    replace (S i) with (i + 1)%nat by lia. rewrite climb_add, Hi. simpl.
    by rewrite HK, HpK.
  - clear Ha Hr. induction kids as [|k kids IHk]; [constructor|].
    apply Forall_cons in IH as [IH1 IH2]. apply Forall_cons in Hk as [Hk1 Hk2].
    simpl in Hnd. apply NoDup_cons in Hnd as [Hk_notin Hnd].
    simpl. apply NoDup_app. split; [by apply (IH1 (Some a))|]. split.
    + intros x Hx Hx'. apply elem_of_flat_map in Hx' as (k' & Hk'in & Hx').
      rewrite Forall_forall in Hk2. pose proof (Hk2 k' Hk'in) as Hrk'.
      destruct (anodes_climb σ _ k x Hk1 Hx) as [i Hi].
      destruct (anodes_climb σ _ k' x Hrk' Hx') as [j Hj].
      destruct (repr_root _ _ _ Hk1) as (K & HK & HpK).
      destruct (repr_root _ _ _ Hrk') as (K' & HK' & HpK').
      apply Hk_notin.
      rewrite (siblings_apart (trees σ) a _ _ K K' i j x Hac HK HpK HK' HpK' Hi Hj).
      apply list_elem_of_In, in_map. by apply list_elem_of_In.
    + by apply IHk.
Qed.

Lemma repr_NoDup_labels σ :
  labels_owned σ ->
  forall t par, repr σ par t -> NoDup (anodes t) -> NoDup (alabels t).
Proof.
  intros Ho t. induction t as [a lbl len kids IH] using atree_ind'.
  intros par Hr Hn. pose proof Hr as (Ha & _ & Hk)%repr_eq.
  rewrite anodes_eq in Hn. apply NoDup_cons in Hn as [Hroot Hn].
  rewrite alabels_eq. apply NoDup_app. split; [|split].
  - destruct lbl as [[p s]|]; [apply NoDup_singleton|constructor].
  - intros p Hp Hp'. destruct lbl as [[q s]|]; [|by apply elem_of_nil in Hp].
    apply list_elem_of_singleton in Hp as ->.
    apply elem_of_flat_map in Hp' as (k & Hkin & Hp').
    rewrite Forall_forall in Hk.
    destruct (alabels_owner σ _ k q (Hk k Hkin) Hp') as (y & N & Hy & HN & HlN).
    destruct (Ho a _ q Ha eq_refl) as [_ Huniq].
    rewrite (Huniq y N HN HlN) in Hy. apply Hroot.
    apply elem_of_flat_map. eauto.
  - clear Ha Hr Hroot. induction kids as [|k kids IHk]; [constructor|].
    apply Forall_cons in IH as [IH1 IH2]. apply Forall_cons in Hk as [Hk1 Hk2].
    simpl in Hn. apply NoDup_app in Hn as (Hn1 & Hn2 & Hn3).
    simpl. apply NoDup_app. split; [by apply (IH1 (Some a))|]. split; [|by apply IHk].
    intros p Hp Hp'. apply elem_of_flat_map in Hp' as (k' & Hk'in & Hp').
    rewrite Forall_forall in Hk2.
    destruct (alabels_owner σ _ k p Hk1 Hp) as (y & N & Hy & HN & HlN).
    destruct (alabels_owner σ _ k' p (Hk2 k' Hk'in) Hp') as (y' & N' & Hy' & HN' & HlN').
    destruct (Ho y N p HN HlN) as [_ Huniq].
    rewrite (Huniq y' N' HN' HlN') in Hy'.
    apply (Hn2 y Hy). apply elem_of_flat_map. eauto.
Qed.

Lemma Forall2_aroot (Q : atree -> Prop) l kids :
  Forall2 (fun c t => aroot t = c /\ Q t) l kids ->
  List.map aroot kids = l /\ Forall Q kids.
Proof.
  induction 1 as [|c t l kids [Hc Hq] _ [IH1 IH2]]; [split; [done|constructor]|].
  split; [simpl; by rewrite Hc, IH1|by constructor].
Qed.

(** With linked and acyclic nodes and live labels, every node roots a
    tree in memory. *)
Lemma repr_exists σ :
  linked (trees σ) -> acyclic (trees σ) ->
  (forall x N l, trees σ !! x = Some N -> label N = Some l -> is_Some (strs σ !! l)) ->
  forall f (S : gset loc) r N,
    trees σ !! r = Some N ->
    (forall x, x ∈ S -> is_ancestor (trees σ) x r) ->
    (base.size (dom (trees σ) ∖ S) <= f)%nat ->
    exists t, aroot t = r /\ repr σ (parent N) t /\ (height (erase t) <= f)%nat.
Proof.
  intros Hl Ha Hlab f. induction f as [|f IH]; intros S r N HN HS Hsz.
  - assert (r ∉ S) by (intros Hin; by apply (Ha r), HS).
    assert (Hne : dom (trees σ) ∖ S ≢ ∅).
    { apply elem_of_dom_2 in HN. set_solver. }
    apply size_non_empty_iff in Hne. lia.
  - assert (HrS : r ∉ S) by (intros Hin; by apply (Ha r), HS).
    destruct (Hl r N HN) as (_ & Hch & _).
    destruct (Forall2_exists
                (fun c t => aroot t = c /\
                   (repr σ (Some r) t /\ (height (erase t) <= f)%nat)) (nodes N))
      as [kids Hkids].
    { intros c Hc. destruct (Hch c Hc) as (C & HC & Hpar).
      destruct (IH (S ∪ {[r]}) c C HC) as (t & Ht & Hrt & Hht).
      - intros x [Hx| ->%elem_of_singleton]%elem_of_union.
        + destruct (HS x Hx) as [k Hk]. exists (Datatypes.S k).
          rewrite climb_S, HC. simpl. by rewrite Hpar.
        + exists O. rewrite climb_S, HC. simpl. by rewrite Hpar.
      - assert (Hsub : dom (trees σ) ∖ (S ∪ {[r]}) ⊂ dom (trees σ) ∖ S).
        { apply elem_of_dom_2 in HN. set_solver. }
        apply subset_size in Hsub. lia.
      - exists t. rewrite Hpar in Hrt. done. }
    apply Forall2_aroot in Hkids as [Hroots Hkids].
    apply Forall_and in Hkids as [Hrk Hhk].
    assert (Hlbl : exists lbl : option (loc * cstr),
              fst <$> lbl = label N /\
              match lbl with Some (p, s) => strs σ !! p = Some s | None => True end).
    { destruct (label N) as [p|] eqn:Ep; [|by exists None].
      destruct (Hlab r N p HN Ep) as [s Hs]. by exists (Some (p, s)). }
    destruct Hlbl as (lbl & Hl1 & Hl2).
    exists (ANode r lbl (branchLength N) kids). split; [done|]. split.
    + apply repr_eq. rewrite Hroots, Hl1. split; [by destruct N|]. done.
    + rewrite erase_eq, height_eq. apply le_n_S. apply list_max_le.
      apply Forall_forall. intros h Hh. apply list_elem_of_In in Hh.
      apply in_map_iff in Hh as (T & <- & HT). apply in_map_iff in HT as (t & <- & Ht).
      rewrite Forall_forall in Hhk. apply Hhk. by apply list_elem_of_In.
Qed.

(** X17. Trees built through the interface can be destructed: in every
    memory reached by calls of the interface in which no node is
    reparented under itself or one of its descendants, [eTree_destruct]
    of a node succeeds once the bound on the recursion is large enough;
    it releases that node, the nodes below it and their labels, and
    leaves every other node and buffer as it was. *)
Theorem built_trees_are_destructed s0 σ r :
  reachable_guarded s0 σ -> r ∈ dom (trees σ) ->
  exists fuel0, forall fuel, (fuel0 <= fuel)%nat ->
    exists σ',
      eTree_destruct fuel r σ = Ok (tt, σ') /\
      (forall x, x = r \/ (exists k, below σ k r x) -> trees σ' !! x = None) /\
      (forall x, ~ (x = r \/ exists k, below σ k r x) -> trees σ' !! x = trees σ !! x) /\
      (forall p,
         (exists x N, (x = r \/ exists k, below σ k r x) /\
                      trees σ !! x = Some N /\ label N = Some p) ->
         strs σ' !! p = None) /\
      (forall p,
         ~ (exists x N, (x = r \/ exists k, below σ k r x) /\
                        trees σ !! x = Some N /\ label N = Some p) ->
         strs σ' !! p = strs σ !! p).
Proof.
  intros Hg Hr.
  pose proof (reachable_guarded_reachable _ _ Hg) as Hreach.
  pose proof (reachable_labels_owned _ _ Hreach) as Ho.
  pose proof (reachable_linked _ _ Hreach) as Hl.
  pose proof (reachable_guarded_acyclic _ _ Hg) as Hac.
  apply elem_of_dom in Hr as [N HN].
  destruct (repr_exists σ Hl Hac (fun x N l HN Hl => proj1 (Ho x N l HN Hl))
              (base.size (dom (trees σ))) ∅ r N HN) as (t & Ht & Hrt & _).
  { intros x Hx. by apply elem_of_empty in Hx. }
  { apply subseteq_size. set_solver. }
  pose proof (repr_NoDup σ Hl Hac t _ Hrt) as Hnd.
  pose proof (repr_NoDup_labels σ Ho t _ Hrt Hnd) as Hndl.
  assert (Hin : forall x, x ∈ anodes t <-> x = r \/ exists k, below σ k r x).
  { intros x. split.
    - intros Hx. rewrite <- Ht. by apply (anodes_below σ (parent N)).
    - intros [->|[k Hk]].
      + rewrite <- Ht. destruct t. apply list_elem_of_here.
      + rewrite <- Ht in Hk. by apply (below_anodes σ k (parent N)). }
  assert (Hlab : forall p, p ∈ alabels t <->
            exists x N, (x = r \/ exists k, below σ k r x) /\
                        trees σ !! x = Some N /\ label N = Some p).
  { intros p. split.
    - intros Hp. destruct (alabels_owner σ _ t p Hrt Hp) as (x & X & Hx & HX & HlX).
      exists x, X. split; [by apply Hin|done].
    - intros (x & X & Hx & HX & HlX). apply Hin in Hx.
      by apply (anodes_label σ (parent N) t x X). }
  exists (height (erase t)). intros fuel Hf.
  destruct (eTree_destruct_repr t σ _ fuel Hrt Hnd Hndl Hf) as (σ' & Hd & [Rt Rs]).
  exists σ'. rewrite Ht in Hd. split; [done|]. split; [|split; [|split]].
  - intros x Hx. apply Hin in Hx. by rewrite Rt, decide_True.
  - intros x Hx. rewrite Rt, decide_False; [done|]. by rewrite Hin.
  - intros p Hp. apply Hlab in Hp. by rewrite Rs, decide_True.
  - intros p Hp. rewrite Rs, decide_False; [done|]. by rewrite Hlab.
Qed.

Lemma built_trees_are_destructed_witness :
  exists fuel0, forall fuel, (fuel0 <= fuel)%nat ->
    exists σ',
      eTree_destruct fuel 2%positive two_node_mem = Ok (tt, σ') /\
      (forall x, x = 2%positive \/ (exists k, below two_node_mem k 2%positive x) ->
         trees σ' !! x = None) /\
      (forall x, ~ (x = 2%positive \/ exists k, below two_node_mem k 2%positive x) ->
         trees σ' !! x = trees two_node_mem !! x) /\
      (forall p,
         (exists x N, (x = 2%positive \/ exists k, below two_node_mem k 2%positive x) /\
                      trees two_node_mem !! x = Some N /\ label N = Some p) ->
         strs σ' !! p = None) /\
      (forall p,
         ~ (exists x N, (x = 2%positive \/ exists k, below two_node_mem k 2%positive x) /\
                        trees two_node_mem !! x = Some N /\ label N = Some p) ->
         strs σ' !! p = strs two_node_mem !! p).
Proof.
  assert (Hr : reachable_guarded ∅ two_node_mem).
  { eapply (greach_op ∅ (SetParent 1%positive (Some 2%positive))).
    - eapply (greach_op ∅ Construct).
      + eapply (greach_op ∅ Construct); [apply greach_init|exact I|].
        vm_compute. reflexivity.
      + exact I.
      + vm_compute. reflexivity.
    - split; [discriminate|]. intros [k Hk]. vm_compute in Hk. discriminate.
    - vm_compute. reflexivity. }
  assert (Hd : 2%positive ∈ dom (trees two_node_mem)).
  { apply elem_of_dom. eexists. vm_compute. reflexivity. }
  exact (built_trees_are_destructed ∅ two_node_mem 2%positive Hr Hd).
Defined.


(** * The further properties at concrete inputs *)

(** X3 at [four_node_mem]: node 1 moves from node 3 to node 4. *)
Lemma setParent_child_numbers_witness :
  reachable ∅ four_node_mem /\
  exists kp kq,
    eTree_getChildNumber 3%positive four_node_mem = Ok (kp, four_node_mem) /\
    eTree_getChildNumber 4%positive four_node_mem = Ok (kq, four_node_mem) /\
    eTree_getChildNumber 3%positive four_node_moved = Ok (kp - 1, four_node_moved) /\
    eTree_getChildNumber 4%positive four_node_moved = Ok (kq + 1, four_node_moved) /\
    (forall x k, x <> 3%positive -> x <> 4%positive ->
       eTree_getChildNumber x four_node_mem = Ok (k, four_node_mem) ->
       eTree_getChildNumber x four_node_moved = Ok (k, four_node_moved)).
Proof.
  assert (Hr : reachable ∅ four_node_mem).
  { apply (run_ops_reachable ∅
             [Construct; Construct; Construct; Construct;
              SetParent 1%positive (Some 3%positive);
              SetParent 2%positive (Some 3%positive)] empty_mem);
      [constructor|]. vm_compute. reflexivity. }
  assert (H1 : trees four_node_mem !! 1%positive =
               Some (mkETree INFINITY [] None (Some 3%positive)))
    by (vm_compute; reflexivity).
  assert (Hne : 4%positive <> 3%positive) by discriminate.
  assert (Hset : eTree_setParent 1%positive (Some 4%positive) four_node_mem =
                 Ok (tt, four_node_moved)) by (vm_compute; reflexivity).
  split; [exact Hr|].
  exact (setParent_child_numbers ∅ four_node_mem 1%positive _ 3%positive 4%positive
           four_node_moved Hr H1 eq_refl Hne Hset).
Defined.

(** X4 at [word_mem]: the node at 1 is labelled with the text ["A"]
    held at address 1 of the buffers. *)
Lemma eTree_setLabel_replaces_witness :
  exists σ' p,
    eTree_setLabel 1%positive (Some 1%positive) word_mem = Ok (tt, σ') /\
    eTree_getLabel 1%positive σ' = Ok (Some p, σ') /\
    p <> 1%positive /\ strs σ' !! p = Some (cs "A") /\
    strs σ' !! 1%positive = Some (cs "A").
Proof.
  assert (HN : trees word_mem !! 1%positive = Some (mkETree INFINITY [] None None))
    by (vm_compute; reflexivity).
  assert (Hlive : forall l, label (mkETree INFINITY [] None None) = Some l ->
                    is_Some (strs word_mem !! l)) by (intros l Hl; discriminate Hl).
  assert (Hs : strs word_mem !! 1%positive = Some (cs "A")) by (vm_compute; reflexivity).
  assert (Hown : label (mkETree INFINITY [] None None) <> Some 1%positive) by discriminate.
  destruct (proj1 (eTree_setLabel_replaces word_mem 1%positive _ HN Hlive)
              1%positive (cs "A") Hs Hown)
    as (σ' & p & E1 & E2 & E3 & E4 & E5 & _).
  exists σ', p. split; [exact E1|]. split; [exact E2|]. split; [exact E3|].
  split; [exact E4|exact E5].
Defined.

(** X5 and X6 at ["Abc"] and ["aBC"]. *)
Lemma stString_eq_contents_witness :
  exists b,
    stString_eq (Some 1%positive) (Some 2%positive) two_strings_mem =
      Ok (b, two_strings_mem) /\
    (b = true <-> contents two_strings_mem (Some 1%positive) =
                  contents two_strings_mem (Some 2%positive)).
Proof.
  assert (V1 : valid_str two_strings_mem (Some 1%positive)).
  { exists (cs "Abc"). vm_compute. reflexivity. }
  assert (V2 : valid_str two_strings_mem (Some 2%positive)).
  { exists (cs "aBC"). vm_compute. reflexivity. }
  exact (stString_eq_contents two_strings_mem _ _ V1 V2).
Defined.

Lemma stString_eqcase_contents_witness :
  exists b,
    stString_eqcase (Some 1%positive) (Some 2%positive) two_strings_mem =
      Ok (b, two_strings_mem) /\
    (b = true <->
       List.map tolower <$> contents two_strings_mem (Some 1%positive) =
       List.map tolower <$> contents two_strings_mem (Some 2%positive)) /\
    (stString_eq (Some 1%positive) (Some 2%positive) two_strings_mem =
       Ok (true, two_strings_mem) -> b = true).
Proof.
  assert (V1 : valid_str two_strings_mem (Some 1%positive)).
  { exists (cs "Abc"). vm_compute. reflexivity. }
  assert (V2 : valid_str two_strings_mem (Some 2%positive)).
  { exists (cs "aBC"). vm_compute. reflexivity. }
  exact (stString_eqcase_contents two_strings_mem _ _ V1 V2).
Defined.

Lemma repr_two_children : repr two_children_mem None two_children_tree.
Proof.
  unfold two_children_tree. apply repr_eq. split; [vm_compute; reflexivity|].
  split; [done|]. constructor; [|constructor; [|constructor]].
  - apply repr_eq. split; [vm_compute; reflexivity|]. split; [done|constructor].
  - apply repr_eq. split; [vm_compute; reflexivity|]. split; [done|constructor].
Defined.

Lemma repr_first_child : repr two_children_mem (Some 3%positive) first_child_tree.
Proof.
  unfold first_child_tree. apply repr_eq. split; [vm_compute; reflexivity|].
  split; [done|constructor].
Defined.

(** X7 at [two_children_mem]: the whole tree is released. *)
Lemma eTree_destruct_subtree_witness :
  exists σ',
    eTree_destruct 2 (aroot two_children_tree) two_children_mem = Ok (tt, σ') /\
    (forall x, trees σ' !! x =
       if decide (x ∈ anodes two_children_tree) then None
       else trees two_children_mem !! x) /\
    (forall p, strs σ' !! p =
       if decide (p ∈ alabels two_children_tree) then None
       else strs two_children_mem !! p).
Proof.
  assert (Hn : NoDup (anodes two_children_tree)).
  { apply (bool_decide_unpack _). vm_compute. exact I. }
  assert (Hl : NoDup (alabels two_children_tree)) by (simpl; constructor).
  assert (Hf : (height (erase two_children_tree) <= 2)%nat) by (simpl; lia).
  exact (eTree_destruct_subtree two_children_mem None two_children_tree 2
           repr_two_children Hn Hl Hf).
Defined.

(** X8 at [two_children_mem]: the first child of node 3 is
    destructed. *)
Lemma eTree_destruct_keeps_parent_link_witness :
  exists σ',
    eTree_destruct 1 (aroot first_child_tree) two_children_mem = Ok (tt, σ') /\
    trees σ' !! 3%positive =
      Some (mkETree INFINITY [1%positive; 2%positive] None None) /\
    eTree_getChild 3%positive (Z.of_nat 0) σ' = Ok (aroot first_child_tree, σ') /\
    eTree_getParent (aroot first_child_tree) σ' = Fault /\
    forall f s σ'', @eTree_getNewickTreeString Glibc.libc f 3%positive σ' <> Ok (s, σ'').
Proof.
  assert (H3 : trees two_children_mem !! 3%positive =
               Some (mkETree INFINITY [1%positive; 2%positive] None None))
    by (vm_compute; reflexivity).
  assert (Hi : nth_error (nodes (mkETree INFINITY [1%positive; 2%positive] None None)) 0 =
               Some (aroot first_child_tree)) by reflexivity.
  assert (Hp : 3%positive ∉ anodes first_child_tree).
  { simpl. intros Hin. apply list_elem_of_singleton in Hin. discriminate Hin. }
  assert (Hn : NoDup (anodes first_child_tree)).
  { apply (bool_decide_unpack _). vm_compute. exact I. }
  assert (Hl : NoDup (alabels first_child_tree)) by (simpl; constructor).
  assert (Hf : (height (erase first_child_tree) <= 1)%nat) by (simpl; lia).
  exact (@eTree_destruct_keeps_parent_link Glibc.libc two_children_mem 3%positive _
           first_child_tree 0%nat 1%nat H3 Hi repr_first_child Hp Hn Hl Hf).
Defined.

Lemma example_is_written :
  @eTree_getNewickTreeString Glibc.libc 3 1%positive example_mem =
    Ok (example_written, example_mem).
Proof. vm_compute. reflexivity. Defined.

Lemma example_is_parsed :
  @eTree_parseNewickString Glibc.libc example_text empty_mem =
    Ok (1%positive, example_mem).
Proof. vm_compute. reflexivity. Defined.

(** X9 at the tree of [example_mem]. *)
Lemma eTree_getNewickTreeString_needs_tree_witness :
  (forall k, ~ below example_mem k 1%positive 1%positive) /\
  (forall k c, below example_mem k 1%positive c ->
     is_Some (trees example_mem !! c) /\ forall j, ~ below example_mem j c c).
Proof.
  exact (@eTree_getNewickTreeString_needs_tree Glibc.libc 3%nat 1%positive example_mem
           example_written example_mem example_is_written).
Defined.

(** X10, X11, X13 and X15 at the text of the scenario, read in an empty
    memory. *)
Lemma parse_then_destruct_witness :
  exists T, tree_at example_mem 1%positive T /\
    forall fuel, (height T <= fuel)%nat ->
      eTree_destruct fuel 1%positive example_mem = Ok (tt, empty_mem).
Proof.
  exact (@parse_then_destruct Glibc.libc example_text empty_mem 1%positive example_mem
           example_is_parsed).
Defined.

Lemma parse_allocates_the_tree_witness :
  (1%positive ∉ dom (trees empty_mem)) /\
  (forall x, x ∈ dom (trees empty_mem) -> trees example_mem !! x = trees empty_mem !! x) /\
  (forall p, p ∈ dom (strs empty_mem) -> strs example_mem !! p = strs empty_mem !! p) /\
  (forall x, x ∈ dom (trees example_mem) -> x ∉ dom (trees empty_mem) ->
     x = 1%positive \/ exists k, below example_mem k 1%positive x) /\
  (forall p, p ∈ dom (strs example_mem) -> p ∉ dom (strs empty_mem) ->
     exists x N, (x ∉ dom (trees empty_mem)) /\
       trees example_mem !! x = Some N /\ label N = Some p).
Proof.
  exact (@parse_allocates_the_tree Glibc.libc example_text empty_mem 1%positive example_mem
           example_is_parsed).
Defined.

Lemma parse_ignores_rest_witness :
  exists T, tree_at example_mem 1%positive T /\
    (forall string2 ext σ2,
       words (spaced string2) = words (spaced example_text) ++ ext ->
       exists r2 σ2', @eTree_parseNewickString Glibc.libc string2 σ2 = Ok (r2, σ2') /\
                      tree_at σ2' r2 T) /\
    (forall c rest σ2, isspace c = true ->
       exists r2 σ2',
         @eTree_parseNewickString Glibc.libc (example_text ++ c :: rest) σ2 = Ok (r2, σ2') /\
         tree_at σ2' r2 T).
Proof.
  exact (@parse_ignores_rest Glibc.libc example_text empty_mem 1%positive example_mem
           example_is_parsed).
Defined.

Lemma write_then_parse_again_witness :
  (forall fuel, (height example_tree <= fuel)%nat ->
     @eTree_getNewickTreeString Glibc.libc fuel 1%positive example_mem =
       Ok (@write_tree Glibc.libc example_tree ++ cs ";", example_mem)) /\
  (forall σ2, exists r2 σ2',
     @eTree_parseNewickString Glibc.libc (@write_tree Glibc.libc example_tree ++ cs ";") σ2 =
       Ok (r2, σ2') /\
     tree_at σ2' r2 (@reread Glibc.libc example_tree)).
Proof.
  assert (HT : tree_at example_mem 1%positive example_tree).
  { exists 3%nat. vm_compute. reflexivity. }
  assert (HD : @lengths_print Glibc.libc example_tree).
  { apply (@readable_lengths_print Glibc.libc), (@readableb_sound Glibc.libc).
    vm_compute. reflexivity. }
  exact (@write_then_parse_again Glibc.libc example_text empty_mem 1%positive example_mem
           example_tree example_is_parsed HT HD).
Defined.

(** X12 at two layouts of the same tokens. *)
Lemma parse_depends_on_tokens_witness :
  (@eTree_parseNewickString Glibc.libc (cs "(A:1,B:2);") empty_mem = Abort <->
   @eTree_parseNewickString Glibc.libc (cs " ( A : 1 , B:2 )  ; ") example_mem = Abort) /\
  (forall r1 σ1',
     @eTree_parseNewickString Glibc.libc (cs "(A:1,B:2);") empty_mem = Ok (r1, σ1') ->
     exists r2 σ2' T,
       @eTree_parseNewickString Glibc.libc (cs " ( A : 1 , B:2 )  ; ") example_mem =
         Ok (r2, σ2') /\
       tree_at σ1' r1 T /\ tree_at σ2' r2 T).
Proof.
  assert (Hw : words (spaced (cs "(A:1,B:2);")) =
               words (spaced (cs " ( A : 1 , B:2 )  ; "))) by (vm_compute; reflexivity).
  exact (@parse_depends_on_tokens Glibc.libc _ _ empty_mem example_mem Hw).
Defined.

(** X14 at a text of two spaces. *)
Lemma parse_blank_aborts_witness :
  @eTree_parseNewickString Glibc.libc (cs "  ") empty_mem = Abort.
Proof.
  apply (@parse_blank_aborts Glibc.libc (cs "  ") empty_mem).
  intros c Hc. simpl in Hc.
  apply elem_of_cons in Hc as [->|Hc]; [reflexivity|].
  apply list_elem_of_singleton in Hc as ->. reflexivity.
Defined.
